(** * spotify-manager: the liked-songs sorter and the artist filter

    A shallow embedding of [internal/processor]: the playlist sorter
    ([playlistSorter.Run] and its helpers) and the artist track remover
    ([artistTrackRemover.Run], [findTracksToRemove]).

    The processors only talk to the outside world through the
    [SpotifyClient] and [ImageGenerator] interfaces.  A processor is
    embedded as a function from a world [W] to an outcome, the new world
    and the transcript of the interface calls it made, each call with the
    reply it received.  Loops whose trip count is decided by the remote
    side take a fuel argument; running out of fuel is the outcome
    [NoFuel], distinct from every Go return value.

    Logger output has no influence on control flow or on the remote
    state and is left out.  Go's [int] is embedded as [Z]: every integer
    of these programs is a slice length, an offset that grows by at most
    100 per remote call, a reported total or a calendar year, none of
    which comes near the 64-bit limits. *)

From stdpp Require Import gmap strings list sorting infinite.
From Stdlib Require Import Ascii DecimalString DecimalPos DecimalZ.

Local Open Scope string_scope.
Local Open Scope list_scope.
Local Open Scope Z_scope.

(** ** Data model (the fields of the zmb3/spotify types the code reads) *)

(** [spotify.ID] is a named string type. *)
Abbreviation ID := string.

Definition Image := list Byte.byte.

Module SimpleArtist.
Record t := mk { Name : string }.
End SimpleArtist.

Module SavedTrack.
Record t := mk {
  AddedAt : string;
  ID : ID;
  Name : string;
  Artists : list SimpleArtist.t }.
End SavedTrack.

Module SavedTrackPage.
Record t := mk { Total : Z; Tracks : list SavedTrack.t }.
End SavedTrackPage.

Module User.
Record t := mk { ID : string }.
End User.

Module SimplePlaylist.
Record t := mk { ID : ID; Name : string; Owner : User.t }.
End SimplePlaylist.

Module SimplePlaylistPage.
Record t := mk { Total : Z; Playlists : list SimplePlaylist.t }.
End SimplePlaylistPage.

Module FullTrack.
Record t := mk { ID : ID }.
End FullTrack.

Module PlaylistTrack.
Record t := mk { Track : FullTrack.t }.
End PlaylistTrack.

Module PlaylistTrackPage.
Record t := mk { Total : Z; Tracks : list PlaylistTrack.t }.
End PlaylistTrackPage.

Module FullPlaylist.
Record t := mk { ID : ID; Name : string }.
End FullPlaylist.

Module PrivateUser.
Record t := mk { ID : string }.
End PrivateUser.

(** ** Errors and replies *)

(** A Go [error]: either an error value handed over by a collaborator or
    the result of [fmt.Errorf("<msg>: %w", err)]. *)
Inductive error :=
| Failure (msg : string)
| Errorf (msg : string) (cause : error).

Fixpoint root_cause (e : error) : error :=
  match e with
  | Failure _ => e
  | Errorf _ cause => root_cause cause
  end.

(** What an interface method gives back: a value or a non-nil error. *)
Inductive Reply (A : Type) :=
| Ret (a : A)
| Raise (e : error).
Arguments Ret {A} a.
Arguments Raise {A} e.

Definition raised {A} (r : Reply A) : bool :=
  match r with Raise _ => true | Ret _ => false end.

(** ** The transcript of interface calls *)

Inductive Event :=
| ECurrentUser (r : Reply PrivateUser.t)
| ECurrentUsersTracks (limit offset : Z) (r : Reply SavedTrackPage.t)
| ERemoveTracksFromLibrary (ids : list ID) (r : Reply unit)
| ECreatePlaylistForUser (userID playlistName description : string)
    (public collaborative : bool) (r : Reply FullPlaylist.t)
| EAddTracksToPlaylist (playlistID : ID) (trackIDs : list ID) (r : Reply string)
| ESetPlaylistImage (playlistID : ID) (img : Image) (r : Reply unit)
| EGetPlaylistsForUser (userID : string) (limit offset : Z)
    (r : Reply SimplePlaylistPage.t)
| EGetPlaylistTracks (playlistID : ID) (limit offset : Z)
    (r : Reply PlaylistTrackPage.t)
| ERemoveTracksFromPlaylist (playlistID : ID) (trackIDs : list ID)
    (r : Reply string)
| EGenerateForPlaylist (name : string) (r : Reply Image).

Definition raised_error {A} (r : Reply A) : option error :=
  match r with Raise e => Some e | Ret _ => None end.

(** The call came back with a non-nil error. *)
Definition failed (ev : Event) : bool :=
  match ev with
  | ECurrentUser r => raised r
  | ECurrentUsersTracks _ _ r => raised r
  | ERemoveTracksFromLibrary _ r => raised r
  | ECreatePlaylistForUser _ _ _ _ _ r => raised r
  | EAddTracksToPlaylist _ _ r => raised r
  | ESetPlaylistImage _ _ r => raised r
  | EGetPlaylistsForUser _ _ _ r => raised r
  | EGetPlaylistTracks _ _ _ r => raised r
  | ERemoveTracksFromPlaylist _ _ r => raised r
  | EGenerateForPlaylist _ r => raised r
  end.

(** The error a failed call came back with. *)
Definition error_of (ev : Event) : option error :=
  match ev with
  | ECurrentUser r => raised_error r
  | ECurrentUsersTracks _ _ r => raised_error r
  | ERemoveTracksFromLibrary _ r => raised_error r
  | ECreatePlaylistForUser _ _ _ _ _ r => raised_error r
  | EAddTracksToPlaylist _ _ r => raised_error r
  | ESetPlaylistImage _ _ r => raised_error r
  | EGetPlaylistsForUser _ _ _ r => raised_error r
  | EGetPlaylistTracks _ _ _ r => raised_error r
  | ERemoveTracksFromPlaylist _ _ r => raised_error r
  | EGenerateForPlaylist _ r => raised_error r
  end.

(** Cover-image generation and upload, the two cosmetic calls. *)
Definition is_image (ev : Event) : bool :=
  match ev with
  | ESetPlaylistImage _ _ _ | EGenerateForPlaylist _ _ => true
  | _ => false
  end.

(** Calls that change the remote state. *)
Definition is_write (ev : Event) : bool :=
  match ev with
  | ERemoveTracksFromLibrary _ _ | ECreatePlaylistForUser _ _ _ _ _ _
  | EAddTracksToPlaylist _ _ _ | ESetPlaylistImage _ _ _
  | ERemoveTracksFromPlaylist _ _ _ => true
  | _ => false
  end.

(** ** The interfaces of interfaces.go *)

(** [SpotifyClient], over a world [W] standing for whatever the remote
    service and the connection to it hold.  [Search] and
    [UnfollowPlaylist], which neither processor calls, are left out.
    The request options [spotify.Limit] and [spotify.Offset] are the two
    integer arguments, in that order. *)
Record SpotifyClient (W : Type) := {
  CurrentUser : W → Reply PrivateUser.t * W;
  CurrentUsersTracks : Z → Z → W → Reply SavedTrackPage.t * W;
  RemoveTracksFromLibrary : list ID → W → Reply unit * W;
  CreatePlaylistForUser :
    string → string → string → bool → bool → W → Reply FullPlaylist.t * W;
  AddTracksToPlaylist : ID → list ID → W → Reply string * W;
  SetPlaylistImage : ID → Image → W → Reply unit * W;
  GetPlaylistsForUser : string → Z → Z → W → Reply SimplePlaylistPage.t * W;
  GetPlaylistTracks : ID → Z → Z → W → Reply PlaylistTrackPage.t * W;
  RemoveTracksFromPlaylist : ID → list ID → W → Reply string * W }.
Arguments CurrentUser {W}.
Arguments CurrentUsersTracks {W}.
Arguments RemoveTracksFromLibrary {W}.
Arguments CreatePlaylistForUser {W}.
Arguments AddTracksToPlaylist {W}.
Arguments SetPlaylistImage {W}.
Arguments GetPlaylistsForUser {W}.
Arguments GetPlaylistTracks {W}.
Arguments RemoveTracksFromPlaylist {W}.

Record ImageGenerator (W : Type) := {
  GenerateForPlaylist : string → W → Reply Image * W }.
Arguments GenerateForPlaylist {W}.

(** ** The monad of processor code *)

Inductive Outcome (A : Type) :=
| Ok (a : A)        (* returned a value and a nil error *)
| Err (e : error)   (* returned a non-nil error *)
| NoFuel.           (* the fuel ran out before the code returned *)
Arguments Ok {A} a.
Arguments Err {A} e.
Arguments NoFuel {A}.

Definition is_err {A} (o : Outcome A) : bool :=
  match o with Err _ => true | _ => false end.

Definition M (W A : Type) : Type := W → Outcome A * W * list Event.

Definition ret {W A} (a : A) : M W A := λ w, (Ok a, w, []).

Definition throw {W A} (e : error) : M W A := λ w, (Err e, w, []).

Definition starve {W A} : M W A := λ w, (NoFuel, w, []).

Definition bind {W A B} (m : M W A) (k : A → M W B) : M W B :=
  λ w, match m w with
       | (Ok a, w1, t1) => let '(o, w2, t2) := k a w1 in (o, w2, t1 ++ t2)
       | (Err e, w1, t1) => (Err e, w1, t1)
       | (NoFuel, w1, t1) => (NoFuel, w1, t1)
       end.

Notation "'let*' x ':=' m 'in' k" := (bind m (λ x, k))
  (at level 10, x name, m at level 100, k at level 200).

(** One interface call: run the method, log the call with its reply. *)
Definition call {W A} (op : W → Reply A * W) (ev : Reply A → Event) : M W A :=
  λ w, let '(r, w') := op w in
       (match r with Ret a => Ok a | Raise e => Err e end, w', [ev r]).

(** [x, err := m; if err != nil { return fmt.Errorf("<msg>: %w", err) }] *)
Definition wrapErr {W A} (msg : string) (m : M W A) : M W A :=
  λ w, match m w with
       | (Err e, w1, t1) => (Err (Errorf msg e), w1, t1)
       | other => other
       end.

(** [x, err := m] where the code goes on after a non-nil [err]. *)
Definition attempt {W A} (m : M W A) : M W (Reply A) :=
  λ w, match m w with
       | (Ok a, w1, t1) => (Ok (Ret a), w1, t1)
       | (Err e, w1, t1) => (Ok (Raise e), w1, t1)
       | (NoFuel, w1, t1) => (NoFuel, w1, t1)
       end.

(** [len(s)] *)
Definition len {A} (l : list A) : Z := Z.of_nat (length l).

(** [s[i:j]], for [0 <= i <= j <= len(s)] (outside of which Go panics;
    the loops below stay inside). *)
Definition slice {A} (l : list A) (i j : Z) : list A :=
  take (Z.to_nat (j - i)) (drop (Z.to_nat i) l).

(** [fmt.Sprintf("%d", n)] *)
Definition itoa (n : Z) : string := NilZero.string_of_int (Z.to_int n).

(** ** playlistSorter *)

Section PlaylistSorter.
Context {W : Type}.
(** The fields [client] and [imgGen] of the [playlistSorter] struct. *)
Variable client : SpotifyClient W.
Variable imgGen : ImageGenerator W.
(** [time.Parse(time.RFC3339, s)] followed by [.Year()]: [None] when the
    standard library reports a parse error. *)
Variable parseYear : string → option Z.

(** The loop of [fetchAllLikedTracks], entered with the accumulator
    [allTracks] and the current [offset]. *)
Fixpoint fetchLikedLoop (fuel : nat) (allTracks : list SavedTrack.t)
    (offset : Z) : M W (list SavedTrack.t) :=
  match fuel with
  | O => starve
  | S fuel =>
    let limit := 50 in
    let* page := call (CurrentUsersTracks client limit offset)
                      (ECurrentUsersTracks limit offset) in
    if decide (len (SavedTrackPage.Tracks page) = 0) then ret allTracks
    else fetchLikedLoop fuel (allTracks ++ SavedTrackPage.Tracks page)
           (offset + len (SavedTrackPage.Tracks page))
  end.

Definition fetchAllLikedTracks (fuel : nat) : M W (list SavedTrack.t) :=
  fetchLikedLoop fuel [] 0.

(** [grouped[year] = append(grouped[year], item.ID)]; indexing a Go map
    at an absent key yields the nil slice. *)
Definition groupStep (grouped : gmap Z (list ID)) (item : SavedTrack.t)
    : gmap Z (list ID) :=
  match parseYear (SavedTrack.AddedAt item) with
  | None => grouped            (* log; continue *)
  | Some year =>
    <[year := default [] (grouped !! year) ++ [SavedTrack.ID item]]> grouped
  end.

Definition groupTracksByYear (tracks : list SavedTrack.t)
    : gmap Z (list ID) :=
  foldl groupStep ∅ tracks.

(** The inner [for _, pl := range page.Playlists] of
    [findExistingPlaylist]: the first playlist passing the test. *)
Fixpoint scanPlaylists (userID name : string)
    (playlists : list SimplePlaylist.t) : option SimplePlaylist.t :=
  match playlists with
  | [] => None
  | pl :: rest =>
    if decide (SimplePlaylist.Name pl = name
               ∧ User.ID (SimplePlaylist.Owner pl) = userID)
    then Some pl
    else scanPlaylists userID name rest
  end.

Fixpoint findLoop (fuel : nat) (userID name : string) (offset : Z)
    : M W (option SimplePlaylist.t) :=
  match fuel with
  | O => starve
  | S fuel =>
    let limit := 50 in
    let* page := wrapErr "failed to get user playlists"
                   (call (GetPlaylistsForUser client userID limit offset)
                         (EGetPlaylistsForUser userID limit offset)) in
    match scanPlaylists userID name (SimplePlaylistPage.Playlists page) with
    | Some found => ret (Some found)
    | None =>
      if decide (len (SimplePlaylistPage.Playlists page) = 0) then ret None
      else findLoop fuel userID name
             (offset + len (SimplePlaylistPage.Playlists page))
    end
  end.

(** The result [None] is the Go return value [(nil, nil)]. *)
Definition findExistingPlaylist (fuel : nat) (userID name : string)
    : M W (option SimplePlaylist.t) :=
  findLoop fuel userID name 0.

(** The inner loop of [fetchAllPlaylistTracks]: items with an empty
    track ID are passed over. *)
Definition keepValid (allTrackIDs : list ID) (item : PlaylistTrack.t)
    : list ID :=
  if decide (FullTrack.ID (PlaylistTrack.Track item) ≠ "")
  then allTrackIDs ++ [FullTrack.ID (PlaylistTrack.Track item)]
  else allTrackIDs.

Fixpoint fetchPlaylistLoop (fuel : nat) (playlistID : ID)
    (allTrackIDs : list ID) (offset : Z) : M W (list ID) :=
  match fuel with
  | O => starve
  | S fuel =>
    let limit := 100 in
    let* page := call (GetPlaylistTracks client playlistID limit offset)
                      (EGetPlaylistTracks playlistID limit offset) in
    if decide (len (PlaylistTrackPage.Tracks page) = 0) then ret allTrackIDs
    else fetchPlaylistLoop fuel playlistID
           (foldl keepValid allTrackIDs (PlaylistTrackPage.Tracks page))
           (offset + len (PlaylistTrackPage.Tracks page))
  end.

Definition fetchAllPlaylistTracks (fuel : nat) (playlistID : ID)
    : M W (list ID) :=
  fetchPlaylistLoop fuel playlistID [] 0.

(** The loop shared by [removeTracksInBatches] and [addTracksInBatches]:
    [for i := 0; i < len(trackIDs); i += batchSize], entered at [i].
    [send] is the remote call of the body together with its error
    wrapping.  [gas] bounds the number of iterations; the two callers
    pass the length of [trackIDs], which the loop never uses up. *)
Fixpoint batchLoop (gas : nat) (batchSize : Z) (send : list ID → M W unit)
    (trackIDs : list ID) (i : Z) : M W unit :=
  if decide (i < len trackIDs) then
    match gas with
    | O => starve
    | S gas =>
      let end_ := i + batchSize in
      let end_ := if decide (end_ > len trackIDs) then len trackIDs
                  else end_ in
      let batch := slice trackIDs i end_ in
      let* _ := send batch in
      batchLoop gas batchSize send trackIDs (i + batchSize)
    end
  else ret tt.

Definition inBatches (batchSize : Z) (send : list ID → M W unit)
    (trackIDs : list ID) : M W unit :=
  batchLoop (length trackIDs) batchSize send trackIDs 0.

Definition sendRemove (playlistID : ID) (batch : list ID) : M W unit :=
  let* _ := wrapErr "failed to remove tracks from playlist"
              (call (RemoveTracksFromPlaylist client playlistID batch)
                    (ERemoveTracksFromPlaylist playlistID batch)) in
  ret tt.

Definition sendAdd (playlistID : ID) (batch : list ID) : M W unit :=
  let* _ := wrapErr "failed to add tracks to playlist"
              (call (AddTracksToPlaylist client playlistID batch)
                    (EAddTracksToPlaylist playlistID batch)) in
  ret tt.

Definition removeTracksInBatches (playlistID : ID) (trackIDs : list ID)
    : M W unit :=
  if decide (len trackIDs = 0) then ret tt
  else
    let batchSize := 100 in
    inBatches batchSize (sendRemove playlistID) trackIDs.

Definition addTracksInBatches (playlistID : ID) (trackIDs : list ID)
    : M W unit :=
  let batchSize := 100 in
  inBatches batchSize (sendAdd playlistID) trackIDs.

(** [sort.Ints] over the keys collected from the map. *)
Definition sortedYears (tracksByYear : gmap Z (list ID)) : list Z :=
  merge_sort Z.le (map_to_list tracksByYear).*1.

Definition playlistNameOf (year : Z) : string :=
  "Liked Songs (" +:+ itoa year +:+ ")".

(** The existing-playlist branch of the loop body: fetch the current
    contents and remove them. *)
Definition clearExisting (fuel : nat) (playlistName : string)
    (existingPlaylist : SimplePlaylist.t) : M W ID :=
  let playlistID := SimplePlaylist.ID existingPlaylist in
  let* tracksToRemove :=
    wrapErr ("could not fetch tracks from existing playlist '"
             +:+ playlistName +:+ "'")
      (fetchAllPlaylistTracks fuel playlistID) in
  let* _ :=
    wrapErr ("could not clear existing playlist '" +:+ playlistName +:+ "'")
      (removeTracksInBatches playlistID tracksToRemove) in
  ret playlistID.

(** The else branch: create the playlist. *)
Definition createNew (userID playlistName : string) (year : Z) : M W ID :=
  let description :=
    "All songs I liked that were added in " +:+ itoa year +:+ "." in
  let* newPlaylist :=
    wrapErr ("failed to create playlist for year " +:+ itoa year)
      (call (CreatePlaylistForUser client userID playlistName description
               false false)
            (ECreatePlaylistForUser userID playlistName description
               false false)) in
  ret (FullPlaylist.ID newPlaylist).

(** Cover image: both failures are logged and nothing else. *)
Definition applyImage (playlistName : string) (playlistID : ID) : M W unit :=
  let* imageReader :=
    attempt (call (GenerateForPlaylist imgGen playlistName)
                  (EGenerateForPlaylist playlistName)) in
  match imageReader with
  | Raise _ => ret tt
  | Ret img =>
    let* _ := attempt (call (SetPlaylistImage client playlistID img)
                            (ESetPlaylistImage playlistID img)) in
    ret tt
  end.

(** One iteration of [for _, year := range years]. *)
Definition processYear (fuel : nat) (user : PrivateUser.t)
    (tracksByYear : gmap Z (list ID)) (year : Z) : M W unit :=
  let playlistName := playlistNameOf year in
  let trackIDs := default [] (tracksByYear !! year) in
  let* existingPlaylist :=
    findExistingPlaylist fuel (PrivateUser.ID user) playlistName in
  let* playlistID :=
    match existingPlaylist with
    | Some pl => clearExisting fuel playlistName pl
    | None => createNew (PrivateUser.ID user) playlistName year
    end in
  let* _ := applyImage playlistName playlistID in
  addTracksInBatches playlistID trackIDs.

Fixpoint forYears (fuel : nat) (user : PrivateUser.t)
    (tracksByYear : gmap Z (list ID)) (years : list Z) : M W unit :=
  match years with
  | [] => ret tt
  | year :: rest =>
    let* _ := processYear fuel user tracksByYear year in
    forYears fuel user tracksByYear rest
  end.

Definition Run (fuel : nat) : M W unit :=
  let* allTracks := wrapErr "failed to fetch liked tracks"
                      (fetchAllLikedTracks fuel) in
  if decide (len allTracks = 0) then ret tt
  else
    let tracksByYear := groupTracksByYear allTracks in
    let* user := wrapErr "failed to get current user"
                   (call (CurrentUser client) ECurrentUser) in
    let years := sortedYears tracksByYear in
    forYears fuel user tracksByYear years.

End PlaylistSorter.

(** ** artistTrackRemover *)

Section ArtistTrackRemover.
Context {W : Type}.
Variable client : SpotifyClient W.
(** The field [artists], a [map[string]struct{}] used as a set. *)
Variable artists : gset string.

(** The inner [for _, artist := range item.Artists]: whether the loop
    reaches the append-and-break. *)
Fixpoint anyListed (itemArtists : list SimpleArtist.t) : bool :=
  match itemArtists with
  | [] => false
  | artist :: rest =>
    if decide (SimpleArtist.Name artist ∈ artists) then true
    else anyListed rest
  end.

Definition markStep (idsToRemove : list ID) (item : SavedTrack.t)
    : list ID :=
  if anyListed (SavedTrack.Artists item)
  then idsToRemove ++ [SavedTrack.ID item]
  else idsToRemove.

Definition findTracksToRemove (savedTracks : list SavedTrack.t) : list ID :=
  foldl markStep [] savedTracks.

(** The loop of [artistTrackRemover.Run], entered with the current
    [offset] and [total] ([-1] until a page has come back with another
    total).  [offset] and [total] are Go [int]s, kept here as integers
    without wrap-around: this is the code's behaviour on every run in
    which [offset + limit] stays within the range of [int], as it does
    once a total that leaves room for [limit] is known (the offsets
    asked for then stay below that total). *)
Fixpoint removerLoop (fuel : nat) (offset total : Z) : M W unit :=
  match fuel with
  | O => starve
  | S fuel =>
    let limit := 50 in
    let* page := wrapErr "couldn't get liked songs page"
                   (call (CurrentUsersTracks client limit offset)
                         (ECurrentUsersTracks limit offset)) in
    let total := if decide (total = -1) then SavedTrackPage.Total page
                 else total in
    if decide (len (SavedTrackPage.Tracks page) = 0) then ret tt
    else
      let tracksToRemove := findTracksToRemove (SavedTrackPage.Tracks page) in
      let* _ :=
        if decide (len tracksToRemove > 0) then
          let* _ := attempt
                      (call (RemoveTracksFromLibrary client tracksToRemove)
                            (ERemoveTracksFromLibrary tracksToRemove)) in
          ret tt
        else ret tt in
      let offset := offset + limit in
      if decide (total ≠ -1 ∧ offset >= total) then ret tt
      else removerLoop fuel offset total
  end.

Definition artistTrackRemover_Run (fuel : nat) : M W unit := removerLoop fuel 0 (-1).

End ArtistTrackRemover.

(** [NewArtistTrackRemover] builds the set from the list it is given. *)
Definition NewArtistSet (artistsToRemove : list string) : gset string :=
  foldl (λ artistSet artist, {[artist]} ∪ artistSet) ∅ artistsToRemove.

(** ** An in-memory remote service

    The remote service is not part of the repository.  To run the
    processors, and to state what two runs in a row leave behind, this is
    a reference implementation of [SpotifyClient] in the manner of a test
    double, following the behaviour of the service the client library
    documents: one account with its saved tracks and its playlist shelf.
    Listing calls serve [limit] items from [offset] and report the size
    of the collection as total; additions append to the playlist;
    removals delete every occurrence of the given identifiers; a new
    playlist is owned by the account, gets an unused identifier and goes
    to the top of the shelf.  The only failing calls are those naming a
    playlist that does not exist. *)

Module MemPlaylist.
Record t := mk {
  Name : string;
  Owner : string;
  Description : string;
  Public : bool;
  Collaborative : bool;
  Items : list ID;
  Cover : option Image }.

Definition withItems (p : t) (items : list ID) : t :=
  mk (Name p) (Owner p) (Description p) (Public p) (Collaborative p)
     items (Cover p).

Definition withCover (p : t) (img : Image) : t :=
  mk (Name p) (Owner p) (Description p) (Public p) (Collaborative p)
     (Items p) (Some img).
End MemPlaylist.

Module Remote.
Record t := mk {
  me : PrivateUser.t;
  library : list SavedTrack.t;
  shelf : list ID;
  playlists : gmap ID MemPlaylist.t }.
End Remote.

Definition pageOf {A} (l : list A) (limit offset : Z) : list A :=
  take (Z.to_nat limit) (drop (Z.to_nat offset) l).

Definition noSuchPlaylist : error := Failure "404: playlist not found".

(** The shelf as the listing call shows it. *)
Definition shelfEntry (w : Remote.t) (id : ID) : option SimplePlaylist.t :=
  match Remote.playlists w !! id with
  | Some p => Some (SimplePlaylist.mk id (MemPlaylist.Name p)
                      (User.mk (MemPlaylist.Owner p)))
  | None => None
  end.

Definition listing (w : Remote.t) : list SimplePlaylist.t :=
  omap (shelfEntry w) (Remote.shelf w).

Definition setPlaylist (w : Remote.t) (id : ID) (p : MemPlaylist.t) : Remote.t :=
  Remote.mk (Remote.me w) (Remote.library w) (Remote.shelf w)
    (<[id := p]> (Remote.playlists w)).

Definition newID (w : Remote.t) : ID :=
  fresh (Remote.shelf w ++ (map_to_list (Remote.playlists w)).*1).

Definition memClient : SpotifyClient Remote.t := {|
  CurrentUser w := (Ret (Remote.me w), w);
  CurrentUsersTracks limit offset w :=
    (Ret (SavedTrackPage.mk (len (Remote.library w))
            (pageOf (Remote.library w) limit offset)), w);
  RemoveTracksFromLibrary ids w :=
    (Ret tt,
     Remote.mk (Remote.me w)
       (filter (λ tr, SavedTrack.ID tr ∉ ids) (Remote.library w))
       (Remote.shelf w) (Remote.playlists w));
  CreatePlaylistForUser userID playlistName description public collaborative w :=
    let id := newID w in
    let owner := PrivateUser.ID (Remote.me w) in
    (Ret (FullPlaylist.mk id playlistName),
     Remote.mk (Remote.me w) (Remote.library w) (id :: Remote.shelf w)
       (<[id := MemPlaylist.mk playlistName owner description public
                  collaborative [] None]> (Remote.playlists w)));
  AddTracksToPlaylist playlistID trackIDs w :=
    match Remote.playlists w !! playlistID with
    | Some p =>
      (Ret "snapshot",
       setPlaylist w playlistID
         (MemPlaylist.withItems p (MemPlaylist.Items p ++ trackIDs)))
    | None => (Raise noSuchPlaylist, w)
    end;
  SetPlaylistImage playlistID img w :=
    match Remote.playlists w !! playlistID with
    | Some p => (Ret tt, setPlaylist w playlistID (MemPlaylist.withCover p img))
    | None => (Raise noSuchPlaylist, w)
    end;
  GetPlaylistsForUser userID limit offset w :=
    let shown := if decide (userID = PrivateUser.ID (Remote.me w))
                 then listing w else [] in
    (Ret (SimplePlaylistPage.mk (len shown) (pageOf shown limit offset)), w);
  GetPlaylistTracks playlistID limit offset w :=
    match Remote.playlists w !! playlistID with
    | Some p =>
      let items := (λ id, PlaylistTrack.mk (FullTrack.mk id))
                     <$> MemPlaylist.Items p in
      (Ret (PlaylistTrackPage.mk (len items) (pageOf items limit offset)), w)
    | None => (Raise noSuchPlaylist, w)
    end;
  RemoveTracksFromPlaylist playlistID trackIDs w :=
    match Remote.playlists w !! playlistID with
    | Some p =>
      (Ret "snapshot",
       setPlaylist w playlistID
         (MemPlaylist.withItems p
            (filter (λ id, id ∉ trackIDs) (MemPlaylist.Items p))))
    | None => (Raise noSuchPlaylist, w)
    end |}.

(** An image generator that keeps no state. *)
Definition pureGen {W} (gen : string → Reply Image) : ImageGenerator W :=
  {| GenerateForPlaylist name w := (gen name, w) |}.

(** ** A reader for RFC 3339 timestamps

    Used in the examples only, in the place of
    [time.Parse(time.RFC3339, s)] followed by [Year()]: the date-time
    grammar of RFC 3339 taken strictly, with the range checks on each
    field.  Go's parser is more lenient: it also reads a one-digit hour,
    a comma before the fraction of a second, and zone offsets of 24
    hours or 60 minutes, all of which this reader refuses.  The examples
    only use timestamps on which the two agree (well-formed ones ending
    in [Z], and text without any date in it).  Every general statement
    below is made for an arbitrary reader. *)

Definition digitVal (c : ascii) : option Z :=
  let n := Z.of_nat (nat_of_ascii c) in
  if decide (48 ≤ n ≤ 57) then Some (n - 48) else None.

Fixpoint readDigits (n : nat) (acc : Z) (s : list ascii)
    : option (Z * list ascii) :=
  match n with
  | O => Some (acc, s)
  | S n =>
    match s with
    | [] => None
    | c :: rest =>
      match digitVal c with
      | Some d => readDigits n (10 * acc + d) rest
      | None => None
      end
    end
  end.

Definition expectChar (c : ascii) (s : list ascii) : option (list ascii) :=
  match s with
  | x :: rest => if decide (x = c) then Some rest else None
  | [] => None
  end.

Fixpoint skipDigits (s : list ascii) : list ascii :=
  match s with
  | c :: rest => if digitVal c is Some _ then skipDigits rest else s
  | [] => []
  end.

Definition skipFraction (s : list ascii) : option (list ascii) :=
  match s with
  | "."%char :: c :: rest =>
    if digitVal c is Some _ then Some (skipDigits rest) else None
  | _ => Some s
  end.

Definition readZone (s : list ascii) : bool :=
  match s with
  | ["Z"%char] => true
  | sign :: rest =>
    if decide (sign = "+"%char ∨ sign = "-"%char) then
      match readDigits 2 0 rest with
      | Some (hh, rest) =>
        match expectChar ":" rest with
        | Some rest =>
          match readDigits 2 0 rest with
          | Some (mm, []) => bool_decide (hh < 24 ∧ mm < 60)
          | _ => false
          end
        | None => false
        end
      | None => false
      end
    else false
  | [] => false
  end.

Definition daysIn (year month : Z) : Z :=
  if decide (month = 2) then
    if decide (year mod 4 = 0 ∧ (year mod 100 ≠ 0 ∨ year mod 400 = 0))
    then 29 else 28
  else if decide (month = 4 ∨ month = 6 ∨ month = 9 ∨ month = 11) then 30
  else 31.

Definition rfc3339Year (s : string) : option Z :=
  '(year, s) ← readDigits 4 0 (String.list_ascii_of_string s);
  s ← expectChar "-" s;
  '(month, s) ← readDigits 2 0 s;
  s ← expectChar "-" s;
  '(day, s) ← readDigits 2 0 s;
  s ← expectChar "T" s;
  '(hour, s) ← readDigits 2 0 s;
  s ← expectChar ":" s;
  '(minute, s) ← readDigits 2 0 s;
  s ← expectChar ":" s;
  '(second, s) ← readDigits 2 0 s;
  s ← skipFraction s;
  if readZone s
     && bool_decide (1 ≤ month ≤ 12 ∧ 1 ≤ day ≤ daysIn year month
                     ∧ hour < 24 ∧ minute < 60 ∧ second < 60)
  then Some year else None.

(** ** Vocabulary of the statements *)

(** A track entry the artist filter marks: one of its artists is listed. *)
Definition listed (artists : gset string) (item : SavedTrack.t) : Prop :=
  Exists (λ artist, SimpleArtist.Name artist ∈ artists) (SavedTrack.Artists item).

Global Instance listed_dec artists item : Decision (listed artists item).
Proof. unfold listed. apply _. Defined.

(** All buckets of a year map merged back into one sequence. *)
Definition allBucketIDs (grouped : gmap Z (list ID)) : list ID :=
  concat (map_to_list grouped).*2.

(** The entries of a track list whose timestamp the reader accepts. *)
Definition dated (parseYear : string → option Z) (item : SavedTrack.t) : Prop :=
  is_Some (parseYear (SavedTrack.AddedAt item)).

Global Instance dated_dec parseYear item : Decision (dated parseYear item).
Proof. unfold dated. apply _. Defined.

(** The entries of a given year. *)
Definition ofYear (parseYear : string → option Z) (year : Z)
    (item : SavedTrack.t) : Prop :=
  parseYear (SavedTrack.AddedAt item) = Some year.

Global Instance ofYear_dec parseYear year item :
  Decision (ofYear parseYear year item).
Proof. unfold ofYear. apply _. Defined.

(** The identifier batch of a playlist addition or removal call. *)
Definition batchOf (ev : Event) : option (list ID) :=
  match ev with
  | EAddTracksToPlaylist _ ids _ | ERemoveTracksFromPlaylist _ ids _ => Some ids
  | _ => None
  end.

Definition batchesOf (tr : list Event) : list (list ID) := omap batchOf tr.

(** What the batching loop over [trackIDs], entered at index [i], has
    done when it stops with the outcome and transcript [res]: it did not
    starve, every call carried a batch, no batch is empty or longer than
    [batchSize], every batch but the last is full, the batches are
    consecutive pieces of the input, and without an error they cover it
    in [ceil (remaining / batchSize)] calls. *)
Definition batched {W} (batchSize : Z) (trackIDs : list ID) (i : Z)
    (res : Outcome unit * W * list Event) : Prop :=
  let '(o, _, tr) := res in
  let bs := batchesOf tr in
  o ≠ NoFuel
  ∧ length bs = length tr
  ∧ Forall (λ b, 1 ≤ len b ≤ batchSize) bs
  ∧ (∀ (k : nat) (b : list ID),
       bs !! k = Some b → (S k < length bs)%nat → len b = batchSize)
  ∧ concat bs `prefix_of` drop (Z.to_nat i) trackIDs
  ∧ (o = Ok tt →
     concat bs = drop (Z.to_nat i) trackIDs
     ∧ len bs = (Z.max 0 (len trackIDs - i) + batchSize - 1) / batchSize)
  ∧ (len trackIDs ≤ i → tr = []).

(** [errors.Is]: [cause] is [e] or is reached from [e] by unwrapping. *)
Inductive Wraps : error → error → Prop :=
| Wraps_here (e : error) : Wraps e e
| Wraps_under (msg : string) (e cause : error) :
    Wraps e cause → Wraps (Errorf msg e) cause.

(** Every event of every transcript of [m] satisfies [P]. *)
Definition Emits {W A} (P : Event → Prop) (m : M W A) : Prop :=
  ∀ w : W, Forall P (m w).2.

(** A transcript in which nothing but cosmetic calls failed. *)
Definition quiet (tr : list Event) : Prop :=
  Forall (λ ev, failed ev = true → is_image ev = true) tr.

(** The fail-fast discipline: a returned error wraps the error of the
    last call, which is not a cosmetic one, and no other failure than a
    cosmetic one came before; without a returned error only cosmetic
    calls failed. *)
Definition failFast {A} (o : Outcome A) (tr : list Event) : Prop :=
  match o with
  | Err e => ∃ pre ev cause,
      tr = pre ++ [ev] ∧ quiet pre ∧ is_image ev = false
      ∧ error_of ev = Some cause ∧ Wraps e cause
  | _ => quiet tr
  end.

Definition FailFast {W A} (m : M W A) : Prop :=
  ∀ w : W, failFast (m w).1.1 (m w).2.


(** The test of the locator: name and owner both equal. *)
Definition isTarget (userID name : string) (pl : SimplePlaylist.t) : Prop :=
  SimplePlaylist.Name pl = name ∧ User.ID (SimplePlaylist.Owner pl) = userID.

(** [r] is the first target of [playlists] in order, or [None] when
    there is none. *)
Definition firstTarget (userID name : string)
    (playlists : list SimplePlaylist.t) (r : option SimplePlaylist.t) : Prop :=
  match r with
  | Some pl => ∃ before after,
      playlists = before ++ pl :: after
      ∧ isTarget userID name pl
      ∧ Forall (λ other, ¬ isTarget userID name other) before
  | None => Forall (λ other, ¬ isTarget userID name other) playlists
  end.


Fixpoint shelfFetches (userID : string) (offset : Z)
    (pages : list SimplePlaylistPage.t) : list Event :=
  match pages with
  | [] => []
  | page :: rest =>
    EGetPlaylistsForUser userID 50 offset (Ret page)
    :: shelfFetches userID (offset + len (SimplePlaylistPage.Playlists page))
         rest
  end.

Fixpoint itemFetches (playlistID : ID) (offset : Z)
    (pages : list PlaylistTrackPage.t) : list Event :=
  match pages with
  | [] => []
  | page :: rest =>
    EGetPlaylistTracks playlistID 100 offset (Ret page)
    :: itemFetches playlistID (offset + len (PlaylistTrackPage.Tracks page))
         rest
  end.

(** The identifiers [fetchAllPlaylistTracks] keeps from a page. *)
Definition validIDs (items : list PlaylistTrack.t) : list ID :=
  filter (λ id, id ≠ "")
    ((λ item, FullTrack.ID (PlaylistTrack.Track item)) <$> items).

(** One round of the artist filter: the listing call answered with a
    page, then the removal call for the identifiers marked on that page,
    answered with [r], when there are any. *)
Definition roundCalls (artists : gset string) (offset : Z)
    (round : SavedTrackPage.t * Reply unit) : list Event :=
  let marked := findTracksToRemove artists (SavedTrackPage.Tracks round.1) in
  ECurrentUsersTracks 50 offset (Ret round.1)
  :: (if decide (marked ≠ []) then [ERemoveTracksFromLibrary marked round.2]
      else []).

Fixpoint removerCalls (artists : gset string) (offset : Z)
    (rounds : list (SavedTrackPage.t * Reply unit)) : list Event :=
  match rounds with
  | [] => []
  | round :: rest =>
    roundCalls artists offset round ++ removerCalls artists (offset + 50) rest
  end.

(** The value of the variable [total] after the pages [pages] have come
    back: what it was when it was not [-1], and otherwise the first
    reported total other than [-1] (still [-1] when every page so far has
    reported [-1]). *)
Definition knownTotal (total : Z) (pages : list SavedTrackPage.t) : Z :=
  foldl (λ t page, if decide (t = -1) then SavedTrackPage.Total page else t)
    total pages.


(** The page sizes of the successful listing calls of a transcript. *)
Definition pageSize (ev : Event) : option nat :=
  match ev with
  | ECurrentUsersTracks _ _ (Ret page) =>
    Some (length (SavedTrackPage.Tracks page))
  | EGetPlaylistsForUser _ _ _ (Ret page) =>
    Some (length (SimplePlaylistPage.Playlists page))
  | EGetPlaylistTracks _ _ _ (Ret page) =>
    Some (length (PlaylistTrackPage.Tracks page))
  | _ => None
  end.

Definition pageSizes (tr : list Event) : list nat := omap pageSize tr.

(** ** What a run leaves on the in-memory remote *)

(** The items of a playlist that carry no track identifier; the clear
    step cannot name them in a removal call and leaves them in place. *)
Definition blanks (items : list ID) : list ID := filter (λ id, id = "") items.

(** The cover of a playlist after the image step. *)
Definition coverAfter (gen : string → Reply Image) (name : string)
    (old : option Image) : option Image :=
  match gen name with Ret img => Some img | Raise _ => old end.

(** One year reconciled: the first playlist of the shelf with the
    year's name and the account as owner keeps its blank items and gets
    the bucket after them; when there is none, a new playlist holding the
    bucket goes to the top of the shelf. *)
Definition settleYear (gen : string → Reply Image) (year : Z)
    (bucket : list ID) (w : Remote.t) : Remote.t :=
  let name := playlistNameOf year in
  let owner := PrivateUser.ID (Remote.me w) in
  match scanPlaylists owner name (listing w) with
  | Some pl =>
    match Remote.playlists w !! SimplePlaylist.ID pl with
    | Some p =>
      setPlaylist w (SimplePlaylist.ID pl)
        (MemPlaylist.mk (MemPlaylist.Name p) (MemPlaylist.Owner p)
           (MemPlaylist.Description p) (MemPlaylist.Public p)
           (MemPlaylist.Collaborative p)
           (blanks (MemPlaylist.Items p) ++ bucket)
           (coverAfter gen name (MemPlaylist.Cover p)))
    | None => w
    end
  | None =>
    let id := newID w in
    Remote.mk (Remote.me w) (Remote.library w) (id :: Remote.shelf w)
      (<[id := MemPlaylist.mk name owner
                 ("All songs I liked that were added in " +:+ itoa year +:+ ".")
                 false false bucket (coverAfter gen name None)]>
         (Remote.playlists w))
  end.

Definition settleYears (gen : string → Reply Image)
    (tracksByYear : gmap Z (list ID)) (years : list Z) (w : Remote.t)
    : Remote.t :=
  foldl (λ w year, settleYear gen year (default [] (tracksByYear !! year)) w)
    w years.





(** Every playlist is short enough for [fuel], now and after any number
    of runs over [saved] tracks. *)
Definition itemsFit (fuel saved : nat) (w : Remote.t) : Prop :=
  ∀ id p, Remote.playlists w !! id = Some p →
          (length (MemPlaylist.Items p) < fuel)%nat
          ∧ (length (blanks (MemPlaylist.Items p)) + saved < fuel)%nat.

(** Fuel that lets every pager of a run, and of the run after it, come
    to its end. *)
Definition enoughFuel (fuel : nat) (w : Remote.t) : Prop :=
  let saved := length (Remote.library w) in
  (length (Remote.shelf w) + 2 * saved < fuel)%nat
  ∧ ∀ id p, Remote.playlists w !! id = Some p →
            (length (MemPlaylist.Items p) + saved < fuel)%nat.

(** ** Sample data *)

Definition track (id added : string) (artistNames : list string)
    : SavedTrack.t :=
  SavedTrack.mk added id id (SimpleArtist.mk <$> artistNames).

(** Three tracks saved in two different years. *)
Definition threeTracks : list SavedTrack.t :=
  [ track "a" "2023-01-01T00:00:00Z" ["Good Artist"];
    track "b" "2024-06-01T00:00:00Z" ["BadArtist"; "Good Artist"];
    track "c" "2023-12-31T23:59:59Z" [] ].

(** A fetch result holding one identifier under two years and one entry
    whose timestamp is not RFC 3339. *)
Definition oddTracks : list SavedTrack.t :=
  [ track "a" "2023-01-01T00:00:00Z" [];
    track "a" "2024-06-01T00:00:00Z" [];
    track "b" "last tuesday" [] ].

(** A remote with the three tracks saved and one playlist ["p1"] of the
    account's own, holding two tracks. *)
Definition ownPlaylist (name : string) (items : list ID) : MemPlaylist.t :=
  MemPlaylist.mk name "me" "" false false items None.

Definition smallRemote : Remote.t :=
  Remote.mk (PrivateUser.mk "me") threeTracks ["p1"]
    {[ "p1" := ownPlaylist "Liked Songs (2023)" ["x"; "y"] ]}.

Definition noImage : string → Reply Image :=
  λ _, Raise (Failure "image: cannot render").

(** The in-memory remote behind a connection on which every playlist
    addition is refused. *)
Definition addRefused : SpotifyClient Remote.t := {|
  CurrentUser := CurrentUser memClient;
  CurrentUsersTracks := CurrentUsersTracks memClient;
  RemoveTracksFromLibrary := RemoveTracksFromLibrary memClient;
  CreatePlaylistForUser := CreatePlaylistForUser memClient;
  AddTracksToPlaylist _ _ w := (Raise (Failure "503: service unavailable"), w);
  SetPlaylistImage := SetPlaylistImage memClient;
  GetPlaylistsForUser := GetPlaylistsForUser memClient;
  GetPlaylistTracks := GetPlaylistTracks memClient;
  RemoveTracksFromPlaylist := RemoveTracksFromPlaylist memClient |}.



(** A remote with nothing saved. *)
Definition emptyRemote : Remote.t :=
  Remote.mk (PrivateUser.mk "me") [] [] ∅.


(** A connection on which removals from the library are refused. *)
Definition removalRefused : SpotifyClient Remote.t := {|
  CurrentUser := CurrentUser memClient;
  CurrentUsersTracks := CurrentUsersTracks memClient;
  RemoveTracksFromLibrary _ w := (Raise (Failure "502: bad gateway"), w);
  CreatePlaylistForUser := CreatePlaylistForUser memClient;
  AddTracksToPlaylist := AddTracksToPlaylist memClient;
  SetPlaylistImage := SetPlaylistImage memClient;
  GetPlaylistsForUser := GetPlaylistsForUser memClient;
  GetPlaylistTracks := GetPlaylistTracks memClient;
  RemoveTracksFromPlaylist := RemoveTracksFromPlaylist memClient |}.

(** ** Vocabulary of the further properties *)

(** The error [playlistSorter.Run] returns when the call [ev] has
    failed: the error of the call under the message of the stage, which
    names the playlist or the year where the code does. *)
Definition stageError (ev : Event) (e : error) : Prop :=
  match ev with
  | ECurrentUsersTracks _ _ (Raise cause) =>
    e = Errorf "failed to fetch liked tracks" cause
  | ECurrentUser (Raise cause) =>
    e = Errorf "failed to get current user" cause
  | EGetPlaylistsForUser _ _ _ (Raise cause) =>
    e = Errorf "failed to get user playlists" cause
  | EGetPlaylistTracks _ _ _ (Raise cause) =>
    ∃ year,
      e = Errorf ("could not fetch tracks from existing playlist '"
                  +:+ playlistNameOf year +:+ "'") cause
  | ERemoveTracksFromPlaylist _ _ (Raise cause) =>
    ∃ year,
      e = Errorf ("could not clear existing playlist '"
                  +:+ playlistNameOf year +:+ "'")
            (Errorf "failed to remove tracks from playlist" cause)
  | ECreatePlaylistForUser _ name _ _ _ (Raise cause) =>
    ∃ year,
      name = playlistNameOf year
      ∧ e = Errorf ("failed to create playlist for year " +:+ itoa year) cause
  | EAddTracksToPlaylist _ _ (Raise cause) =>
    e = Errorf "failed to add tracks to playlist" cause
  | _ => False
  end.

(** Whenever [m] returns an error, the last call of its transcript and
    the error are related by [F]. *)
Definition Blames {W A} (F : Event → error → Prop) (m : M W A) : Prop :=
  ∀ w : W,
    match m w with
    | (Err e, _, tr) => ∃ pre ev, tr = pre ++ [ev] ∧ F ev e
    | _ => True
    end.

(** The calls [Run] makes while it processes the years, on behalf of the
    user [userID]. *)
Definition yearCall (userID : string) (ev : Event) : Prop :=
  match ev with
  | EGetPlaylistsForUser uid limit _ _ => uid = userID ∧ limit = 50
  | EGetPlaylistTracks _ limit _ _ => limit = 100
  | ERemoveTracksFromPlaylist _ ids _ =>
    1 ≤ len ids ≤ 100 ∧ Forall (λ id, id ≠ "") ids
  | EAddTracksToPlaylist _ ids _ => 1 ≤ len ids ≤ 100
  | ECreatePlaylistForUser uid name description public collaborative _ =>
    uid = userID ∧ public = false ∧ collaborative = false
    ∧ ∃ year,
        name = playlistNameOf year
        ∧ description
          = "All songs I liked that were added in " +:+ itoa year +:+ "."
  | ESetPlaylistImage _ _ _ => True
  | EGenerateForPlaylist name _ => ∃ year, name = playlistNameOf year
  | ECurrentUser _ | ECurrentUsersTracks _ _ _
  | ERemoveTracksFromLibrary _ _ => False
  end.

(** The largest value of a Go [int] of [bits] bits (32 or 64, by
    platform). *)
Definition maxInt (bits : Z) : Z := 2 ^ (bits - 1) - 1.

(** The playlist a call reads from or writes to by identifier. *)
Definition targetOf (ev : Event) : option ID :=
  match ev with
  | EGetPlaylistTracks p _ _ _ | ERemoveTracksFromPlaylist p _ _
  | EAddTracksToPlaylist p _ _ | ESetPlaylistImage p _ _ => Some p
  | _ => None
  end.

(** Where [Run] takes a playlist identifier from: the reply to its own
    creation of a playlist, or an entry of a listing of playlists that
    carries the name of a year and is owned by the user whose playlists
    were listed. *)
Definition sourceOf (playlistID : ID) (ev : Event) : Prop :=
  match ev with
  | ECreatePlaylistForUser _ _ _ _ _ (Ret newPlaylist) =>
    FullPlaylist.ID newPlaylist = playlistID
  | EGetPlaylistsForUser uid _ _ (Ret page) =>
    ∃ pl year,
      pl ∈ SimplePlaylistPage.Playlists page
      ∧ SimplePlaylist.ID pl = playlistID
      ∧ SimplePlaylist.Name pl = playlistNameOf year
      ∧ User.ID (SimplePlaylist.Owner pl) = uid
  | _ => False
  end.

(** Every call of [m] is related by [R] to the calls made before it,
    those of [hist] first. *)
Definition Traced {W A} (R : list Event → Event → Prop) (hist : list Event)
    (m : M W A) : Prop :=
  ∀ (w : W) pre ev post, (m w).2 = pre ++ ev :: post → R (hist ++ pre) ev.

(** An upload follows the generation of the uploaded image. *)
Definition afterGeneration (pre : list Event) (ev : Event) : Prop :=
  match ev with
  | ESetPlaylistImage _ img _ =>
    ∃ name, last pre = Some (EGenerateForPlaylist name (Ret img))
  | _ => True
  end.

(** A playlist is addressed after its identifier was obtained. *)
Definition afterSource (pre : list Event) (ev : Event) : Prop :=
  ∀ playlistID, targetOf ev = Some playlistID →
    Exists (sourceOf playlistID) pre.

(** A connection that answers every listing of liked tracks with the
    same one track. *)
Definition endlessLikes : SpotifyClient Remote.t := {|
  CurrentUser := CurrentUser memClient;
  CurrentUsersTracks _ _ w :=
    (Ret (SavedTrackPage.mk 1 [track "a" "2023-01-01T00:00:00Z" []]), w);
  RemoveTracksFromLibrary := RemoveTracksFromLibrary memClient;
  CreatePlaylistForUser := CreatePlaylistForUser memClient;
  AddTracksToPlaylist := AddTracksToPlaylist memClient;
  SetPlaylistImage := SetPlaylistImage memClient;
  GetPlaylistsForUser := GetPlaylistsForUser memClient;
  GetPlaylistTracks := GetPlaylistTracks memClient;
  RemoveTracksFromPlaylist := RemoveTracksFromPlaylist memClient |}.

(** A connection on which the listing of playlists is refused. *)
Definition shelfRefused : SpotifyClient Remote.t := {|
  CurrentUser := CurrentUser memClient;
  CurrentUsersTracks := CurrentUsersTracks memClient;
  RemoveTracksFromLibrary := RemoveTracksFromLibrary memClient;
  CreatePlaylistForUser := CreatePlaylistForUser memClient;
  AddTracksToPlaylist := AddTracksToPlaylist memClient;
  SetPlaylistImage := SetPlaylistImage memClient;
  GetPlaylistsForUser _ _ _ w := (Raise (Failure "429: rate limited"), w);
  GetPlaylistTracks := GetPlaylistTracks memClient;
  RemoveTracksFromPlaylist := RemoveTracksFromPlaylist memClient |}.

(** A remote whose one playlist holds an item without a track
    identifier between two ordinary ones. *)
Definition blankRemote : Remote.t :=
  Remote.mk (PrivateUser.mk "me") threeTracks ["p1"]
    {[ "p1" := ownPlaylist "Liked Songs (2023)" ["x"; ""; "y"] ]}.

(** A generator that renders the name of the playlist as its cover. *)
Definition nameAsImage : string → Reply Image :=
  λ name, Ret (String.list_byte_of_string name).

(** The small remote with a second playlist that has nothing to do with
    the years. *)
Definition mixedRemote : Remote.t :=
  Remote.mk (PrivateUser.mk "me") threeTracks ["p1"; "p2"]
    (<["p2" := ownPlaylist "Road trip" ["k"]]>
       {[ "p1" := ownPlaylist "Liked Songs (2023)" ["x"; "y"] ]}).

(** * Properties *)

(** ** The artist filter's marking *)

Section Marking.
Variable artists : gset string.

Lemma anyListed_true (itemArtists : list SimpleArtist.t) :
  anyListed artists itemArtists = true
  ↔ Exists (λ artist, SimpleArtist.Name artist ∈ artists) itemArtists.
Proof.
  induction itemArtists as [|a rest IH]; simpl.
  - split; [discriminate | intros H; inversion H].
  - destruct (decide (SimpleArtist.Name a ∈ artists)) as [Hin|Hout].
    + split; [intros _; by constructor | done].
    + rewrite IH. split; [by constructor 2 |].
      intros H. inversion H; subst; [contradiction | assumption].
Qed.

Lemma markStep_foldl (savedTracks : list SavedTrack.t) (acc : list ID) :
  foldl (markStep artists) acc savedTracks
  = acc ++ (SavedTrack.ID <$> filter (listed artists) savedTracks).
Proof.
  revert acc. induction savedTracks as [|item rest IH]; intros acc; simpl.
  - by rewrite app_nil_r.
  - rewrite IH. unfold markStep. rewrite filter_cons.
    destruct (anyListed artists (SavedTrack.Artists item)) eqn:Hany.
    + apply anyListed_true in Hany.
      destruct (decide (listed artists item)) as [_|Hn]; [|by destruct Hn].
      by rewrite fmap_cons, <- app_assoc.
    + destruct (decide (listed artists item)) as [Hl|_]; [|done].
      apply anyListed_true in Hl. congruence.
Qed.
End Marking.

(** C10.  For every page of saved tracks and every blocklist,
    [findTracksToRemove] returns the identifiers of exactly the track
    entries that have at least one artist name in the blocklist set, one
    identifier per such entry however many of its artists are listed, in
    the order of the page: the result is the page filtered by "some
    artist is listed" and mapped to identifiers.  Membership in the set
    built by [NewArtistTrackRemover] is membership in the list it was
    built from. *)
Theorem findTracksToRemove_marks_listed :
  (∀ (artists : gset string) (savedTracks : list SavedTrack.t),
     findTracksToRemove artists savedTracks
     = SavedTrack.ID <$> filter (listed artists) savedTracks)
  ∧ (∀ (artistsToRemove : list string) (name : string),
       name ∈ NewArtistSet artistsToRemove ↔ name ∈ artistsToRemove).
Proof.
  split.
  - intros artists savedTracks. unfold findTracksToRemove.
    by rewrite markStep_foldl.
  - intros l name. unfold NewArtistSet.
    assert (∀ acc : gset string,
               name ∈ foldl (λ s a, {[a]} ∪ s) acc l ↔ name ∈ acc ∨ name ∈ l)
      as Hgen.
    { induction l as [|a l IH]; intros acc; simpl.
      - rewrite elem_of_nil. tauto.
      - rewrite IH, elem_of_cons, elem_of_union, elem_of_singleton. tauto. }
    rewrite Hgen, elem_of_empty. tauto.
Qed.

(** ** The track classifier *)

Section Classifier.
Variable parseYear : string → option Z.

Local Abbreviation group := (groupTracksByYear parseYear).
Local Abbreviation ofYear := (ofYear parseYear).

Lemma group_snoc (tracks : list SavedTrack.t) (item : SavedTrack.t) :
  group (tracks ++ [item]) = groupStep parseYear (group tracks) item.
Proof. unfold groupTracksByYear. by rewrite foldl_app. Qed.

Lemma group_bucket (tracks : list SavedTrack.t) (year : Z) :
  default [] (group tracks !! year)
  = SavedTrack.ID <$> filter (ofYear year) tracks.
Proof.
  induction tracks as [|item tracks IH] using rev_ind.
  - unfold groupTracksByYear. simpl. by rewrite lookup_empty.
  - rewrite group_snoc, filter_app, fmap_app, <- IH.
    unfold groupStep. rewrite filter_cons, filter_nil.
    destruct (parseYear (SavedTrack.AddedAt item)) as [y|] eqn:Hy.
    + destruct (decide (y = year)) as [->|Hne].
      * rewrite lookup_insert_eq. simpl.
        destruct (decide (ofYear year item)) as [_|Hn]; [done|].
        by destruct Hn.
      * rewrite lookup_insert_ne by done.
        destruct (decide (ofYear year item)) as [Ho|_].
        -- unfold ofYear in Ho. congruence.
        -- by rewrite app_nil_r.
    + destruct (decide (ofYear year item)) as [Ho|_].
      * unfold ofYear in Ho. congruence.
      * by rewrite app_nil_r.
Qed.

Lemma group_bucket_nonempty (tracks : list SavedTrack.t) (year : Z)
    (ids : list ID) :
  group tracks !! year = Some ids → ids ≠ [].
Proof.
  revert ids. induction tracks as [|item tracks IH] using rev_ind;
    intros ids.
  - unfold groupTracksByYear. simpl. by rewrite lookup_empty.
  - rewrite group_snoc. unfold groupStep.
    destruct (parseYear (SavedTrack.AddedAt item)) as [y|]; [|apply IH].
    destruct (decide (y = year)) as [->|Hne].
    + rewrite lookup_insert_eq. intros [= <-].
      by destruct (default [] (group tracks !! year)).
    + rewrite lookup_insert_ne by done. apply IH.
Qed.

Lemma allBucketIDs_append (grouped : gmap Z (list ID)) (year : Z)
    (ids : list ID) :
  allBucketIDs (<[year := default [] (grouped !! year) ++ ids]> grouped)
  ≡ₚ allBucketIDs grouped ++ ids.
Proof.
  unfold allBucketIDs.
  destruct (grouped !! year) as [old|] eqn:Hold; simpl.
  - rewrite <- (insert_delete_id grouped year old) at 2 by done.
    rewrite <- (insert_delete_eq grouped).
    rewrite !map_to_list_insert by apply lookup_delete_eq.
    simpl. rewrite <- !app_assoc. apply Permutation_app_head.
    apply Permutation_app_comm.
  - rewrite map_to_list_insert by done. simpl.
    apply Permutation_app_comm.
Qed.

Lemma group_merge (tracks : list SavedTrack.t) :
  allBucketIDs (group tracks)
  ≡ₚ SavedTrack.ID <$> filter (dated parseYear) tracks.
Proof.
  induction tracks as [|item tracks IH] using rev_ind.
  - unfold groupTracksByYear, allBucketIDs. simpl.
    by rewrite map_to_list_empty.
  - rewrite group_snoc, filter_app, fmap_app, <- IH.
    unfold groupStep. rewrite filter_cons, filter_nil.
    destruct (decide (dated parseYear item)) as [[y Hy]|Hn].
    + rewrite Hy. by rewrite allBucketIDs_append.
    + destruct (parseYear (SavedTrack.AddedAt item)) as [y|] eqn:Hy.
      * destruct Hn. unfold dated. rewrite Hy. by eexists.
      * by rewrite app_nil_r.
Qed.

Lemma fmap_NoDup_inj {A B} (f : A → B) (l : list A) (x y : A) :
  NoDup (f <$> l) → x ∈ l → y ∈ l → f x = f y → x = y.
Proof.
  induction l as [|a l IH]; simpl; intros Hnd Hx Hy Hxy.
  - by apply elem_of_nil in Hx.
  - apply NoDup_cons in Hnd as [Ha Hnd].
    apply elem_of_cons in Hx as [->|Hx]; apply elem_of_cons in Hy as [->|Hy].
    + done.
    + destruct Ha. rewrite Hxy. by apply list_elem_of_fmap_2.
    + destruct Ha. rewrite <- Hxy. by apply list_elem_of_fmap_2.
    + by apply IH.
Qed.

Lemma group_bucket_elem (tracks : list SavedTrack.t) (year : Z)
    (ids : list ID) (id : ID) :
  group tracks !! year = Some ids → id ∈ ids →
  ∃ item, item ∈ tracks ∧ SavedTrack.ID item = id ∧ ofYear year item.
Proof.
  intros Hb Hin. pose proof (group_bucket tracks year) as Hd.
  rewrite Hb in Hd. simpl in Hd. rewrite Hd in Hin.
  apply list_elem_of_fmap in Hin as (item & -> & Hitem).
  apply list_elem_of_filter in Hitem as [Hy Hitem]. eauto.
Qed.
End Classifier.

(** C3 as stated fails: on [oddTracks] merging the buckets does not give
    back the identifiers of the input (the entry with the unreadable
    timestamp is in no bucket), and the identifier ["a"] sits in the
    buckets of 2023 and of 2024. *)
Lemma group_not_partition_oddTracks :
  ¬ (allBucketIDs (groupTracksByYear rfc3339Year oddTracks)
     ≡ₚ SavedTrack.ID <$> oddTracks)
  ∧ ¬ (∀ (y1 y2 : Z) (ids1 ids2 : list ID) (id : ID),
         groupTracksByYear rfc3339Year oddTracks !! y1 = Some ids1 →
         groupTracksByYear rfc3339Year oddTracks !! y2 = Some ids2 →
         id ∈ ids1 → id ∈ ids2 → y1 = y2).
Proof.
  split.
  - intros Hperm. apply Permutation_length in Hperm.
    vm_compute in Hperm. discriminate.
  - intros Hone.
    specialize (Hone 2023 2024 ["a"] ["a"] "a").
    assert (2023 = 2024) as Habs; [|discriminate].
    apply Hone; [by vm_compute | by vm_compute | |]; apply list_elem_of_here.
Qed.

(** C3, amended.  For every list of tracks and every timestamp reader:
    the bucket of a year holds, in fetch order, the identifiers of the
    entries whose added timestamp reads as that year; no bucket is empty;
    merging all buckets gives, up to order, the identifiers of the
    entries whose timestamp can be read, one occurrence per entry
    (entries with an unreadable timestamp are in no bucket); and when
    those identifiers are pairwise distinct, an identifier is in at most
    one bucket. *)
Theorem groupTracksByYear_partitions_dated
    (parseYear : string → option Z) (tracks : list SavedTrack.t) :
  let grouped := groupTracksByYear parseYear tracks in
  (∀ year : Z,
     default [] (grouped !! year)
     = SavedTrack.ID <$> filter (ofYear parseYear year) tracks)
  ∧ (∀ (year : Z) (ids : list ID), grouped !! year = Some ids → ids ≠ [])
  ∧ allBucketIDs grouped ≡ₚ SavedTrack.ID <$> filter (dated parseYear) tracks
  ∧ (NoDup (SavedTrack.ID <$> filter (dated parseYear) tracks) →
     ∀ (y1 y2 : Z) (ids1 ids2 : list ID) (id : ID),
       grouped !! y1 = Some ids1 → grouped !! y2 = Some ids2 →
       id ∈ ids1 → id ∈ ids2 → y1 = y2).
Proof.
  intros grouped. repeat split.
  - apply group_bucket.
  - apply group_bucket_nonempty.
  - apply group_merge.
  - intros Hnd y1 y2 ids1 ids2 id H1 H2 Hin1 Hin2.
    destruct (group_bucket_elem _ _ _ _ _ H1 Hin1) as (t1 & Ht1 & Hid1 & Hy1).
    destruct (group_bucket_elem _ _ _ _ _ H2 Hin2) as (t2 & Ht2 & Hid2 & Hy2).
    assert (t1 = t2) as ->.
    { apply (fmap_NoDup_inj SavedTrack.ID (filter (dated parseYear) tracks));
        [done| | |congruence].
      - apply list_elem_of_filter. split; [|done]. unfold dated.
        unfold ofYear in Hy1. rewrite Hy1. by eexists.
      - apply list_elem_of_filter. split; [|done]. unfold dated.
        unfold ofYear in Hy2. rewrite Hy2. by eexists. }
    unfold ofYear in Hy1, Hy2. congruence.
Qed.

Lemma groupTracksByYear_partitions_dated_witness :
  NoDup (SavedTrack.ID <$> filter (dated rfc3339Year) threeTracks)
  ∧ default [] (groupTracksByYear rfc3339Year threeTracks !! 2023) = ["a"; "c"]
  ∧ (∀ (y1 y2 : Z) (ids1 ids2 : list ID) (id : ID),
       groupTracksByYear rfc3339Year threeTracks !! y1 = Some ids1 →
       groupTracksByYear rfc3339Year threeTracks !! y2 = Some ids2 →
       id ∈ ids1 → id ∈ ids2 → y1 = y2).
Proof.
  assert (NoDup (SavedTrack.ID <$> filter (dated rfc3339Year) threeTracks))
    as Hnd.
  { apply (bool_decide_unpack _). vm_compute. exact I. }
  pose proof (groupTracksByYear_partitions_dated rfc3339Year threeTracks)
    as (Hbucket & _ & _ & Hone).
  split; [exact Hnd|]. split.
  - rewrite Hbucket. vm_compute. reflexivity.
  - exact (Hone Hnd).
Defined.

(** ** The batching loop *)

Section Batcher.
Context {W : Type}.
Variable send : list ID → M W unit.
Variable batchSize : Z.
Hypothesis size_pos : 1 ≤ batchSize.
(** [send] makes exactly one call, carrying the batch it was given. *)
Hypothesis send_one : ∀ (batch : list ID) (w : W),
  ∃ o w' ev, send batch w = (o, w', [ev]) ∧ batchOf ev = Some batch
             ∧ o ≠ NoFuel.

Lemma slice_step (trackIDs : list ID) (i : Z) :
  0 ≤ i < len trackIDs →
  let end_ := if decide (i + batchSize > len trackIDs) then len trackIDs
              else i + batchSize in
  slice trackIDs i end_ ++ drop (Z.to_nat (i + batchSize)) trackIDs
  = drop (Z.to_nat i) trackIDs
  ∧ len (slice trackIDs i end_) = Z.min batchSize (len trackIDs - i).
Proof.
  intros Hi. cbv zeta.
  destruct (decide (i + batchSize > len trackIDs)) as [Hover|Hfit];
    unfold len, slice in *.
  - rewrite (drop_ge trackIDs (Z.to_nat (i + batchSize))) by lia.
    rewrite app_nil_r, take_ge by (rewrite length_drop; lia).
    split; [done|]. rewrite length_drop. lia.
  - replace (Z.to_nat (i + batchSize))
      with (Z.to_nat i + Z.to_nat (i + batchSize - i))%nat by lia.
    rewrite <- drop_drop, take_drop. split; [done|].
    rewrite length_take, length_drop. lia.
Qed.

Lemma ceil_step (n : Z) :
  1 ≤ n →
  1 + (Z.max 0 (n - batchSize) + batchSize - 1) / batchSize
  = (Z.max 0 n + batchSize - 1) / batchSize.
Proof.
  intros Hn. destruct (decide (n ≤ batchSize)) as [Hle|Hgt].
  - replace (Z.max 0 (n - batchSize)) with 0 by lia.
    replace (Z.max 0 n) with n by lia.
    rewrite (Z.div_small (0 + batchSize - 1)) by lia.
    replace (n + batchSize - 1) with ((n - 1) + 1 * batchSize) by lia.
    rewrite Z.div_add by lia. rewrite Z.div_small by lia. lia.
  - replace (Z.max 0 (n - batchSize)) with (n - batchSize) by lia.
    replace (Z.max 0 n) with n by lia.
    replace (n + batchSize - 1) with ((n - 1) + 1 * batchSize) by lia.
    rewrite Z.div_add by lia.
    replace (n - batchSize + batchSize - 1) with (n - 1) by lia. lia.
Qed.

Local Abbreviation batched := (batched batchSize).

Lemma batched_done (trackIDs : list ID) (i : Z) (w : W) :
  len trackIDs ≤ i → batched trackIDs i (Ok tt, w, []).
Proof.
  intros Hdone. unfold batched. simpl. split_and!; try done.
  - apply prefix_nil.
  - intros _. split.
    + rewrite drop_ge; [done | unfold len in Hdone; lia].
    + replace (Z.max 0 (len trackIDs - i)) with 0 by lia.
      rewrite Z.div_small by lia. done.
Qed.

Lemma batchLoop_batched (trackIDs : list ID) (gas : nat) :
  ∀ (i : Z) (w : W),
    0 ≤ i → (Z.to_nat (len trackIDs - i) ≤ gas)%nat →
    batched trackIDs i (batchLoop gas batchSize send trackIDs i w).
Proof.
  induction gas as [|gas IH]; intros i w Hi Hgas.
  - simpl. destruct (decide (i < len trackIDs)) as [?|_]; [lia|].
    apply batched_done. lia.
  - simpl. destruct (decide (i < len trackIDs)) as [Hlt|Hge];
      [|apply batched_done; lia].
    destruct (slice_step trackIDs i (conj Hi Hlt)) as [Hsplit Hlen].
    set (batch := slice trackIDs i _) in *.
    unfold bind.
    destruct (send_one batch w) as (o1 & w1 & ev & -> & Hev & Hfuel).
    destruct o1 as [[]|e|]; [| |done].
    + specialize (IH (i + batchSize) w1 ltac:(lia) ltac:(lia)).
      destruct (batchLoop gas batchSize send trackIDs (i + batchSize) w1)
        as [[o2 w2] t2].
      unfold batched in *. simpl. unfold batchesOf in *. simpl.
      rewrite Hev. simpl.
      destruct IH as (Hf & Hn & Hall & Hfull & Hpre & Hok & Hnone).
      split_and!.
      * done.
      * by rewrite Hn.
      * constructor; [lia | done].
      * intros [|k] b Hb Hk; simpl in *.
        -- injection Hb as <-.
           destruct (decide (len trackIDs ≤ i + batchSize)) as [Hend|?];
             [|lia].
           rewrite (Hnone Hend) in Hk. simpl in Hk. lia.
        -- apply (Hfull k b Hb). lia.
      * rewrite <- Hsplit. by apply prefix_app.
      * intros Hdone. destruct (Hok Hdone) as [Hcat Hcount]. split.
        -- rewrite <- Hsplit. by f_equal.
        -- unfold len in *. simpl length.
           rewrite Nat2Z.inj_succ, <- Z.add_1_l, Hcount.
           replace (Z.of_nat (length trackIDs) - (i + batchSize))
             with (Z.of_nat (length trackIDs) - i - batchSize) by lia.
           apply ceil_step. lia.
      * lia.
    + unfold batched. simpl. unfold batchesOf. simpl. rewrite Hev. simpl.
      split_and!; try done.
      * constructor; [lia | constructor].
      * intros [|k] b Hb Hk; simpl in *; lia.
      * rewrite app_nil_r, <- Hsplit. by apply prefix_app_r.
      * lia.
Qed.
End Batcher.

Lemma sendAdd_one {W} (client : SpotifyClient W) (playlistID : ID)
    (batch : list ID) (w : W) :
  ∃ o w' ev, sendAdd client playlistID batch w = (o, w', [ev])
             ∧ batchOf ev = Some batch ∧ o ≠ NoFuel.
Proof.
  unfold sendAdd, bind, wrapErr, call, ret.
  destruct (AddTracksToPlaylist client playlistID batch w) as [[s|e] w'];
    simpl; eauto 10.
Qed.

Lemma sendRemove_one {W} (client : SpotifyClient W) (playlistID : ID)
    (batch : list ID) (w : W) :
  ∃ o w' ev, sendRemove client playlistID batch w = (o, w', [ev])
             ∧ batchOf ev = Some batch ∧ o ≠ NoFuel.
Proof.
  unfold sendRemove, bind, wrapErr, call, ret.
  destruct (RemoveTracksFromPlaylist client playlistID batch w) as [[s|e] w'];
    simpl; eauto 10.
Qed.

(** C6.  For every identifier sequence and every batch size of at least
    one, in the addition path and in the removal path alike, the loop
    does not run out of steps, each call carries one batch, no batch is
    empty or longer than the batch size, every batch but the last has
    exactly the batch size, and the batches are consecutive pieces of the
    input in order; when no call reports an error the batches
    concatenate to the whole input and their number is
    [ceil (length / size)]; an empty input makes no call and returns no
    error.  [addTracksInBatches] and [removeTracksInBatches] are this
    loop at size 100. *)
Theorem inBatches_covers_input {W} (client : SpotifyClient W)
    (removal : bool) (batchSize : Z) (playlistID : ID) (trackIDs : list ID)
    (w : W) :
  1 ≤ batchSize →
  let send := if removal then sendRemove client playlistID
              else sendAdd client playlistID in
  (let '(o, _, tr) := inBatches batchSize send trackIDs w in
   let bs := batchesOf tr in
   o ≠ NoFuel
   ∧ length bs = length tr
   ∧ Forall (λ b, 1 ≤ len b ≤ batchSize) bs
   ∧ (∀ (k : nat) (b : list ID),
        bs !! k = Some b → (S k < length bs)%nat → len b = batchSize)
   ∧ concat bs `prefix_of` trackIDs
   ∧ (o = Ok tt →
      concat bs = trackIDs
      ∧ len bs = (len trackIDs + batchSize - 1) / batchSize)
   ∧ (trackIDs = [] → o = Ok tt ∧ tr = []))
  ∧ addTracksInBatches client playlistID trackIDs w
    = inBatches 100 (sendAdd client playlistID) trackIDs w
  ∧ removeTracksInBatches client playlistID trackIDs w
    = inBatches 100 (sendRemove client playlistID) trackIDs w.
Proof.
  intros Hsize send. split_and!.
  - assert (∀ batch w0, ∃ o w' ev, send batch w0 = (o, w', [ev])
                                   ∧ batchOf ev = Some batch ∧ o ≠ NoFuel)
      as Hone.
    { intros batch w0. subst send. destruct removal;
        [apply sendRemove_one | apply sendAdd_one]. }
    pose proof (batchLoop_batched send batchSize Hsize Hone trackIDs
                  (length trackIDs) 0 w ltac:(lia) ltac:(unfold len; lia))
      as Hb.
    unfold inBatches.
    destruct (batchLoop (length trackIDs) batchSize send trackIDs 0 w)
      as [[o w'] tr] eqn:Hrun.
    unfold batched in Hb. simpl in Hb.
    destruct Hb as (Hf & Hn & Hall & Hfull & Hpre & Hok & Hnone).
    replace (Z.max 0 (len trackIDs - 0)) with (len trackIDs) in Hok
      by (unfold len; lia).
    split_and!; try done.
    intros ->. simpl in Hrun. injection Hrun as <- <- <-. done.
  - reflexivity.
  - unfold removeTracksInBatches.
    destruct (decide (len trackIDs = 0)) as [Hz|_]; [|reflexivity].
    destruct trackIDs; [reflexivity | discriminate].
Qed.

Lemma inBatches_covers_input_witness :
  1 ≤ 2
  ∧ (let '(o, _, tr) :=
       inBatches 2 (sendAdd memClient "p1") ["a"; "b"; "c"] smallRemote in
     concat (batchesOf tr) = ["a"; "b"; "c"] ∧ len (batchesOf tr) = 2).
Proof.
  split; [lia|].
  pose proof (inBatches_covers_input memClient false 2 "p1" ["a"; "b"; "c"]
                smallRemote ltac:(lia)) as [Hrun _].
  cbv zeta in Hrun.
  destruct (inBatches 2 (sendAdd memClient "p1") ["a"; "b"; "c"] smallRemote)
    as [[o w'] tr] eqn:Heq.
  destruct Hrun as (_ & _ & _ & _ & _ & Hok & _).
  apply Hok. vm_compute in Heq. by injection Heq as <- _ _.
Defined.

(** ** Transcripts *)

Lemma failed_error_of (ev : Event) :
  failed ev = true ↔ is_Some (error_of ev).
Proof.
  destruct ev as [r|? ? r|? r|? ? ? ? ? r|? ? r|? ? r|? ? ? r|? ? ? r|? ? r|? r];
    destruct r; simpl; split; intros H; try done; try (by eexists);
    by destruct H.
Qed.

(** Where an element of a concatenation sits. *)
Lemma app_eq_middle {A} (l1 l2 pre post : list A) (x : A) :
  l1 ++ l2 = pre ++ x :: post →
  (∃ post', l1 = pre ++ x :: post' ∧ post = post' ++ l2)
  ∨ (∃ pre', l2 = pre' ++ x :: post ∧ pre = l1 ++ pre').
Proof.
  revert pre. induction l1 as [|a l1 IH]; intros pre Heq; simpl in *.
  - right. by exists pre.
  - destruct pre as [|b pre]; simpl in *.
    + injection Heq as -> <-. left. by exists l1.
    + injection Heq as -> Heq. destruct (IH _ Heq) as [(p & -> & ->)|(p & -> & ->)].
      * left. by exists p.
      * right. by exists p.
Qed.



Section MonadFacts.
Context {W : Type}.

Lemma emits_ret {A} P (a : A) : Emits (W:=W) P (ret a).
Proof. intros w. constructor. Qed.

Lemma emits_starve {A} P : Emits (W:=W) (A:=A) P starve.
Proof. intros w. constructor. Qed.

Lemma emits_call {A} (P : Event → Prop) (op : W → Reply A * W) ev :
  (∀ r, P (ev r)) → Emits P (call op ev).
Proof.
  intros Hev w. unfold call. destruct (op w) as [r w']. simpl.
  by repeat constructor.
Qed.

Lemma emits_bind {A B} P (m : M W A) (k : A → M W B) :
  Emits P m → (∀ a, Emits P (k a)) → Emits P (bind m k).
Proof.
  intros Hm Hk w. unfold bind. specialize (Hm w).
  destruct (m w) as [[[a|e|] w1] t1]; simpl in *; try done.
  specialize (Hk a w1). destruct (k a w1) as [[o w2] t2]. simpl in *.
  by apply Forall_app.
Qed.

Lemma emits_wrapErr {A} P msg (m : M W A) :
  Emits P m → Emits P (wrapErr msg m).
Proof.
  intros Hm w. unfold wrapErr. specialize (Hm w).
  by destruct (m w) as [[[a|e|] w1] t1].
Qed.

Lemma emits_attempt {A} P (m : M W A) : Emits P m → Emits P (attempt m).
Proof.
  intros Hm w. unfold attempt. specialize (Hm w).
  by destruct (m w) as [[[a|e|] w1] t1].
Qed.

Lemma bind_wrapErr_call {A B} msg (op : W → Reply A * W) ev
    (k : A → M W B) (w : W) :
  bind (wrapErr msg (call op ev)) k w
  = match op w with
    | (Ret a, w1) => let '(o, w2, t2) := k a w1 in (o, w2, ev (Ret a) :: t2)
    | (Raise e, w1) => (Err (Errorf msg e), w1, [ev (Raise e)])
    end.
Proof. unfold bind, wrapErr, call. by destruct (op w) as [[a|e] w1]. Qed.

Lemma bind_call {A B} (op : W → Reply A * W) ev (k : A → M W B) (w : W) :
  bind (call op ev) k w
  = match op w with
    | (Ret a, w1) => let '(o, w2, t2) := k a w1 in (o, w2, ev (Ret a) :: t2)
    | (Raise e, w1) => (Err e, w1, [ev (Raise e)])
    end.
Proof. unfold bind, call. by destruct (op w) as [[a|e] w1]. Qed.

Lemma bind_ok {A B} (m : M W A) (k : A → M W B) (w w1 : W) a t1 :
  m w = (Ok a, w1, t1) →
  bind m k w = (let '(o, w2, t2) := k a w1 in (o, w2, t1 ++ t2)).
Proof. intros Hm. unfold bind. by rewrite Hm. Qed.

Lemma wrapErr_ok {A} msg (m : M W A) (w w1 : W) a t1 :
  m w = (Ok a, w1, t1) → wrapErr msg m w = (Ok a, w1, t1).
Proof. intros Hm. unfold wrapErr. by rewrite Hm. Qed.

Lemma quiet_app (t1 t2 : list Event) : quiet t1 → quiet t2 → quiet (t1 ++ t2).
Proof. unfold quiet. intros. by apply Forall_app. Qed.

Lemma failFast_ret {A} (a : A) : FailFast (W:=W) (ret a).
Proof. intros w. constructor. Qed.

Lemma failFast_starve {A} : FailFast (W:=W) (A:=A) starve.
Proof. intros w. constructor. Qed.

Lemma failFast_call {A} (op : W → Reply A * W) ev :
  (∀ r, is_image (ev r) = false ∧ error_of (ev r) = raised_error r) →
  FailFast (call op ev).
Proof.
  intros Hev w. unfold call. destruct (op w) as [r w'].
  destruct (Hev r) as [Hni Herr]. destruct r as [a|e]; simpl.
  - constructor; [|constructor]. intros Hf.
    apply failed_error_of in Hf as [c Hc]. rewrite Herr in Hc. done.
  - exists [], (ev (Raise e)), e. split_and!; try done.
    + constructor.
    + constructor.
Qed.

Lemma failFast_bind {A B} (m : M W A) (k : A → M W B) :
  FailFast m → (∀ a, FailFast (k a)) → FailFast (bind m k).
Proof.
  intros Hm Hk w. unfold bind. specialize (Hm w).
  destruct (m w) as [[[a|e|] w1] t1]; simpl in *; try done.
  specialize (Hk a w1). destruct (k a w1) as [[[b|e|] w2] t2]; simpl in *.
  - by apply quiet_app.
  - destruct Hk as (pre & ev & cause & -> & Hq & Hrest).
    exists (t1 ++ pre), ev, cause. rewrite app_assoc.
    split; [done|]. split; [by apply quiet_app | done].
  - by apply quiet_app.
Qed.

Lemma failFast_wrapErr {A} msg (m : M W A) :
  FailFast m → FailFast (wrapErr msg m).
Proof.
  intros Hm w. unfold wrapErr. specialize (Hm w).
  destruct (m w) as [[[a|e|] w1] t1]; simpl in *; try done.
  destruct Hm as (pre & ev & cause & -> & Hq & Hni & Herr & Hw).
  exists pre, ev, cause. split_and!; try done. by constructor.
Qed.

(** A cosmetic call whose error is only looked at. *)
Lemma failFast_attempt_image {A} (op : W → Reply A * W) ev :
  (∀ r, is_image (ev r) = true) → FailFast (attempt (call op ev)).
Proof.
  intros Hev w. unfold attempt, call. destruct (op w) as [[a|e] w'];
    simpl; by repeat constructor.
Qed.
End MonadFacts.

Ltac transcript_step :=
  first
    [ apply failFast_ret | apply failFast_starve
    | apply failFast_wrapErr
    | apply failFast_attempt_image; intros ?; reflexivity
    | apply failFast_call; intros ?; split; reflexivity
    | apply failFast_bind; [|intros ?]
    | apply emits_ret | apply emits_starve
    | apply emits_wrapErr | apply emits_attempt
    | apply emits_call; intros ?; simpl; eauto
    | apply emits_bind; [|intros ?] ].

Section SorterTranscripts.
Context {W : Type}.
Variable client : SpotifyClient W.
Variable imgGen : ImageGenerator W.
Variable parseYear : string → option Z.

Local Abbreviation plain := (λ ev : Event, is_image ev = false).

(** *** Which calls each helper makes *)

Lemma fetchLikedLoop_emits (P : Event → Prop) fuel allTracks offset :
  (∀ limit off r, P (ECurrentUsersTracks limit off r)) →
  Emits P (fetchLikedLoop client fuel allTracks offset).
Proof.
  intros HP. revert allTracks offset.
  induction fuel as [|fuel IH]; intros allTracks offset; simpl.
  - apply emits_starve.
  - apply emits_bind; [by apply emits_call|]. intros page.
    destruct (decide _); [apply emits_ret | apply IH].
Qed.

Lemma findLoop_plain fuel userID name offset :
  Emits plain (findLoop client fuel userID name offset).
Proof.
  revert offset. induction fuel as [|fuel IH]; intros offset; simpl.
  - apply emits_starve.
  - repeat transcript_step.
    destruct (scanPlaylists _ _ _); [apply emits_ret|].
    destruct (decide _); [apply emits_ret | apply IH].
Qed.

Lemma fetchPlaylistLoop_plain fuel playlistID allTrackIDs offset :
  Emits plain (fetchPlaylistLoop client fuel playlistID allTrackIDs offset).
Proof.
  revert allTrackIDs offset.
  induction fuel as [|fuel IH]; intros allTrackIDs offset; simpl.
  - apply emits_starve.
  - repeat transcript_step.
    destruct (decide _); [apply emits_ret | apply IH].
Qed.

Lemma batchLoop_emits P gas batchSize send (trackIDs : list ID) i :
  (∀ batch, Emits (W:=W) P (send batch)) →
  Emits P (batchLoop gas batchSize send trackIDs i).
Proof.
  intros Hsend. revert i. induction gas as [|gas IH]; intros i; simpl.
  - destruct (decide _); [apply emits_starve | apply emits_ret].
  - destruct (decide _); [|apply emits_ret].
    apply emits_bind; [apply Hsend | intros _; apply IH].
Qed.

Lemma removeTracksInBatches_plain playlistID trackIDs :
  Emits plain (removeTracksInBatches client playlistID trackIDs).
Proof.
  unfold removeTracksInBatches. destruct (decide _); [apply emits_ret|].
  apply batchLoop_emits. intros batch. unfold sendRemove.
  repeat transcript_step.
Qed.

Lemma addTracksInBatches_plain playlistID trackIDs :
  Emits plain (addTracksInBatches client playlistID trackIDs).
Proof.
  apply batchLoop_emits. intros batch. unfold sendAdd.
  repeat transcript_step.
Qed.

Lemma clearExisting_plain fuel playlistName pl :
  Emits plain (clearExisting client fuel playlistName pl).
Proof.
  unfold clearExisting. apply emits_bind.
  - apply emits_wrapErr, fetchPlaylistLoop_plain.
  - intros ids. apply emits_bind; [|intros; apply emits_ret].
    apply emits_wrapErr, removeTracksInBatches_plain.
Qed.

Lemma createNew_plain userID playlistName year :
  Emits plain (createNew client userID playlistName year).
Proof. unfold createNew. repeat transcript_step. Qed.

(** *** Fail-fast, helper by helper *)

Lemma fetchLikedLoop_failFast fuel allTracks offset :
  FailFast (fetchLikedLoop client fuel allTracks offset).
Proof.
  revert allTracks offset.
  induction fuel as [|fuel IH]; intros allTracks offset; simpl.
  - apply failFast_starve.
  - repeat transcript_step.
    destruct (decide _); [apply failFast_ret | apply IH].
Qed.

Lemma findLoop_failFast fuel userID name offset :
  FailFast (findLoop client fuel userID name offset).
Proof.
  revert offset. induction fuel as [|fuel IH]; intros offset; simpl.
  - apply failFast_starve.
  - repeat transcript_step.
    destruct (scanPlaylists _ _ _); [apply failFast_ret|].
    destruct (decide _); [apply failFast_ret | apply IH].
Qed.

Lemma fetchPlaylistLoop_failFast fuel playlistID allTrackIDs offset :
  FailFast (fetchPlaylistLoop client fuel playlistID allTrackIDs offset).
Proof.
  revert allTrackIDs offset.
  induction fuel as [|fuel IH]; intros allTrackIDs offset; simpl.
  - apply failFast_starve.
  - repeat transcript_step.
    destruct (decide _); [apply failFast_ret | apply IH].
Qed.

Lemma batchLoop_failFast gas batchSize send (trackIDs : list ID) i :
  (∀ batch, FailFast (W:=W) (send batch)) →
  FailFast (batchLoop gas batchSize send trackIDs i).
Proof.
  intros Hsend. revert i. induction gas as [|gas IH]; intros i; simpl.
  - destruct (decide _); [apply failFast_starve | apply failFast_ret].
  - destruct (decide _); [|apply failFast_ret].
    apply failFast_bind; [apply Hsend | intros _; apply IH].
Qed.

Lemma removeTracksInBatches_failFast playlistID trackIDs :
  FailFast (removeTracksInBatches client playlistID trackIDs).
Proof.
  unfold removeTracksInBatches. destruct (decide _); [apply failFast_ret|].
  apply batchLoop_failFast. intros batch. unfold sendRemove.
  repeat transcript_step.
Qed.

Lemma addTracksInBatches_failFast playlistID trackIDs :
  FailFast (addTracksInBatches client playlistID trackIDs).
Proof.
  apply batchLoop_failFast. intros batch. unfold sendAdd.
  repeat transcript_step.
Qed.

Lemma applyImage_failFast playlistName playlistID :
  FailFast (applyImage client imgGen playlistName playlistID).
Proof.
  unfold applyImage. apply failFast_bind.
  - apply failFast_attempt_image. intros ?; reflexivity.
  - intros [img|e]; repeat transcript_step.
Qed.

Lemma processYear_failFast fuel user tracksByYear year :
  FailFast (processYear client imgGen fuel user tracksByYear year).
Proof.
  unfold processYear. apply failFast_bind; [apply findLoop_failFast|].
  intros existing. apply failFast_bind.
  - destruct existing as [pl|].
    + unfold clearExisting. apply failFast_bind.
      * apply failFast_wrapErr, fetchPlaylistLoop_failFast.
      * intros ids. apply failFast_bind; [|intros; apply failFast_ret].
        apply failFast_wrapErr, removeTracksInBatches_failFast.
    + unfold createNew. repeat transcript_step.
  - intros playlistID. apply failFast_bind; [apply applyImage_failFast|].
    intros _. apply addTracksInBatches_failFast.
Qed.

Lemma forYears_failFast fuel user tracksByYear years :
  FailFast (forYears client imgGen fuel user tracksByYear years).
Proof.
  induction years as [|year rest IH]; simpl.
  - apply failFast_ret.
  - apply failFast_bind; [apply processYear_failFast | intros _; apply IH].
Qed.

Lemma Run_failFast fuel : FailFast (Run client imgGen parseYear fuel).
Proof.
  unfold Run. apply failFast_bind.
  - apply failFast_wrapErr, fetchLikedLoop_failFast.
  - intros allTracks. destruct (decide _); [apply failFast_ret|].
    apply failFast_bind; [repeat transcript_step|].
    intros user. apply forYears_failFast.
Qed.
End SorterTranscripts.

(** ** The reconciler: early exits *)

(** C2.  In every run of [playlistSorter.Run], a call that comes back
    with an error and is not one of the two cosmetic calls (so the
    listing of playlists in the locate step, the create-playlist call,
    the fetch of an existing playlist's contents, a removal batch or an
    addition batch, and likewise the two calls made before the loop) is
    the last call of the run: nothing is issued after it for the same
    year or for a later one, and [Run] returns a non-nil error that wraps
    the error of that call. *)
Theorem Run_fails_fast {W} (client : SpotifyClient W)
    (imgGen : ImageGenerator W) (parseYear : string → option Z)
    (fuel : nat) (w : W) :
  let '(o, _, tr) := Run client imgGen parseYear fuel w in
  ∀ (pre : list Event) (ev : Event) (post : list Event) (cause : error),
    tr = pre ++ ev :: post →
    is_image ev = false →
    error_of ev = Some cause →
    post = [] ∧ ∃ e, o = Err e ∧ Wraps e cause.
Proof.
  pose proof (Run_failFast client imgGen parseYear fuel w) as Hff.
  destruct (Run client imgGen parseYear fuel w) as [[o w'] tr]. simpl in Hff.
  intros pre ev post cause -> Hplain Hcause.
  assert (failed ev = true) as Hfailed
    by (apply failed_error_of; rewrite Hcause; by eexists).
  assert (¬ quiet (pre ++ ev :: post)) as Hloud.
  { unfold quiet. rewrite Forall_app, Forall_cons. intros (_ & Hev & _).
    specialize (Hev Hfailed). congruence. }
  destruct o as [[]|e|]; simpl in Hff; try done.
  destruct Hff as (pre' & ev' & cause' & Heq & Hq & _ & Hcause' & Hwraps).
  symmetry in Heq. apply app_eq_middle in Heq
    as [(p & -> & _)|(p & Hlast & ->)].
  - destruct Hloud. apply Forall_app in Hq as [Hq1 Hq2].
    apply Forall_cons in Hq2 as [Hev _]. specialize (Hev Hfailed). congruence.
  - destruct p as [|x p]; simpl in Hlast.
    + injection Hlast as -> <-. split; [done|]. exists e.
      split; [done|]. congruence.
    + injection Hlast as _ Hnil. by destruct p.
Qed.

Lemma Run_fails_fast_witness :
  let '(o, _, tr) :=
    Run addRefused (pureGen noImage) rfc3339Year 3 smallRemote in
  length tr = 9%nat
  ∧ ∃ e, o = Err e ∧ Wraps e (Failure "503: service unavailable").
Proof.
  pose proof (Run_fails_fast addRefused (pureGen noImage) rfc3339Year 3
                smallRemote) as Hrun.
  destruct (Run addRefused (pureGen noImage) rfc3339Year 3 smallRemote)
    as [[o w'] tr] eqn:Heq.
  vm_compute in Heq. injection Heq as <- <- <-.
  split; [reflexivity|].
  match type of Hrun with
  | ∀ pre ev post cause, ?tr = _ → _ =>
    exact (proj2 (Hrun (take 8 tr)
                    (EAddTracksToPlaylist "p1" ["a"; "c"]
                       (Raise (Failure "503: service unavailable")))
                    [] (Failure "503: service unavailable")
                    eq_refl eq_refl eq_refl))
  end.
Defined.

(** C9.  When the fetch of the liked tracks returns no track, [Run]
    returns nil right there: its transcript is the transcript of that
    fetch, which consists of liked-tracks listings only, so [CurrentUser]
    is not called and no playlist is listed, created, cleared, filled or
    given an image; the world is as the fetch left it. *)
Theorem Run_nothing_to_do {W} (client : SpotifyClient W)
    (imgGen : ImageGenerator W) (parseYear : string → option Z)
    (fuel : nat) (w w1 : W) (t1 : list Event) :
  fetchAllLikedTracks client fuel w = (Ok [], w1, t1) →
  Run client imgGen parseYear fuel w = (Ok tt, w1, t1)
  ∧ Forall (λ ev, ∃ limit offset r, ev = ECurrentUsersTracks limit offset r) t1.
Proof.
  intros Hfetch. split.
  - unfold Run, bind, wrapErr. rewrite Hfetch. simpl.
    by rewrite app_nil_r.
  - pose proof (fetchLikedLoop_emits client
                  (λ ev, ∃ limit offset r, ev = ECurrentUsersTracks limit offset r)
                  fuel [] 0 ltac:(intros; simpl; eauto) w) as Hem.
    unfold fetchAllLikedTracks in Hfetch. by rewrite Hfetch in Hem.
Qed.

Lemma Run_nothing_to_do_witness :
  Run memClient (pureGen noImage) rfc3339Year 1 emptyRemote
  = (Ok tt, emptyRemote,
     [ECurrentUsersTracks 50 0 (Ret (SavedTrackPage.mk 0 []))]).
Proof.
  exact (proj1 (Run_nothing_to_do memClient (pureGen noImage) rfc3339Year 1
                  emptyRemote emptyRemote
                  [ECurrentUsersTracks 50 0 (Ret (SavedTrackPage.mk 0 []))]
                  eq_refl)).
Defined.

(** ** The reconciler: cover images *)

Section ImageFailures.
Context {W : Type}.
Variable client : SpotifyClient W.
Variable imgGen : ImageGenerator W.
Variable parseYear : string → option Z.






End ImageFailures.



(** ** The playlist locator *)

Section Locator.
Context {W : Type}.
Variable client : SpotifyClient W.
Variables userID name : string.

Local Abbreviation scan := (scanPlaylists userID name).
Local Abbreviation target := (isTarget userID name).

Lemma scan_app (l1 l2 : list SimplePlaylist.t) :
  scan (l1 ++ l2) = match scan l1 with Some pl => Some pl | None => scan l2 end.
Proof.
  induction l1 as [|pl l1 IH]; simpl; [done|].
  by destruct (decide _).
Qed.

Lemma scan_firstTarget (l : list SimplePlaylist.t) :
  firstTarget userID name l (scan l).
Proof.
  induction l as [|pl l IH]; simpl.
  - constructor.
  - destruct (decide _) as [Hyes|Hno].
    + exists [], l. split_and!; [done|done|constructor].
    + destruct (scan l) as [found|]; simpl in *.
      * destruct IH as (before & after & -> & Ht & Hb).
        exists (pl :: before), after. split_and!; [done|done|].
        by constructor.
      * by constructor.
Qed.

(** What a returning [findLoop] has seen. *)
Lemma findLoop_ok fuel :
  ∀ offset (w : W) r w' tr,
    findLoop client fuel userID name offset w = (Ok r, w', tr) →
    ∃ pages last,
      tr = shelfFetches userID offset (pages ++ [last])
      ∧ Forall (λ page, SimplePlaylistPage.Playlists page ≠ []
                        ∧ scan (SimplePlaylistPage.Playlists page) = None)
          pages
      ∧ scan (SimplePlaylistPage.Playlists last) = r
      ∧ (r = None → SimplePlaylistPage.Playlists last = []).
Proof.
  induction fuel as [|fuel IH]; intros offset w r w' tr Hrun;
    simpl in Hrun; [done|].
  unfold bind, wrapErr, call in Hrun.
  destruct (GetPlaylistsForUser client userID 50 offset w) as [[page|e] w1];
    [|done].
  destruct (scan (SimplePlaylistPage.Playlists page)) as [found|] eqn:Hscan.
  - unfold ret in Hrun. simplify_eq/=.
    exists [], page. by split_and!.
  - destruct (decide (len (SimplePlaylistPage.Playlists page) = 0))
      as [Hempty|Hmore].
    + unfold ret in Hrun. simplify_eq/=. exists [], page.
      split_and!; try done. intros _.
      destruct (SimplePlaylistPage.Playlists page); [done|discriminate].
    + destruct (findLoop client fuel userID name _ w1) as [[o2 w2] t2] eqn:Hrec.
      simplify_eq/=.
      destruct (IH _ _ _ _ _ Hrec) as (pages & last & -> & Hall & Hlast & Hnone).
      exists (page :: pages), last. split_and!; try done.
      constructor; [|done]. split; [|done].
      intros Hnil. rewrite Hnil in Hmore. done.
Qed.

Lemma shelfFetches_scan (pages : list SimplePlaylistPage.t) last :
  Forall (λ page, SimplePlaylistPage.Playlists page ≠ []
                  ∧ scan (SimplePlaylistPage.Playlists page) = None) pages →
  scan (concat (SimplePlaylistPage.Playlists <$> (pages ++ [last])))
  = scan (SimplePlaylistPage.Playlists last).
Proof.
  induction 1 as [|page pages [_ Hnone] _ IH]; simpl.
  - by rewrite app_nil_r.
  - by rewrite scan_app, Hnone.
Qed.

(** A remote whose listing shows the collection [coll], as long as the
    world satisfies [Inv]. *)
Variable coll : list SimplePlaylist.t.
Variable Inv : W → Prop.
Hypothesis serves : ∀ limit offset w, Inv w →
  ∃ total w',
    GetPlaylistsForUser client userID limit offset w
    = (Ret (SimplePlaylistPage.mk total (pageOf coll limit offset)), w')
    ∧ Inv w'.

Lemma findLoop_serves fuel :
  ∀ (k : nat) (w : W),
    Inv w → (length coll - k < fuel)%nat → scan (take k coll) = None →
    ∃ w' tr,
      findLoop client fuel userID name (Z.of_nat k) w = (Ok (scan coll), w', tr)
      ∧ Inv w'.
Proof.
  induction fuel as [|fuel IH]; intros k w Hinv Hfuel Hseen; [lia|].
  simpl. unfold bind, wrapErr, call.
  destruct (serves 50 (Z.of_nat k) w Hinv) as (total & w1 & -> & Hinv1).
  simpl. unfold pageOf. rewrite Nat2Z.id.
  assert (scan coll = scan (take (Z.to_nat 50) (drop k coll) ++
                            drop (Z.to_nat 50) (drop k coll))) as Hcoll.
  { rewrite take_drop. rewrite <- (take_drop k coll) at 1.
    by rewrite scan_app, Hseen. }
  rewrite scan_app in Hcoll.
  destruct (scan (take (Z.to_nat 50) (drop k coll))) as [found|] eqn:Hpage.
  - unfold ret. rewrite Hcoll. eauto.
  - destruct (decide _) as [Hempty|Hmore].
    + unfold ret. assert (drop k coll = []) as Hend.
      { destruct (drop k coll); [done|]. discriminate. }
      rewrite Hend in Hcoll. rewrite Hcoll. simpl. eauto.
    + set (page := take (Z.to_nat 50) (drop k coll)) in *.
      assert (length page ≠ 0%nat) as Hn by (unfold len in Hmore; lia).
      assert (length page ≤ length coll - k)%nat as Hle.
      { subst page. rewrite length_take, length_drop. lia. }
      replace (Z.of_nat k + len page) with (Z.of_nat (k + length page))
        by (unfold len; lia).
      destruct (IH (k + length page)%nat w1 Hinv1 ltac:(lia))
        as (w2 & t2 & Hrec & Hinv2).
      { rewrite <- (take_drop k (take (k + length page) coll)).
        rewrite take_take, Nat.min_l by lia.
        rewrite scan_app, Hseen. rewrite <- take_drop_commute.
        rewrite <- (take_drop (Z.to_nat 50) (drop k coll)).
        fold page. by rewrite take_app_length. }
      rewrite Hrec. eauto.
Qed.
End Locator.

(** C5.  For every target name and owner identifier:
    (1) whenever [findExistingPlaylist] returns without error, it has
    listed the pages of the collection one after the other, each from the
    offset where the previous one ended, and its result is the first
    playlist, in page order, whose name equals the target and whose owner
    identifier equals the given one; the result is the nil playlist (with
    a nil error) only when no listed playlist passes the test and the
    last page came back empty;
    (2) against a remote that serves a fixed collection page by page,
    with fuel beyond the size of the collection, it does return, and
    returns the first such playlist of the collection, or the nil
    playlist with a nil error when there is none.
    Names and identifiers are compared as strings, byte for byte. *)
Theorem findExistingPlaylist_first_target {W} (client : SpotifyClient W)
    (userID name : string) :
  (∀ (fuel : nat) (w : W) (r : option SimplePlaylist.t) (w' : W)
     (tr : list Event),
     findExistingPlaylist client fuel userID name w = (Ok r, w', tr) →
     ∃ pages : list SimplePlaylistPage.t,
       tr = shelfFetches userID 0 pages
       ∧ firstTarget userID name
           (concat (SimplePlaylistPage.Playlists <$> pages)) r
       ∧ (r = None →
          ∃ init last, pages = init ++ [last]
                       ∧ SimplePlaylistPage.Playlists last = []))
  ∧ (∀ (coll : list SimplePlaylist.t) (Inv : W → Prop),
       (∀ limit offset w, Inv w →
          ∃ total w',
            GetPlaylistsForUser client userID limit offset w
            = (Ret (SimplePlaylistPage.mk total (pageOf coll limit offset)), w')
            ∧ Inv w') →
       ∀ (fuel : nat) (w : W),
         Inv w → (length coll < fuel)%nat →
         ∃ r w' tr,
           findExistingPlaylist client fuel userID name w = (Ok r, w', tr)
           ∧ firstTarget userID name coll r).
Proof.
  split.
  - intros fuel w r w' tr Hrun.
    destruct (findLoop_ok client userID name fuel 0 w r w' tr Hrun)
      as (pages & last & -> & Hall & Hlast & Hnone).
    exists (pages ++ [last]). split_and!; [done| |].
    + rewrite <- Hlast, <- (shelfFetches_scan userID name pages last Hall).
      apply scan_firstTarget.
    + intros Hr. exists pages, last. split; [done|]. by apply Hnone.
  - intros coll Inv Hserves fuel w Hinv Hfuel.
    destruct (findLoop_serves client userID name coll Inv Hserves fuel 0 w
                Hinv ltac:(lia) eq_refl) as (w' & tr & Hrun & _).
    exists (scanPlaylists userID name coll), w', tr. split; [done|].
    apply scan_firstTarget.
Qed.

Lemma findExistingPlaylist_first_target_witness :
  (length (listing smallRemote) < 2)%nat
  ∧ ∃ r w' tr,
      findExistingPlaylist memClient 2 "me" "Liked Songs (2023)" smallRemote
      = (Ok r, w', tr)
      ∧ firstTarget "me" "Liked Songs (2023)" (listing smallRemote) r.
Proof.
  split; [vm_compute; lia|].
  apply (proj2 (findExistingPlaylist_first_target memClient "me"
                  "Liked Songs (2023)")
           (listing smallRemote) (λ w, w = smallRemote)).
  - intros limit offset w ->. eexists _, smallRemote. split; reflexivity.
  - reflexivity.
  - vm_compute. lia.
Defined.

(** ** The pagers *)

Section Pagers.
Context {W : Type}.
Variable client : SpotifyClient W.


Lemma keepValid_foldl (items : list PlaylistTrack.t) (acc : list ID) :
  foldl keepValid acc items = acc ++ validIDs items.
Proof.
  revert acc. induction items as [|item items IH]; intros acc; simpl.
  - by rewrite app_nil_r.
  - rewrite IH. unfold keepValid, validIDs. rewrite fmap_cons, filter_cons.
    destruct (decide _); [|done]. by rewrite <- app_assoc.
Qed.

Lemma fetchPlaylistLoop_ok fuel playlistID :
  ∀ allTrackIDs offset (w : W) ids w' tr,
    fetchPlaylistLoop client fuel playlistID allTrackIDs offset w
    = (Ok ids, w', tr) →
    ∃ pages last,
      tr = itemFetches playlistID offset (pages ++ [last])
      ∧ Forall (λ page, PlaylistTrackPage.Tracks page ≠ []) pages
      ∧ PlaylistTrackPage.Tracks last = []
      ∧ ids = allTrackIDs
              ++ concat ((λ page, validIDs (PlaylistTrackPage.Tracks page))
                           <$> pages).
Proof.
  induction fuel as [|fuel IH]; intros allTrackIDs offset w ids w' tr Hrun;
    simpl in Hrun; [done|].
  unfold bind, call in Hrun.
  destruct (GetPlaylistTracks client playlistID 100 offset w)
    as [[page|e] w1]; [|done].
  destruct (decide (len (PlaylistTrackPage.Tracks page) = 0))
    as [Hempty|Hmore].
  - unfold ret in Hrun. simplify_eq/=. exists [], page.
    split_and!; try done.
    + destruct (PlaylistTrackPage.Tracks page); [done|discriminate].
    + by rewrite app_nil_r.
  - destruct (fetchPlaylistLoop client fuel _ _ _ w1)
      as [[o2 w2] t2] eqn:Hrec.
    simplify_eq/=.
    destruct (IH _ _ _ _ _ _ Hrec) as (pages & last & -> & Hall & Hlast & ->).
    exists (page :: pages), last. split_and!; try done.
    + constructor; [|done]. intros Hnil. by rewrite Hnil in Hmore.
    + simpl. by rewrite keepValid_foldl, app_assoc.
Qed.

Variable artists : gset string.

(** The artist filter, round by round. *)
Lemma removerLoop_rounds fuel :
  ∀ offset total (w : W),
    let '(o, _, tr) := removerLoop client artists fuel offset total w in
    ∃ rounds : list (SavedTrackPage.t * Reply unit),
      Forall (λ round, SavedTrackPage.Tracks round.1 ≠ []) rounds
      ∧ let final := offset + 50 * len rounds in
        match o with
        | Ok _ =>
          (∃ page,
             tr = removerCalls artists offset rounds
                  ++ [ECurrentUsersTracks 50 final (Ret page)]
             ∧ SavedTrackPage.Tracks page = [])
          ∨ (tr = removerCalls artists offset rounds
             ∧ rounds ≠ []
             ∧ knownTotal total rounds.*1 ≠ -1
             ∧ final >= knownTotal total rounds.*1)
        | Err e =>
          ∃ cause,
            tr = removerCalls artists offset rounds
                 ++ [ECurrentUsersTracks 50 final (Raise cause)]
            ∧ e = Errorf "couldn't get liked songs page" cause
        | NoFuel => tr = removerCalls artists offset rounds
        end.
Proof.
  induction fuel as [|fuel IH]; intros offset total w.
  - simpl. exists []. split; [constructor | done].
  - cbn [removerLoop]. rewrite bind_wrapErr_call.
    destruct (CurrentUsersTracks client 50 offset w) as [[page|e] w1].
    2:{ exists []. split; [constructor|]. simpl.
        rewrite Z.add_0_r. by exists e. }
    set (total' := if decide (total = -1) then SavedTrackPage.Total page
                   else total).
    destruct (decide (len (SavedTrackPage.Tracks page) = 0))
      as [Hempty|Hmore].
    { exists []. split; [constructor|]. simpl. left. exists page.
      rewrite Z.add_0_r. split; [done|].
      destruct (SavedTrackPage.Tracks page); [done|discriminate]. }
    assert (SavedTrackPage.Tracks page ≠ []) as Hne
      by (intros Hnil; by rewrite Hnil in Hmore).
    set (marked := findTracksToRemove artists (SavedTrackPage.Tracks page)).
    set (removal := if decide (len marked > 0) then _ else _).
    assert (∃ r w2,
               removal w1
               = (Ok tt, w2,
                  if decide (marked ≠ [])
                  then [ERemoveTracksFromLibrary marked r] else []))
      as (r & w2 & Hremove).
    { subst removal. destruct (decide (len marked > 0)) as [Hsome|Hnone].
      - unfold bind, attempt, call, ret.
        destruct (RemoveTracksFromLibrary client marked w1) as [r w2].
        exists r, w2.
        destruct (decide (marked ≠ [])) as [_|Hnil];
          [by destruct r|].
        destruct Hnil. intros Hnil. by rewrite Hnil in Hsome.
      - exists (Ret tt), w1. unfold ret.
        destruct (decide (marked ≠ [])) as [Hsome|_]; [|done].
        destruct marked; [done|]. unfold len in Hnone. simpl in Hnone. lia. }
    unfold bind at 1. rewrite Hremove. clear Hremove removal.
    destruct (decide (total' ≠ -1 ∧ offset + 50 >= total')) as [[Hk Hstop]|Hgo].
    + exists [(page, r)]. split; [by repeat constructor|].
      unfold ret. cbn [removerCalls roundCalls fst snd]. fold marked.
      right. rewrite !app_nil_r.
      unfold knownTotal. cbn [fmap list_fmap foldl fst]. fold total'.
      split_and!; [done|done|done|]. unfold len. simpl. lia.
    + specialize (IH (offset + 50) total' w2).
      destruct (removerLoop client artists fuel (offset + 50) total' w2)
        as [[o3 w3] t3].
      destruct IH as (rounds & Hall & Hshape).
      exists ((page, r) :: rounds). split; [by constructor|].
      assert (offset + 50 + 50 * len rounds
              = offset + 50 * len ((page, r) :: rounds)) as <-
        by (unfold len; simpl length; lia).
      assert (knownTotal total ((page, r) :: rounds).*1
              = knownTotal total' rounds.*1) as -> by done.
      cbv zeta in Hshape. cbn [removerCalls roundCalls fst snd]. fold marked.
      destruct o3 as [[]|e|].
      * destruct Hshape as [(last & -> & Hlast)|(-> & Hr & Hk & Hstop)].
        -- left. exists last. split; [|done].
           by rewrite <- !app_assoc.
        -- right. split_and!; try done.
      * destruct Hshape as (cause & -> & ->). exists cause.
        split; [|done]. by rewrite <- !app_assoc.
      * by rewrite Hshape.
Qed.



(** After a removal call of the artist filter comes the listing call
    of the next round, or nothing. *)
Lemma removerCalls_after_removal (rounds : list (SavedTrackPage.t * Reply unit))
    (tail : list Event) :
  ∀ offset pre ids r post,
    (tail = [] ∨ ∃ off reply, tail = [ECurrentUsersTracks 50 off reply]) →
    removerCalls artists offset rounds ++ tail
    = pre ++ ERemoveTracksFromLibrary ids r :: post →
    post = []
    ∨ ∃ off reply rest, post = ECurrentUsersTracks 50 off reply :: rest.
Proof.
  induction rounds as [|round rounds IH]; intros offset pre ids r post Htail Heq.
  - simpl in Heq. destruct Htail as [->|(off & reply & ->)].
    + by destruct pre.
    + destruct pre as [|x pre]; simplify_eq/=. by destruct pre.
  - assert (∀ pre', removerCalls artists (offset + 50) rounds ++ tail
                     = pre' ++ ERemoveTracksFromLibrary ids r :: post →
                    post = []
                    ∨ ∃ off reply rest,
                        post = ECurrentUsersTracks 50 off reply :: rest)
      as Hlater by (intros pre'; by apply IH).
    assert (removerCalls artists (offset + 50) rounds ++ tail = post →
            post = []
            ∨ ∃ off reply rest,
                post = ECurrentUsersTracks 50 off reply :: rest) as Hnext.
    { intros <-. destruct rounds as [|next rounds]; simpl.
      - destruct Htail as [->|(off & reply & ->)]; eauto.
      - right. eauto. }
    cbn [removerCalls roundCalls] in Heq.
    destruct pre as [|x pre]; [done|]. simpl in Heq.
    injection Heq as _ Heq.
    destruct (decide (_ ≠ [])); simpl in Heq.
    + destruct pre as [|y pre]; simpl in Heq.
      * injection Heq as _ _ Heq. by apply Hnext.
      * injection Heq as _ Heq. by apply (Hlater pre).
    + by apply (Hlater pre).
Qed.
End Pagers.




(** ** The artist filter *)

(** C8 as stated fails: on a page without any track by a listed artist
    the filter makes no removal call at all. *)
Lemma remover_skips_unmarked_page :
  let '(o, _, tr) :=
    artistTrackRemover_Run memClient {["Nobody"]} 5 smallRemote in
  o = Ok tt
  ∧ pageSizes tr = [3%nat]
  ∧ Forall (λ ev, ∀ ids r, ev ≠ ERemoveTracksFromLibrary ids r) tr.
Proof. vm_compute. split_and!; [done|done|]. by repeat constructor. Qed.

(** C8, amended.  Every run of [artistTrackRemover.Run] proceeds in
    rounds, one per non-empty page: the listing call at offset 0, 50,
    100, ..., then, when the page has at least one marked identifier, one
    removal call for exactly the identifiers [findTracksToRemove] marks
    on that page, made before the next listing call (a page with no
    marked identifier gets no removal call).  Whatever the removal call
    returns, the run goes on: after a removal call comes the next listing
    call or the end of the run, and [Run] returns an error only for a
    listing call that failed, which is then the last call. *)
Theorem artistTrackRemover_Run_rounds {W} (client : SpotifyClient W)
    (artists : gset string) (fuel : nat) (w : W) :
  let '(o, _, tr) := artistTrackRemover_Run client artists fuel w in
  (∃ rounds : list (SavedTrackPage.t * Reply unit),
     Forall (λ round, SavedTrackPage.Tracks round.1 ≠ []) rounds
     ∧ match o with
       | Ok _ =>
         (∃ page,
            tr = removerCalls artists 0 rounds
                 ++ [ECurrentUsersTracks 50 (50 * len rounds) (Ret page)]
            ∧ SavedTrackPage.Tracks page = [])
         ∨ (tr = removerCalls artists 0 rounds
            ∧ rounds ≠ []
            ∧ knownTotal (-1) rounds.*1 ≠ -1
            ∧ 50 * len rounds >= knownTotal (-1) rounds.*1)
       | Err e =>
         ∃ cause,
           tr = removerCalls artists 0 rounds
                ++ [ECurrentUsersTracks 50 (50 * len rounds) (Raise cause)]
           ∧ e = Errorf "couldn't get liked songs page" cause
       | NoFuel => tr = removerCalls artists 0 rounds
       end)
  ∧ (∀ pre ids r post,
       tr = pre ++ ERemoveTracksFromLibrary ids r :: post →
       (post = [] ∧ is_err o = false)
       ∨ ∃ offset reply rest,
           post = ECurrentUsersTracks 50 offset reply :: rest).
Proof.
  pose proof (removerLoop_rounds client artists fuel 0 (-1) w) as Hshape.
  unfold artistTrackRemover_Run.
  destruct (removerLoop client artists fuel 0 (-1) w) as [[o w'] tr].
  destruct Hshape as (rounds & Hall & Hstop). cbv zeta in Hstop.
  rewrite !Z.add_0_l in Hstop. split; [by exists rounds|].
  intros pre ids r post Htr.
  destruct o as [[]|e|].
  - destruct Hstop as [(page & -> & _)|(-> & _)].
    + destruct (removerCalls_after_removal artists rounds _ 0 pre ids r post
                  ltac:(right; eauto) Htr) as [->|?]; eauto.
    + rewrite <- (app_nil_r (removerCalls _ _ _)) in Htr.
      destruct (removerCalls_after_removal artists rounds [] 0 pre ids r post
                  (or_introl eq_refl) Htr) as [->|?]; eauto.
  - destruct Hstop as (cause & -> & _).
    destruct (removerCalls_after_removal artists rounds _ 0 pre ids r post
                ltac:(right; eauto) Htr) as [->|?]; [|eauto].
    exfalso. clear -Htr.
    apply (f_equal (@last Event)) in Htr. rewrite !last_snoc in Htr. done.
  - rewrite Hstop in Htr.
    rewrite <- (app_nil_r (removerCalls _ _ _)) in Htr.
    destruct (removerCalls_after_removal artists rounds [] 0 pre ids r post
                (or_introl eq_refl) Htr) as [->|?]; eauto.
Qed.

Lemma artistTrackRemover_Run_rounds_witness :
  let '(o, _, tr) :=
    artistTrackRemover_Run removalRefused {["BadArtist"]} 5 smallRemote in
  tr = [ ECurrentUsersTracks 50 0 (Ret (SavedTrackPage.mk 3 threeTracks));
         ERemoveTracksFromLibrary ["b"] (Raise (Failure "502: bad gateway")) ]
  ∧ is_err o = false.
Proof.
  pose proof (artistTrackRemover_Run_rounds removalRefused {["BadArtist"]} 5
                smallRemote) as Hrun.
  destruct (artistTrackRemover_Run removalRefused {["BadArtist"]} 5 smallRemote)
    as [[o w'] tr] eqn:Heq.
  vm_compute in Heq. injection Heq as <- <- <-.
  split; [reflexivity|].
  destruct Hrun as [_ Hafter].
  destruct (Hafter [ECurrentUsersTracks 50 0
                      (Ret (SavedTrackPage.mk 3 threeTracks))]
              ["b"] (Raise (Failure "502: bad gateway")) [] eq_refl)
    as [[_ Hok]|(offset & reply & rest & Hrest)]; [exact Hok | discriminate].
Defined.

(** ** The in-memory remote, call by call *)

Section MemoryRemote.
Local Abbreviation withItems := MemPlaylist.withItems.

Lemma setPlaylist_same (w : Remote.t) id p :
  Remote.playlists w !! id = Some p → setPlaylist w id p = w.
Proof.
  intros Hp. destruct w as [me lib shelf pls]. unfold setPlaylist. simpl in *.
  by rewrite insert_id.
Qed.

Lemma setPlaylist_twice (w : Remote.t) id p1 p2 :
  setPlaylist (setPlaylist w id p1) id p2 = setPlaylist w id p2.
Proof. unfold setPlaylist. simpl. by rewrite insert_insert_eq. Qed.

Lemma setPlaylist_lookup (w : Remote.t) id p :
  Remote.playlists (setPlaylist w id p) !! id = Some p.
Proof. unfold setPlaylist. simpl. by rewrite lookup_insert_eq. Qed.

Lemma withItems_same p : withItems p (MemPlaylist.Items p) = p.
Proof. by destruct p. Qed.

Lemma withItems_twice p l1 l2 : withItems (withItems p l1) l2 = withItems p l2.
Proof. done. Qed.

(** *** Listings *)

Lemma pageOf_nat {A} (l : list A) (limit : Z) (k : nat) :
  pageOf l limit (Z.of_nat k) = take (Z.to_nat limit) (drop k l).
Proof. unfold pageOf. by rewrite Nat2Z.id. Qed.

Lemma page_empty_end {A} (l : list A) (k : nat) :
  take 50 (drop k l) = [] → take k l = l.
Proof.
  intros Hnil. rewrite <- (take_drop k l) at 2.
  destruct (drop k l); [by rewrite app_nil_r | done].
Qed.

Lemma page_empty_end_100 {A} (l : list A) (k : nat) :
  take 100 (drop k l) = [] → take k l = l.
Proof.
  intros Hnil. rewrite <- (take_drop k l) at 2.
  destruct (drop k l); [by rewrite app_nil_r | done].
Qed.

Lemma take_page {A} (l : list A) (k n : nat) :
  take k l ++ take n (drop k l)
  = take (k + length (take n (drop k l))) l.
Proof.
  rewrite <- take_take_drop. f_equal.
  rewrite <- (take_drop n (drop k l)) at 3. by rewrite take_app_length.
Qed.

Lemma fetchLikedLoop_mem fuel (w : Remote.t) :
  ∀ k : nat,
    (length (Remote.library w) - k < fuel)%nat →
    ∃ tr, fetchLikedLoop memClient fuel (take k (Remote.library w))
            (Z.of_nat k) w
          = (Ok (Remote.library w), w, tr).
Proof.
  induction fuel as [|fuel IH]; intros k Hfuel; [lia|].
  cbn [fetchLikedLoop]. rewrite bind_call. cbn [CurrentUsersTracks memClient].
  rewrite pageOf_nat. cbn [SavedTrackPage.Tracks].
  change (Z.to_nat 50) with 50%nat.
  set (page := take 50 (drop k (Remote.library w))).
  destruct (decide (len page = 0)) as [Hempty|Hmore].
  - unfold ret. rewrite page_empty_end; [eauto|].
    fold page. destruct page; [done|discriminate].
  - assert (length page ≠ 0%nat) as Hn by (unfold len in Hmore; lia).
    assert (length page ≤ length (Remote.library w) - k)%nat as Hle.
    { subst page. rewrite length_take, length_drop. lia. }
    replace (Z.of_nat k + len page) with (Z.of_nat (k + length page))
      by (unfold len; lia).
    subst page. rewrite take_page.
    destruct (IH (k + length (take 50 (drop k (Remote.library w))))%nat
                ltac:(lia)) as (tr & ->).
    eauto.
Qed.

Lemma fetchAllLikedTracks_mem fuel (w : Remote.t) :
  (length (Remote.library w) < fuel)%nat →
  ∃ tr, fetchAllLikedTracks memClient fuel w = (Ok (Remote.library w), w, tr).
Proof.
  intros Hfuel. apply (fetchLikedLoop_mem fuel w 0). lia.
Qed.

Lemma listing_length (w : Remote.t) :
  (length (listing w) ≤ length (Remote.shelf w))%nat.
Proof.
  unfold listing. induction (Remote.shelf w) as [|id shelf IH]; [done|].
  cbn [omap list_omap]. destruct (shelfEntry w id); cbn [length]; lia.
Qed.

Lemma findExistingPlaylist_mem fuel name (w : Remote.t) :
  (length (Remote.shelf w) < fuel)%nat →
  ∃ tr,
    findExistingPlaylist memClient fuel (PrivateUser.ID (Remote.me w)) name w
    = (Ok (scanPlaylists (PrivateUser.ID (Remote.me w)) name (listing w)),
       w, tr).
Proof.
  intros Hfuel. pose proof (listing_length w) as Hlen.
  destruct (findLoop_serves memClient (PrivateUser.ID (Remote.me w)) name
              (listing w) (λ w', w' = w)) with (fuel := fuel) (k := 0%nat)
                                               (w := w)
    as (w' & tr & Hrun & ->); [|done|lia|done|by eauto].
  intros limit offset w' ->. eexists _, w. split; [|done].
  cbn [GetPlaylistsForUser memClient].
  destruct (decide _) as [_|Hne]; [done | by destruct Hne].
Qed.

Lemma validIDs_items (items : list ID) :
  validIDs ((λ id, PlaylistTrack.mk (FullTrack.mk id)) <$> items)
  = filter (λ id, id ≠ "") items.
Proof.
  unfold validIDs. induction items as [|id items IH]; [done|].
  rewrite !fmap_cons, !filter_cons, IH. done.
Qed.

Lemma fetchPlaylistLoop_mem fuel (w : Remote.t) playlistID p :
  Remote.playlists w !! playlistID = Some p →
  ∀ k : nat,
    (length (MemPlaylist.Items p) - k < fuel)%nat →
    ∃ tr,
      fetchPlaylistLoop memClient fuel playlistID
        (filter (λ id, id ≠ "") (take k (MemPlaylist.Items p)))
        (Z.of_nat k) w
      = (Ok (filter (λ id, id ≠ "") (MemPlaylist.Items p)), w, tr).
Proof.
  intros Hp. induction fuel as [|fuel IH]; intros k Hfuel; [lia|].
  cbn [fetchPlaylistLoop]. rewrite bind_call.
  cbn [GetPlaylistTracks memClient]. rewrite Hp.
  rewrite pageOf_nat. cbn [PlaylistTrackPage.Tracks].
  change (Z.to_nat 100) with 100%nat.
  rewrite <- fmap_drop, <- fmap_take.
  set (page := take 100 (drop k (MemPlaylist.Items p))).
  destruct (decide (len (_ <$> page) = 0)) as [Hempty|Hmore].
  - unfold ret. rewrite page_empty_end_100; [eauto|].
    fold page. destruct page; [done|discriminate].
  - assert (length page ≠ 0%nat) as Hn
      by (unfold len in Hmore; rewrite length_fmap in Hmore; lia).
    assert (length page ≤ length (MemPlaylist.Items p) - k)%nat as Hle.
    { subst page. rewrite length_take, length_drop. lia. }
    replace (Z.of_nat k + len (_ <$> page))
      with (Z.of_nat (k + length page))
      by (unfold len; rewrite length_fmap; lia).
    rewrite keepValid_foldl, validIDs_items, <- filter_app.
    subst page. rewrite take_page.
    destruct (IH (k + length (take 100 (drop k (MemPlaylist.Items p))))%nat
                ltac:(lia)) as (tr & ->).
    eauto.
Qed.

Lemma fetchAllPlaylistTracks_mem fuel (w : Remote.t) playlistID p :
  Remote.playlists w !! playlistID = Some p →
  (length (MemPlaylist.Items p) < fuel)%nat →
  ∃ tr, fetchAllPlaylistTracks memClient fuel playlistID w
        = (Ok (filter (λ id, id ≠ "") (MemPlaylist.Items p)), w, tr).
Proof.
  intros Hp Hfuel.
  apply (fetchPlaylistLoop_mem fuel w playlistID p Hp 0). lia.
Qed.
End MemoryRemote.

Section MemoryWrites.
Local Abbreviation withItems := MemPlaylist.withItems.
Variable playlistID : ID.

(** The batching loop over a [send] that rewrites the items of the
    playlist by [eff]. *)
Lemma batchLoop_mem (send : list ID → M Remote.t unit)
    (eff : list ID → list ID → list ID) (trackIDs : list ID) :
  (∀ batch w p,
     Remote.playlists w !! playlistID = Some p →
     ∃ tr, send batch w
           = (Ok tt,
              setPlaylist w playlistID
                (withItems p (eff batch (MemPlaylist.Items p))), tr)) →
  (∀ items, eff [] items = items) →
  (∀ b1 b2 items, eff (b1 ++ b2) items = eff b2 (eff b1 items)) →
  ∀ (gas : nat) (i : Z) (w : Remote.t) p,
    Remote.playlists w !! playlistID = Some p →
    0 ≤ i → (Z.to_nat (len trackIDs - i) ≤ gas)%nat →
    ∃ tr,
      batchLoop gas 100 send trackIDs i w
      = (Ok tt,
         setPlaylist w playlistID
           (withItems p (eff (drop (Z.to_nat i) trackIDs)
                           (MemPlaylist.Items p))), tr).
Proof.
  intros Hsend Hnil Happ.
  assert (∀ i (w : Remote.t) p,
             Remote.playlists w !! playlistID = Some p →
             len trackIDs ≤ i →
             (Ok tt, w, @nil Event)
             = (Ok tt,
                setPlaylist w playlistID
                  (withItems p (eff (drop (Z.to_nat i) trackIDs)
                                  (MemPlaylist.Items p))), [])) as Hdone.
  { intros i w p Hp Hi. rewrite drop_ge by (unfold len in Hi; lia).
    by rewrite Hnil, withItems_same, setPlaylist_same. }
  induction gas as [|gas IH]; intros i w p Hp Hi Hgas.
  - simpl. destruct (decide (i < len trackIDs)) as [?|_]; [lia|].
    eexists. apply Hdone; [done | lia].
  - cbn [batchLoop]. destruct (decide (i < len trackIDs)) as [Hlt|Hge];
      [|eexists; apply Hdone; [done | lia]].
    destruct (slice_step 100 ltac:(lia) trackIDs i (conj Hi Hlt))
      as [Hsplit _].
    set (batch := slice trackIDs i _) in *.
    unfold bind. destruct (Hsend batch w p Hp) as (t1 & ->).
    set (p1 := withItems p (eff batch (MemPlaylist.Items p))).
    destruct (IH (i + 100) (setPlaylist w playlistID p1) p1
                (setPlaylist_lookup w playlistID p1)
                ltac:(lia) ltac:(lia)) as (t2 & ->).
    subst p1.
    eexists. rewrite setPlaylist_twice. cbn [MemPlaylist.Items withItems].
    by rewrite <- Hsplit, Happ.
Qed.

Lemma filter_all {A} (P : A → Prop) `{∀ x, Decision (P x)} (l : list A) :
  (∀ x, x ∈ l → P x) → filter P l = l.
Proof.
  induction l as [|a l IH]; intros Hall; [done|].
  rewrite filter_cons. destruct (decide (P a)) as [_|Hn].
  - rewrite IH; [done|]. intros x Hx. apply Hall. by right.
  - destruct Hn. apply Hall. by left.
Qed.

Lemma filter_agree {A} (P Q : A → Prop) `{∀ x, Decision (P x)}
    `{∀ x, Decision (Q x)} (l : list A) :
  (∀ x, x ∈ l → (P x ↔ Q x)) → filter P l = filter Q l.
Proof.
  induction l as [|a l IH]; intros Hall; [done|].
  rewrite !filter_cons.
  assert (filter P l = filter Q l) as ->
    by (apply IH; intros x Hx; apply Hall; by right).
  pose proof (Hall a ltac:(by left)) as Ha.
  destruct (decide (P a)), (decide (Q a)); tauto.
Qed.

Lemma removeTracksInBatches_mem (trackIDs : list ID) (w : Remote.t) p :
  Remote.playlists w !! playlistID = Some p →
  ∃ tr,
    removeTracksInBatches memClient playlistID trackIDs w
    = (Ok tt,
       setPlaylist w playlistID
         (withItems p (filter (λ id, id ∉ trackIDs) (MemPlaylist.Items p))),
       tr).
Proof.
  intros Hp. unfold removeTracksInBatches.
  destruct (decide (len trackIDs = 0)) as [Hempty|_].
  - destruct trackIDs; [|discriminate]. unfold ret. eexists.
    rewrite filter_all by (intros x _; apply not_elem_of_nil).
    by rewrite withItems_same, setPlaylist_same.
  - unfold inBatches.
    destruct (batchLoop_mem (sendRemove memClient playlistID)
                (λ batch items, filter (λ id, id ∉ batch) items) trackIDs)
      with (gas := length trackIDs) (i := 0) (w := w) (p := p)
      as (tr & ->); try done.
    + intros batch w0 p0 Hp0. unfold sendRemove.
      rewrite bind_wrapErr_call. cbn [RemoveTracksFromPlaylist memClient].
      rewrite Hp0. unfold ret. eauto.
    + intros items. apply filter_all. intros x _. apply not_elem_of_nil.
    + intros b1 b2 items. rewrite list_filter_filter.
      apply list_filter_iff. intros x. rewrite not_elem_of_app. tauto.
    + unfold len. lia.
    + eauto.
Qed.

Lemma addTracksInBatches_mem (trackIDs : list ID) (w : Remote.t) p :
  Remote.playlists w !! playlistID = Some p →
  ∃ tr,
    addTracksInBatches memClient playlistID trackIDs w
    = (Ok tt,
       setPlaylist w playlistID
         (withItems p (MemPlaylist.Items p ++ trackIDs)), tr).
Proof.
  intros Hp. unfold addTracksInBatches, inBatches.
  destruct (batchLoop_mem (sendAdd memClient playlistID)
              (λ batch items, items ++ batch) trackIDs)
    with (gas := length trackIDs) (i := 0) (w := w) (p := p)
    as (tr & ->); try done.
  - intros batch w0 p0 Hp0. unfold sendAdd.
    rewrite bind_wrapErr_call. cbn [AddTracksToPlaylist memClient].
    rewrite Hp0. unfold ret. eauto.
  - intros items. by rewrite app_nil_r.
  - intros b1 b2 items. by rewrite app_assoc.
  - unfold len. lia.
  - eauto.
Qed.

Lemma applyImage_mem (gen : string → Reply Image) (name : string)
    (w : Remote.t) p :
  Remote.playlists w !! playlistID = Some p →
  ∃ tr,
    applyImage memClient (pureGen gen) name playlistID w
    = (Ok tt,
       setPlaylist w playlistID
         (MemPlaylist.mk (MemPlaylist.Name p) (MemPlaylist.Owner p)
            (MemPlaylist.Description p) (MemPlaylist.Public p)
            (MemPlaylist.Collaborative p) (MemPlaylist.Items p)
            (coverAfter gen name (MemPlaylist.Cover p))), tr).
Proof.
  intros Hp. unfold applyImage, bind, attempt, call, coverAfter.
  cbn [GenerateForPlaylist pureGen SetPlaylistImage memClient].
  destruct (gen name) as [img|e].
  - rewrite Hp. unfold ret. eauto.
  - unfold ret. eexists. f_equal. f_equal.
    rewrite <- (setPlaylist_same w playlistID p Hp) at 1. by destruct p.
Qed.

Lemma blanks_left (items : list ID) :
  filter (λ id, id ∉ filter (λ id, id ≠ "") items) items = blanks items.
Proof.
  unfold blanks. apply filter_agree. intros x Hx.
  rewrite list_elem_of_filter. split.
  - intros Hn. destruct (decide (x = "")) as [?|Hne]; [done|].
    destruct Hn. by split.
  - intros -> [Hne _]. by destruct Hne.
Qed.
End MemoryWrites.

(** ** One year against the in-memory remote *)

Section MemoryYear.
Variable gen : string → Reply Image.

Lemma listing_entry (w : Remote.t) (pl : SimplePlaylist.t) :
  pl ∈ listing w →
  ∃ p, Remote.playlists w !! SimplePlaylist.ID pl = Some p
       ∧ SimplePlaylist.Name pl = MemPlaylist.Name p
       ∧ User.ID (SimplePlaylist.Owner pl) = MemPlaylist.Owner p.
Proof.
  unfold listing. rewrite list_elem_of_omap.
  intros (id & _ & Hentry). unfold shelfEntry in Hentry.
  destruct (Remote.playlists w !! id) as [p|] eqn:Hp; [|done].
  injection Hentry as <-. by exists p.
Qed.

Lemma scan_found userID name (l : list SimplePlaylist.t) pl :
  scanPlaylists userID name l = Some pl →
  pl ∈ l ∧ isTarget userID name pl.
Proof.
  intros Hscan. pose proof (scan_firstTarget userID name l) as Hfirst.
  rewrite Hscan in Hfirst. destruct Hfirst as (before & after & -> & Ht & _).
  split; [|done]. apply elem_of_app. right. by left.
Qed.

Lemma processYear_mem fuel tracksByYear year (w : Remote.t) :
  (length (Remote.shelf w) < fuel)%nat →
  (∀ id p, Remote.playlists w !! id = Some p →
           (length (MemPlaylist.Items p) < fuel)%nat) →
  ∃ tr,
    processYear memClient (pureGen gen) fuel (Remote.me w) tracksByYear
      year w
    = (Ok tt, settleYear gen year (default [] (tracksByYear !! year)) w, tr).
Proof.
  intros Hshelf Hitems. unfold processYear, settleYear.
  destruct (findExistingPlaylist_mem fuel (playlistNameOf year) w Hshelf)
    as (t1 & Hfind).
  rewrite (bind_ok _ _ _ _ _ _ Hfind). cbv beta.
  destruct (scanPlaylists _ _ (listing w)) as [pl|] eqn:Hscan.
  - destruct (scan_found _ _ _ _ Hscan) as [Hin _].
    destruct (listing_entry w pl Hin) as (p & Hp & _).
    rewrite Hp. set (pid := SimplePlaylist.ID pl) in *.
    destruct (fetchAllPlaylistTracks_mem fuel w pid p Hp (Hitems _ _ Hp))
      as (t2 & Hfetch).
    destruct (removeTracksInBatches_mem pid
                (filter (λ id, id ≠ "") (MemPlaylist.Items p)) w p Hp)
      as (t3 & Hremove).
    rewrite blanks_left in Hremove.
    set (p1 := MemPlaylist.withItems p (blanks (MemPlaylist.Items p))) in *.
    destruct (applyImage_mem pid gen (playlistNameOf year)
                (setPlaylist w pid p1) p1 (setPlaylist_lookup w pid p1))
      as (t4 & Himage).
    rewrite setPlaylist_twice in Himage.
    set (p2 := MemPlaylist.mk _ _ _ _ _ _ _) in Himage.
    destruct (addTracksInBatches_mem pid (default [] (tracksByYear !! year))
                (setPlaylist w pid p2) p2 (setPlaylist_lookup w pid p2))
      as (t5 & Hadd).
    rewrite setPlaylist_twice in Hadd.
    assert (clearExisting memClient fuel (playlistNameOf year) pl w
            = (Ok pid, setPlaylist w pid p1, t2 ++ t3 ++ [])) as Hclear.
    { unfold clearExisting. fold pid.
      rewrite (bind_ok _ _ _ _ _ _ (wrapErr_ok _ _ _ _ _ _ Hfetch)).
      cbv beta.
      rewrite (bind_ok _ _ _ _ _ _ (wrapErr_ok _ _ _ _ _ _ Hremove)).
      reflexivity. }
    rewrite (bind_ok _ _ _ _ _ _ Hclear). cbv beta.
    rewrite (bind_ok _ _ _ _ _ _ Himage). cbv beta.
    rewrite Hadd. eauto.
  - set (name := playlistNameOf year).
    set (p0 := MemPlaylist.mk name (PrivateUser.ID (Remote.me w))
                 ("All songs I liked that were added in " +:+ itoa year
                  +:+ ".") false false [] None).
    set (w1 := Remote.mk (Remote.me w) (Remote.library w)
                 (newID w :: Remote.shelf w)
                 (<[newID w := p0]> (Remote.playlists w))).
    assert (∃ t2, createNew memClient (PrivateUser.ID (Remote.me w)) name
                    year w = (Ok (newID w), w1, t2)) as (t2 & Hcreate).
    { unfold createNew. rewrite bind_wrapErr_call.
      cbn [CreatePlaylistForUser memClient FullPlaylist.ID]. unfold ret.
      eauto. }
    assert (∀ p, setPlaylist w1 (newID w) p
                 = Remote.mk (Remote.me w) (Remote.library w)
                     (newID w :: Remote.shelf w)
                     (<[newID w := p]> (Remote.playlists w))) as Hset.
    { intros p. unfold setPlaylist, w1. cbn. by rewrite insert_insert_eq. }
    destruct (applyImage_mem (newID w) gen name w1 p0
                ltac:(apply lookup_insert_eq)) as (t3 & Himage).
    set (p2 := MemPlaylist.mk _ _ _ _ _ _ _) in Himage.
    destruct (addTracksInBatches_mem (newID w)
                (default [] (tracksByYear !! year))
                (setPlaylist w1 (newID w) p2) p2
                (setPlaylist_lookup w1 (newID w) p2)) as (t4 & Hadd).
    rewrite (bind_ok _ _ _ _ _ _ Hcreate). cbv beta.
    rewrite (bind_ok _ _ _ _ _ _ Himage). cbv beta.
    rewrite Hadd. rewrite setPlaylist_twice, Hset. eauto.
Qed.
End MemoryYear.

(** ** The effect of one year, as a function on remote states *)

Lemma append_paren_inj (s1 s2 : string) :
  s1 +:+ ")" = s2 +:+ ")" → s1 = s2.
Proof.
  revert s2. induction s1 as [|a s1 IH]; intros [|b s2] Heq; simpl in *.
  - done.
  - injection Heq as _ Heq. by destruct s2.
  - injection Heq as _ Heq. by destruct s1.
  - injection Heq as -> Heq. f_equal. by apply IH.
Qed.

Lemma itoa_inj (n m : Z) : itoa n = itoa m → n = m.
Proof.
  unfold itoa. intros Heq. apply DecimalZ.to_int_inj.
  assert (∀ z, Z.to_int z ≠ Decimal.Pos Decimal.Nil
               ∧ Z.to_int z ≠ Decimal.Neg Decimal.Nil) as Hnn.
  { intros [|p|p]; simpl; split; try done;
      intros [= Hp]; by apply (Unsigned.to_uint_nonnil p). }
  apply (f_equal NilZero.int_of_string) in Heq.
  rewrite !NilZero.isi in Heq by apply Hnn. congruence.
Qed.


Section SettleYear.
Variable gen : string → Reply Image.



Lemma newID_fresh (w : Remote.t) :
  (newID w ∉ Remote.shelf w) ∧ Remote.playlists w !! (newID w) = None.
Proof.
  pose proof (infinite_is_fresh
                (Remote.shelf w ++ (map_to_list (Remote.playlists w)).*1))
    as Hfresh.
  fold (newID w) in Hfresh. rewrite not_elem_of_app in Hfresh.
  destruct Hfresh as [Hshelf Hkeys]. split; [done|].
  destruct (Remote.playlists w !! (newID w)) as [p|] eqn:Hp; [|done].
  destruct Hkeys. apply list_elem_of_fmap. exists (newID w, p).
  split; [done|]. by apply elem_of_map_to_list.
Qed.


Lemma blanks_app (l1 l2 : list ID) : blanks (l1 ++ l2) = blanks l1 ++ blanks l2.
Proof. apply filter_app. Qed.

Lemma blanks_blanks (l : list ID) : blanks (blanks l) = blanks l.
Proof.
  unfold blanks. rewrite list_filter_filter. apply list_filter_iff.
  intros x. tauto.
Qed.

Lemma blanks_none (l : list ID) : Forall (λ id, id ≠ "") l → blanks l = [].
Proof.
  induction 1 as [|id l Hid _ IH]; [done|].
  unfold blanks in *. rewrite filter_cons.
  by destruct (decide (id = "")).
Qed.

Lemma blanks_length (l : list ID) : (length (blanks l) ≤ length l)%nat.
Proof. apply length_filter. Qed.

Variable year : Z.
Variable bucket : list ID.
Hypothesis bucket_valid : Forall (λ id, id ≠ "") bucket.

Local Abbreviation settle := (settleYear gen year bucket).

(** The two ways [settleYear] goes. *)
Lemma settle_cases (w : Remote.t) :
  (∃ pl p,
     scanPlaylists (PrivateUser.ID (Remote.me w)) (playlistNameOf year)
       (listing w) = Some pl
     ∧ Remote.playlists w !! SimplePlaylist.ID pl = Some p
     ∧ MemPlaylist.Name p = playlistNameOf year
     ∧ settle w
       = setPlaylist w (SimplePlaylist.ID pl)
           (MemPlaylist.mk (MemPlaylist.Name p) (MemPlaylist.Owner p)
              (MemPlaylist.Description p) (MemPlaylist.Public p)
              (MemPlaylist.Collaborative p)
              (blanks (MemPlaylist.Items p) ++ bucket)
              (coverAfter gen (playlistNameOf year) (MemPlaylist.Cover p))))
  ∨ (scanPlaylists (PrivateUser.ID (Remote.me w)) (playlistNameOf year)
       (listing w) = None
     ∧ settle w
       = Remote.mk (Remote.me w) (Remote.library w)
           (newID w :: Remote.shelf w)
           (<[newID w :=
                MemPlaylist.mk (playlistNameOf year)
                  (PrivateUser.ID (Remote.me w))
                  ("All songs I liked that were added in " +:+ itoa year
                   +:+ ".")
                  false false bucket
                  (coverAfter gen (playlistNameOf year) None)]>
              (Remote.playlists w))).
Proof.
  unfold settleYear.
  destruct (scanPlaylists _ _ (listing w)) as [pl|] eqn:Hscan; [|by right].
  left. destruct (scan_found _ _ _ _ Hscan) as [Hin [Hname _]].
  destruct (listing_entry w pl Hin) as (p & Hp & Hn & _).
  exists pl, p. rewrite Hp. split_and!; try done. congruence.
Qed.

Lemma settle_me (w : Remote.t) : Remote.me (settle w) = Remote.me w.
Proof.
  destruct (settle_cases w) as [(pl & p & _ & _ & _ & ->)|[_ ->]]; done.
Qed.

Lemma settle_library (w : Remote.t) :
  Remote.library (settle w) = Remote.library w.
Proof.
  destruct (settle_cases w) as [(pl & p & _ & _ & _ & ->)|[_ ->]]; done.
Qed.

Lemma settle_shelf (w : Remote.t) :
  (length (Remote.shelf (settle w)) ≤ S (length (Remote.shelf w)))%nat.
Proof.
  destruct (settle_cases w) as [(pl & p & _ & _ & _ & ->)|[_ ->]];
    simpl; lia.
Qed.

Lemma settle_itemsFit fuel saved (w : Remote.t) :
  (length bucket ≤ saved)%nat → (saved < fuel)%nat →
  itemsFit fuel saved w → itemsFit fuel saved (settle w).
Proof.
  intros Hb Hs Hfit id q.
  destruct (settle_cases w) as [(pl & p & _ & Hp & _ & ->)|[_ ->]];
    cbn [setPlaylist Remote.playlists].
  - destruct (decide (SimplePlaylist.ID pl = id)) as [->|Hne].
    + rewrite lookup_insert_eq. intros [= <-]. cbn [MemPlaylist.Items].
      destruct (Hfit _ _ Hp) as [_ Hblank].
      rewrite blanks_app, blanks_blanks, (blanks_none bucket bucket_valid).
      rewrite app_nil_r, length_app. lia.
    + rewrite lookup_insert_ne by done. apply Hfit.
  - destruct (decide (newID w = id)) as [->|Hne].
    + rewrite lookup_insert_eq. intros [= <-]. cbn [MemPlaylist.Items].
      rewrite (blanks_none bucket bucket_valid). simpl. lia.
    + rewrite lookup_insert_ne by done. apply Hfit.
Qed.



End SettleYear.

(** ** A whole run against the in-memory remote *)

Section MemoryRun.
Variable parseYear : string → option Z.

Lemma group_size (tracks : list SavedTrack.t) :
  (size (groupTracksByYear parseYear tracks) ≤ length tracks)%nat.
Proof.
  induction tracks as [|item tracks IH] using rev_ind.
  - unfold groupTracksByYear. simpl. by rewrite map_size_empty.
  - rewrite group_snoc, length_app. simpl. unfold groupStep.
    destruct (parseYear _) as [y|]; [|lia].
    rewrite map_size_insert.
    destruct (groupTracksByYear parseYear tracks !! y); simpl; lia.
Qed.

Lemma sortedYears_length (tracks : list SavedTrack.t) :
  (length (sortedYears (groupTracksByYear parseYear tracks))
   ≤ length tracks)%nat.
Proof.
  unfold sortedYears.
  rewrite merge_sort_Permutation, length_fmap, length_map_to_list.
  apply group_size.
Qed.

Lemma bucket_valid (tracks : list SavedTrack.t) (year : Z) :
  Forall (λ item, SavedTrack.ID item ≠ "") tracks →
  Forall (λ id, id ≠ "")
    (default [] (groupTracksByYear parseYear tracks !! year))
  ∧ (length (default [] (groupTracksByYear parseYear tracks !! year))
     ≤ length tracks)%nat.
Proof.
  intros Hvalid. rewrite group_bucket, length_fmap. split.
  - apply Forall_fmap. apply Forall_forall. intros item Hin.
    apply list_elem_of_filter in Hin as [_ Hin].
    rewrite Forall_forall in Hvalid. by apply Hvalid.
  - apply length_filter.
Qed.

Variable gen : string → Reply Image.
Variable tracksByYear : gmap Z (list ID).
Variable saved : nat.
Hypothesis buckets_valid : ∀ year,
  Forall (λ id, id ≠ "") (default [] (tracksByYear !! year))
  ∧ (length (default [] (tracksByYear !! year)) ≤ saved)%nat.

Local Abbreviation bucketOf := (λ year, default [] (tracksByYear !! year)).
Local Abbreviation settleAll := (settleYears gen tracksByYear).

Lemma settleYears_cons year years (w : Remote.t) :
  settleAll (year :: years) w
  = settleAll years (settleYear gen year (bucketOf year) w).
Proof. done. Qed.

Lemma settleYears_me years (w : Remote.t) :
  Remote.me (settleAll years w) = Remote.me w.
Proof.
  revert w. induction years as [|year years IH]; intros w; [done|].
  by rewrite settleYears_cons, IH, settle_me.
Qed.






Lemma forYears_mem fuel years :
  ∀ w : Remote.t,
    (saved < fuel)%nat →
    (length (Remote.shelf w) + length years < fuel)%nat →
    itemsFit fuel saved w →
    ∃ tr,
      forYears memClient (pureGen gen) fuel (Remote.me w) tracksByYear
        years w
      = (Ok tt, settleAll years w, tr).
Proof.
  induction years as [|year years IH]; intros w Hs Hshelf Hfit.
  - simpl. unfold ret. eauto.
  - cbn [forYears].
    destruct (processYear_mem gen fuel tracksByYear year w)
      as (t1 & Hyear).
    { simpl in Hshelf. lia. }
    { intros id p Hp. by destruct (Hfit id p Hp). }
    rewrite (bind_ok _ _ _ _ _ _ Hyear). cbv beta.
    pose proof (settle_shelf gen year (bucketOf year) w) as Hgrow.
    destruct (buckets_valid year) as [Hv Hl].
    destruct (IH (settleYear gen year (bucketOf year) w) Hs)
      as (t2 & Hrest).
    { simpl in Hshelf. lia. }
    { by apply settle_itemsFit. }
    rewrite settle_me in Hrest. rewrite Hrest. eauto.
Qed.
End MemoryRun.

Lemma Run_mem (parseYear : string → option Z) (gen : string → Reply Image)
    (fuel : nat) (w : Remote.t) :
  Forall (λ item, SavedTrack.ID item ≠ "") (Remote.library w) →
  (length (Remote.shelf w) + length (Remote.library w) < fuel)%nat →
  itemsFit fuel (length (Remote.library w)) w →
  ∃ tr,
    Run memClient (pureGen gen) parseYear fuel w
    = (Ok tt,
       if decide (Remote.library w = []) then w
       else settleYears gen (groupTracksByYear parseYear (Remote.library w))
              (sortedYears (groupTracksByYear parseYear (Remote.library w))) w,
       tr).
Proof.
  intros Hvalid Hshelf Hitems. unfold Run.
  destruct (fetchAllLikedTracks_mem fuel w ltac:(lia)) as (t1 & Hfetch).
  rewrite (bind_ok _ _ _ _ _ _ (wrapErr_ok _ _ _ _ _ _ Hfetch)). cbv beta.
  destruct (decide (len (Remote.library w) = 0)) as [Hempty|Hsome].
  - destruct (decide (Remote.library w = [])) as [_|Hne].
    + unfold ret. eauto.
    + destruct Hne. destruct (Remote.library w); [done|discriminate].
  - destruct (decide (Remote.library w = [])) as [Hnil|_].
    { rewrite Hnil in Hsome. done. }
    rewrite bind_wrapErr_call. cbn [CurrentUser memClient]. cbv beta zeta.
    pose proof (sortedYears_length parseYear (Remote.library w)) as Hyears.
    destruct (forYears_mem gen (groupTracksByYear parseYear (Remote.library w))
                (length (Remote.library w))
                (λ year, bucket_valid parseYear (Remote.library w) year Hvalid)
                fuel
                (sortedYears (groupTracksByYear parseYear (Remote.library w)))
                w)
      as (t2 & ->); [lia|lia|done|eauto].
Qed.

Lemma enoughFuel_itemsFit (fuel : nat) (w : Remote.t) :
  enoughFuel fuel w → itemsFit fuel (length (Remote.library w)) w.
Proof.
  intros [_ Hitems] id p Hp. specialize (Hitems id p Hp).
  pose proof (blanks_length (MemPlaylist.Items p)). lia.
Qed.

(** ** Idempotence of the reconciler *)




(** * Further properties *)

(** ** The order in which the years are processed *)

Lemma StronglySorted_strict (l : list Z) :
  StronglySorted Z.le l → NoDup l → StronglySorted Z.lt l.
Proof.
  induction 1 as [|a l Hs IH Hall]; intros Hnd; [constructor|].
  apply NoDup_cons in Hnd as [Ha Hnd]. constructor; [by apply IH|].
  rewrite Forall_forall in *. intros x Hx.
  specialize (Hall x Hx). assert (x ≠ a) by (by intros ->). lia.
Qed.

(** X1.  The years [Run] iterates over, [sort.Ints] applied to the keys
    of the year map, are strictly ascending, hence without repetition,
    and are exactly the years of the tracks whose added timestamp can be
    read: every such year is processed once, and no other. *)
Theorem sortedYears_ascending_exact (parseYear : string → option Z)
    (tracks : list SavedTrack.t) :
  let years := sortedYears (groupTracksByYear parseYear tracks) in
  StronglySorted Z.lt years
  ∧ NoDup years
  ∧ ∀ year, year ∈ years
            ↔ ∃ item, item ∈ tracks
                      ∧ parseYear (SavedTrack.AddedAt item) = Some year.
Proof.
  intros years.
  assert (NoDup years) as Hnd.
  { unfold years, sortedYears. rewrite merge_sort_Permutation.
    apply NoDup_fst_map_to_list. }
  split_and!; [|done|].
  - apply StronglySorted_strict; [|done].
    apply StronglySorted_merge_sort; apply _.
  - intros year. unfold years, sortedYears. rewrite merge_sort_Permutation.
    rewrite list_elem_of_fmap. split.
    + intros ([y ids] & -> & Hin). apply elem_of_map_to_list in Hin.
      simpl in *.
      pose proof (group_bucket_nonempty parseYear tracks y ids Hin) as Hne.
      destruct ids as [|id ids]; [done|].
      destruct (group_bucket_elem parseYear tracks y (id :: ids) id Hin)
        as (item & Hitem & _ & Hy); [by left|].
      by exists item.
    + intros (item & Hin & Hy).
      pose proof (group_bucket parseYear tracks year) as Hb.
      destruct (groupTracksByYear parseYear tracks !! year) as [ids|] eqn:Hg.
      * exists (year, ids). split; [done|]. by apply elem_of_map_to_list.
      * exfalso. simpl in Hb.
        assert (SavedTrack.ID item
                ∈ SavedTrack.ID <$> filter (ofYear parseYear year) tracks)
          as Habs.
        { apply list_elem_of_fmap_2, list_elem_of_filter. by split. }
        rewrite <- Hb in Habs. by apply elem_of_nil in Habs.
Qed.

(** X2.  The playlist name [fmt.Sprintf("Liked Songs (%d)", year)]
    identifies the year: two years have the same playlist name only when
    they are the same year, so no two year buckets ever share a
    playlist. *)
Theorem playlist_name_identifies_year (year1 year2 : Z) :
  playlistNameOf year1 = playlistNameOf year2 ↔ year1 = year2.
Proof.
  split; [|by intros ->]. unfold playlistNameOf. intros Heq.
  apply String.app_inj in Heq. apply append_paren_inj in Heq.
  revert Heq. apply itoa_inj.
Qed.

(** ** Marking, page by page *)

(** X3.  Marking is local to each track entry: the identifiers marked
    on two pages taken together are those marked on the first followed by
    those marked on the second, every marked identifier is the identifier
    of an entry of the page, at most one identifier is marked per entry,
    and with an empty blocklist nothing is marked. *)
Theorem findTracksToRemove_pagewise (artists : gset string)
    (page1 page2 : list SavedTrack.t) :
  findTracksToRemove artists (page1 ++ page2)
  = findTracksToRemove artists page1 ++ findTracksToRemove artists page2
  ∧ findTracksToRemove artists page1 ⊆ SavedTrack.ID <$> page1
  ∧ (length (findTracksToRemove artists page1) ≤ length page1)%nat
  ∧ findTracksToRemove ∅ page1 = [].
Proof.
  unfold findTracksToRemove. rewrite !markStep_foldl. simpl.
  split_and!.
  - by rewrite filter_app, fmap_app.
  - intros id Hin. apply list_elem_of_fmap in Hin as (item & -> & Hin).
    apply list_elem_of_filter in Hin as [_ Hin].
    by apply list_elem_of_fmap_2.
  - rewrite length_fmap. apply length_filter.
  - induction page1 as [|item page1 IH]; [done|].
    rewrite filter_cons. destruct (decide (listed ∅ item)) as [Hl|_]; [|done].
    unfold listed in Hl. apply Exists_exists in Hl as (a & _ & Ha).
    by apply elem_of_empty in Ha.
Qed.

(** ** The errors of the reconciler *)

Section Blame.
Context {W : Type}.

Lemma blames_ret {A} F (a : A) : Blames (W:=W) F (ret a).
Proof. intros w. exact I. Qed.

Lemma blames_starve {A} F : Blames (W:=W) (A:=A) F starve.
Proof. intros w. exact I. Qed.

Lemma blames_call {A} (F : Event → error → Prop) (op : W → Reply A * W) ev :
  (∀ cause, F (ev (Raise cause)) cause) → Blames F (call op ev).
Proof.
  intros Hev w. unfold call. destruct (op w) as [[a|e] w1]; [exact I|].
  by exists [], (ev (Raise e)).
Qed.

Lemma blames_wrapErr {A} (F G : Event → error → Prop) msg (m : M W A) :
  Blames G m → (∀ ev e, G ev e → F ev (Errorf msg e)) →
  Blames F (wrapErr msg m).
Proof.
  intros Hm HGF w. specialize (Hm w). unfold wrapErr.
  destruct (m w) as [[[a|e|] w1] t1]; try exact I.
  destruct Hm as (pre & ev & -> & HG). exists pre, ev. eauto.
Qed.

Lemma blames_bind {A B} F (m : M W A) (k : A → M W B) :
  Blames F m → (∀ a, Blames F (k a)) → Blames F (bind m k).
Proof.
  intros Hm Hk w. specialize (Hm w). unfold bind.
  destruct (m w) as [[[a|e|] w1] t1]; try done.
  specialize (Hk a w1). destruct (k a w1) as [[[b|e|] w2] t2]; try done.
  destruct Hk as (pre & ev & -> & HF). exists (t1 ++ pre), ev.
  by rewrite app_assoc.
Qed.

Lemma blames_attempt {A} F (m : M W A) : Blames F (attempt m).
Proof.
  intros w. unfold attempt. by destruct (m w) as [[[a|e|] w1] t1].
Qed.

Variable client : SpotifyClient W.
Variable imgGen : ImageGenerator W.
Variable parseYear : string → option Z.

Lemma fetchLikedLoop_blames fuel allTracks offset :
  Blames (λ ev e, ∃ limit off, ev = ECurrentUsersTracks limit off (Raise e))
    (fetchLikedLoop client fuel allTracks offset).
Proof.
  revert allTracks offset. induction fuel as [|fuel IH];
    intros allTracks offset; simpl; [apply blames_starve|].
  apply blames_bind; [apply blames_call; eauto|]. intros page.
  destruct (decide _); [apply blames_ret | apply IH].
Qed.

Lemma findLoop_blames fuel userID name offset :
  Blames stageError (findLoop client fuel userID name offset).
Proof.
  revert offset. induction fuel as [|fuel IH]; intros offset; simpl;
    [apply blames_starve|].
  apply blames_bind.
  - apply (blames_wrapErr _
             (λ ev e, ∃ off, ev = EGetPlaylistsForUser userID 50 off (Raise e))).
    + apply blames_call. eauto.
    + by intros ev e (off & ->).
  - intros page. destruct (scanPlaylists _ _ _); [apply blames_ret|].
    destruct (decide _); [apply blames_ret | apply IH].
Qed.

Lemma fetchPlaylistLoop_blames fuel playlistID allTrackIDs offset :
  Blames (λ ev e, ∃ p limit off, ev = EGetPlaylistTracks p limit off (Raise e))
    (fetchPlaylistLoop client fuel playlistID allTrackIDs offset).
Proof.
  revert allTrackIDs offset. induction fuel as [|fuel IH];
    intros allTrackIDs offset; simpl; [apply blames_starve|].
  apply blames_bind; [apply blames_call; eauto|]. intros page.
  destruct (decide _); [apply blames_ret | apply IH].
Qed.

Lemma batchLoop_blames F gas batchSize send (trackIDs : list ID) i :
  (∀ batch, Blames (W:=W) F (send batch)) →
  Blames F (batchLoop gas batchSize send trackIDs i).
Proof.
  intros Hsend. revert i. induction gas as [|gas IH]; intros i; simpl.
  - destruct (decide _); [apply blames_starve | apply blames_ret].
  - destruct (decide _); [|apply blames_ret].
    apply blames_bind; [apply Hsend | intros _; apply IH].
Qed.

Lemma removeTracksInBatches_blames playlistID trackIDs :
  Blames (λ ev e, ∃ p ids cause,
            ev = ERemoveTracksFromPlaylist p ids (Raise cause)
            ∧ e = Errorf "failed to remove tracks from playlist" cause)
    (removeTracksInBatches client playlistID trackIDs).
Proof.
  unfold removeTracksInBatches. destruct (decide _); [apply blames_ret|].
  apply batchLoop_blames. intros batch. unfold sendRemove.
  apply blames_bind; [|intros; apply blames_ret].
  apply (blames_wrapErr _
           (λ ev e, ev = ERemoveTracksFromPlaylist playlistID batch (Raise e))).
  - by apply blames_call.
  - intros ev e ->. eauto.
Qed.

Lemma addTracksInBatches_blames playlistID trackIDs :
  Blames stageError (addTracksInBatches client playlistID trackIDs).
Proof.
  apply batchLoop_blames. intros batch. unfold sendAdd.
  apply blames_bind; [|intros; apply blames_ret].
  apply (blames_wrapErr _
           (λ ev e, ev = EAddTracksToPlaylist playlistID batch (Raise e))).
  - by apply blames_call.
  - by intros ev e ->.
Qed.

Lemma processYear_blames fuel user tracksByYear year :
  Blames stageError (processYear client imgGen fuel user tracksByYear year).
Proof.
  unfold processYear. apply blames_bind; [apply findLoop_blames|].
  intros existing. apply blames_bind.
  - destruct existing as [pl|].
    + unfold clearExisting. apply blames_bind.
      * eapply blames_wrapErr; [apply fetchPlaylistLoop_blames|].
        intros ev e (p & limit & off & ->). by exists year.
      * intros ids. apply blames_bind; [|intros; apply blames_ret].
        eapply blames_wrapErr; [apply removeTracksInBatches_blames|].
        intros ev e (p & l & cause & -> & ->). by exists year.
    + unfold createNew. apply blames_bind; [|intros; apply blames_ret].
      eapply (blames_wrapErr _
                (λ ev e, ∃ uid desc,
                   ev = ECreatePlaylistForUser uid (playlistNameOf year)
                          desc false false (Raise e))).
      * apply blames_call. eauto.
      * intros ev e (uid & desc & ->). by exists year.
  - intros playlistID. apply blames_bind.
    + unfold applyImage. apply blames_bind; [apply blames_attempt|].
      intros [img|e]; [|apply blames_ret].
      apply blames_bind; [apply blames_attempt | intros; apply blames_ret].
    + intros _. apply addTracksInBatches_blames.
Qed.

Lemma forYears_blames fuel user tracksByYear years :
  Blames stageError (forYears client imgGen fuel user tracksByYear years).
Proof.
  induction years as [|year years IH]; simpl; [apply blames_ret|].
  apply blames_bind; [apply processYear_blames | intros _; apply IH].
Qed.

Lemma Run_blames fuel : Blames stageError (Run client imgGen parseYear fuel).
Proof.
  unfold Run. apply blames_bind.
  - eapply blames_wrapErr; [apply fetchLikedLoop_blames|].
    by intros ev e (limit & off & ->).
  - intros allTracks. destruct (decide _); [apply blames_ret|].
    apply blames_bind; [|intros user; apply forYears_blames].
    apply (blames_wrapErr _ (λ ev e, ev = ECurrentUser (Raise e))).
    + by apply blames_call.
    + by intros ev e ->.
Qed.
End Blame.

(** X4.  Whenever [playlistSorter.Run] returns an error, that error is
    the error of the last call it made, wrapped in the message of the
    stage that call belongs to: "failed to fetch liked tracks", "failed
    to get current user", "failed to get user playlists", "could not
    fetch tracks from existing playlist '<name>'", "could not clear
    existing playlist '<name>'" around "failed to remove tracks from
    playlist", "failed to create playlist for year <year>", or "failed to
    add tracks to playlist"; the name and the year are those of one of
    the year playlists.  No other error value is ever returned. *)
Theorem Run_error_names_stage {W} (client : SpotifyClient W)
    (imgGen : ImageGenerator W) (parseYear : string → option Z)
    (fuel : nat) (w w' : W) (e : error) (tr : list Event) :
  Run client imgGen parseYear fuel w = (Err e, w', tr) →
  ∃ pre ev, tr = pre ++ [ev] ∧ stageError ev e.
Proof.
  intros Hrun. pose proof (Run_blames client imgGen parseYear fuel w) as Hb.
  by rewrite Hrun in Hb.
Qed.

Lemma Run_error_names_stage_witness :
  ∃ w' pre ev,
    Run shelfRefused (pureGen noImage) rfc3339Year 5 smallRemote
    = (Err (Errorf "failed to get user playlists" (Failure "429: rate limited")),
       w', pre ++ [ev])
    ∧ stageError ev
        (Errorf "failed to get user playlists" (Failure "429: rate limited")).
Proof.
  destruct (Run shelfRefused (pureGen noImage) rfc3339Year 5 smallRemote)
    as [[o w'] tr] eqn:Hrun.
  assert (o = Err (Errorf "failed to get user playlists"
                     (Failure "429: rate limited"))) as ->.
  { vm_compute in Hrun. by injection Hrun as <- _ _. }
  destruct (Run_error_names_stage _ _ _ _ _ _ _ _ Hrun)
    as (pre & ev & -> & Hstage).
  by exists w', pre, ev.
Defined.

(** ** The calls of the reconciler *)

Section YearCalls.
Context {W : Type}.
Variable client : SpotifyClient W.
Variable imgGen : ImageGenerator W.
Variable parseYear : string → option Z.

Lemma emits_bind_ok {A B} P (m : M W A) (k : A → M W B) :
  Emits P m →
  (∀ w a w1 t1, m w = (Ok a, w1, t1) → Forall P (k a w1).2) →
  Emits P (bind m k).
Proof.
  intros Hm Hk w. unfold bind. specialize (Hm w).
  destruct (m w) as [[[a|e|] w1] t1] eqn:Hmw; simpl in *; try done.
  specialize (Hk w a w1 t1 Hmw). destruct (k a w1) as [[o w2] t2].
  by apply Forall_app.
Qed.

Lemma wrapErr_ok_inv {A} msg (m : M W A) (w w1 : W) a t1 :
  wrapErr msg m w = (Ok a, w1, t1) → m w = (Ok a, w1, t1).
Proof. unfold wrapErr. by destruct (m w) as [[[b|e|] w2] t2]. Qed.

Lemma validIDs_valid (items : list PlaylistTrack.t) :
  Forall (λ id, id ≠ "") (validIDs items).
Proof.
  apply Forall_forall. intros id Hin. unfold validIDs in Hin.
  by apply list_elem_of_filter in Hin as [Hne _].
Qed.

Lemma fetchAllPlaylistTracks_valid fuel playlistID (w w' : W) ids tr :
  fetchAllPlaylistTracks client fuel playlistID w = (Ok ids, w', tr) →
  Forall (λ id, id ≠ "") ids.
Proof.
  intros Hrun.
  destruct (fetchPlaylistLoop_ok client fuel playlistID [] 0 w ids w' tr Hrun)
    as (pages & last & _ & _ & _ & ->).
  simpl. apply Forall_concat, Forall_fmap, Forall_forall.
  intros page _. apply validIDs_valid.
Qed.

(** The batching loop only sends batches of one to [batchSize]
    identifiers taken from its input. *)
Lemma batchLoop_emits_sized P (batchSize : Z) send (trackIDs : list ID) :
  1 ≤ batchSize →
  (∀ batch, 1 ≤ len batch ≤ batchSize → batch ⊆ trackIDs →
            Emits (W:=W) P (send batch)) →
  ∀ gas i, 0 ≤ i → Emits P (batchLoop gas batchSize send trackIDs i).
Proof.
  intros Hsize Hsend. induction gas as [|gas IH]; intros i Hi; simpl.
  - destruct (decide _); [apply emits_starve | apply emits_ret].
  - destruct (decide (i < len trackIDs)) as [Hlt|_]; [|apply emits_ret].
    destruct (slice_step batchSize Hsize trackIDs i (conj Hi Hlt))
      as [Hsplit Hlen].
    apply emits_bind; [|intros _; apply IH; lia].
    apply Hsend; [lia|].
    intros x Hx. apply (subseteq_drop (Z.to_nat i)). rewrite <- Hsplit.
    apply elem_of_app. by left.
Qed.

Variable userID : string.
Local Abbreviation ours := (yearCall userID).

Lemma findLoop_ours fuel name offset :
  Emits ours (findLoop client fuel userID name offset).
Proof.
  revert offset. induction fuel as [|fuel IH]; intros offset; simpl;
    [apply emits_starve|].
  apply emits_bind; [by apply emits_wrapErr, emits_call|]. intros page.
  destruct (scanPlaylists _ _ _); [apply emits_ret|].
  destruct (decide _); [apply emits_ret | apply IH].
Qed.

Lemma fetchPlaylistLoop_ours fuel playlistID allTrackIDs offset :
  Emits ours (fetchPlaylistLoop client fuel playlistID allTrackIDs offset).
Proof.
  revert allTrackIDs offset. induction fuel as [|fuel IH];
    intros allTrackIDs offset; simpl; [apply emits_starve|].
  apply emits_bind; [by apply emits_call|]. intros page.
  destruct (decide _); [apply emits_ret | apply IH].
Qed.

Lemma removeTracksInBatches_ours playlistID trackIDs :
  Forall (λ id, id ≠ "") trackIDs →
  Emits ours (removeTracksInBatches client playlistID trackIDs).
Proof.
  intros Hvalid. unfold removeTracksInBatches.
  destruct (decide _); [apply emits_ret|].
  apply batchLoop_emits_sized; [lia| |lia].
  intros batch Hlen Hsub. unfold sendRemove.
  apply emits_bind; [|intros; apply emits_ret].
  apply emits_wrapErr, emits_call. intros r. split; [done|].
  rewrite Forall_forall in *. intros id Hid. apply Hvalid. by apply Hsub.
Qed.

Lemma addTracksInBatches_ours playlistID trackIDs :
  Emits ours (addTracksInBatches client playlistID trackIDs).
Proof.
  apply batchLoop_emits_sized; [lia| |lia].
  intros batch Hlen Hsub. unfold sendAdd.
  apply emits_bind; [|intros; apply emits_ret].
  by apply emits_wrapErr, emits_call.
Qed.

Lemma applyImage_ours year playlistID :
  Emits ours (applyImage client imgGen (playlistNameOf year) playlistID).
Proof.
  unfold applyImage. apply emits_bind.
  - apply emits_attempt, emits_call. intros r. by exists year.
  - intros [img|e]; [|apply emits_ret].
    apply emits_bind; [|intros; apply emits_ret].
    by apply emits_attempt, emits_call.
Qed.

Lemma processYear_ours fuel user tracksByYear year :
  PrivateUser.ID user = userID →
  Emits ours (processYear client imgGen fuel user tracksByYear year).
Proof.
  intros Huser. unfold processYear, findExistingPlaylist. rewrite !Huser.
  apply emits_bind; [apply findLoop_ours|].
  intros existing. apply emits_bind.
  - destruct existing as [pl|].
    + unfold clearExisting. apply emits_bind_ok.
      * apply emits_wrapErr, fetchPlaylistLoop_ours.
      * intros w ids w1 t1 Hfetch. apply wrapErr_ok_inv in Hfetch.
        apply fetchAllPlaylistTracks_valid in Hfetch.
        apply (emits_bind ours); [|intros; apply emits_ret].
        by apply emits_wrapErr, removeTracksInBatches_ours.
    + unfold createNew. apply emits_bind; [|intros; apply emits_ret].
      apply emits_wrapErr, emits_call. intros r.
      split_and!; try done. by exists year.
  - intros playlistID. apply emits_bind; [apply applyImage_ours|].
    intros _. apply addTracksInBatches_ours.
Qed.

Lemma forYears_ours fuel user tracksByYear years :
  PrivateUser.ID user = userID →
  Emits ours (forYears client imgGen fuel user tracksByYear years).
Proof.
  intros Huser. induction years as [|year years IH]; simpl;
    [apply emits_ret|].
  apply emits_bind; [by apply processYear_ours | intros _; apply IH].
Qed.
End YearCalls.

Lemma fetchLikedLoop_asks_50 {W} (client : SpotifyClient W) (P : Event → Prop)
    fuel allTracks offset :
  (∀ off r, P (ECurrentUsersTracks 50 off r)) →
  Emits P (fetchLikedLoop client fuel allTracks offset).
Proof.
  intros HP. revert allTracks offset.
  induction fuel as [|fuel IH]; intros allTracks offset; simpl.
  - apply emits_starve.
  - apply emits_bind; [by apply emits_call|]. intros page.
    destruct (decide _); [apply emits_ret | apply IH].
Qed.

(** The three phases of a run. *)
Lemma Run_phases {W} (client : SpotifyClient W) (imgGen : ImageGenerator W)
    (parseYear : string → option Z) (fuel : nat) (w : W) :
  let '(_, _, tr) := Run client imgGen parseYear fuel w in
  ∃ fetches rest,
    tr = fetches ++ rest
    ∧ Forall (λ ev, ∃ offset r, ev = ECurrentUsersTracks 50 offset r) fetches
    ∧ (rest = []
       ∨ (∃ cause, rest = [ECurrentUser (Raise cause)])
       ∨ ∃ user calls,
           rest = ECurrentUser (Ret user) :: calls
           ∧ Forall (yearCall (PrivateUser.ID user)) calls).
Proof.
  unfold Run, bind, wrapErr.
  pose proof (fetchLikedLoop_asks_50 client
                (λ ev, ∃ offset r, ev = ECurrentUsersTracks 50 offset r)
                fuel [] 0) as Hfetch.
  specialize (Hfetch ltac:(simpl; eauto) w). unfold fetchAllLikedTracks.
  destruct (fetchLikedLoop client fuel [] 0 w) as [[[allTracks|e|] w1] t1];
    simpl in Hfetch.
  2,3: exists t1, []; rewrite app_nil_r; eauto.
  destruct (decide _).
  { unfold ret. exists t1, []. eauto. }
  unfold call. destruct (CurrentUser client w1) as [[user|e] w2].
  - pose proof (forYears_ours client imgGen (PrivateUser.ID user) fuel user
                  (groupTracksByYear parseYear allTracks)
                  (sortedYears (groupTracksByYear parseYear allTracks))
                  eq_refl w2) as Hyears.
    destruct (forYears _ _ _ _ _ _ w2) as [[o3 w3] t3]. simpl in Hyears.
    exists t1, (ECurrentUser (Ret user) :: t3). split_and!; [done|done|].
    right. right. by exists user, t3.
  - exists t1, [ECurrentUser (Raise e)]. split_and!; [done|done|].
    right. left. by exists e.
Qed.

(** X5.  Every call [playlistSorter.Run] makes stays within the limits
    of the remote interface: liked tracks and playlists are listed 50 at
    a time, playlist items 100 at a time, and every addition or removal
    call on a playlist carries at least one and at most 100
    identifiers. *)
Theorem Run_request_limits {W} (client : SpotifyClient W)
    (imgGen : ImageGenerator W) (parseYear : string → option Z)
    (fuel : nat) (w : W) :
  Forall (λ ev,
            match ev with
            | ECurrentUsersTracks limit _ _
            | EGetPlaylistsForUser _ limit _ _ => limit = 50
            | EGetPlaylistTracks _ limit _ _ => limit = 100
            | ERemoveTracksFromPlaylist _ ids _
            | EAddTracksToPlaylist _ ids _ => 1 ≤ len ids ≤ 100
            | _ => True
            end)
    (Run client imgGen parseYear fuel w).2.
Proof.
  pose proof (Run_phases client imgGen parseYear fuel w) as Hphases.
  destruct (Run client imgGen parseYear fuel w) as [[o w'] tr]. simpl.
  destruct Hphases as (fetches & rest & -> & Hfetches & Hrest).
  apply Forall_app. split.
  - eapply Forall_impl; [exact Hfetches|]. by intros ev (off & r & ->).
  - destruct Hrest as [->|[(cause & ->)|(user & calls & -> & Hcalls)]].
    + constructor.
    + by repeat constructor.
    + constructor; [done|]. eapply Forall_impl; [exact Hcalls|].
      intros ev Hev. destruct ev; simpl in *; try done; tauto.
Qed.

(** X6.  A run of [playlistSorter.Run] has three phases: listings of the
    liked tracks; then, unless it has ended, one [CurrentUser] call;
    then, when that call succeeded, calls among which every listing of
    playlists and every creation is made for the identifier of the user
    that call returned.  Every playlist it creates is private, not
    collaborative, and named and described after one and the same
    year.  The liked tracks and the current user are not asked for
    again. *)
Theorem Run_acts_for_current_user {W} (client : SpotifyClient W)
    (imgGen : ImageGenerator W) (parseYear : string → option Z)
    (fuel : nat) (w : W) :
  ∃ fetches rest,
    (Run client imgGen parseYear fuel w).2 = fetches ++ rest
    ∧ Forall (λ ev, ∃ limit offset r, ev = ECurrentUsersTracks limit offset r)
        fetches
    ∧ (rest = []
       ∨ (∃ cause, rest = [ECurrentUser (Raise cause)])
       ∨ ∃ user calls,
           rest = ECurrentUser (Ret user) :: calls
           ∧ Forall
               (λ ev,
                  match ev with
                  | EGetPlaylistsForUser uid _ _ _ => uid = PrivateUser.ID user
                  | ECreatePlaylistForUser uid name description public
                      collaborative _ =>
                    uid = PrivateUser.ID user
                    ∧ public = false ∧ collaborative = false
                    ∧ ∃ year,
                        name = "Liked Songs (" +:+ itoa year +:+ ")"
                        ∧ description
                          = "All songs I liked that were added in "
                            +:+ itoa year +:+ "."
                  | ECurrentUser _ | ECurrentUsersTracks _ _ _ => False
                  | _ => True
                  end) calls).
Proof.
  pose proof (Run_phases client imgGen parseYear fuel w) as Hphases.
  destruct (Run client imgGen parseYear fuel w) as [[o w'] tr]. simpl.
  destruct Hphases as (fetches & rest & -> & Hfetches & Hrest).
  exists fetches, rest. split_and!; [done| |].
  - eapply Forall_impl; [exact Hfetches|]. intros ev (off & r & ->). eauto.
  - destruct Hrest as [->|[(cause & ->)|(user & calls & -> & Hcalls)]];
      [by left | right; left; eauto |].
    right. right. exists user, calls. split; [done|].
    eapply Forall_impl; [exact Hcalls|].
    intros ev Hev. destruct ev; simpl in *; try done; tauto.
Qed.

(** X7.  [fetchAllPlaylistTracks] never returns an empty track
    identifier, and so no removal call of [playlistSorter.Run] ever
    carries one: items whose track is unavailable are left out of the
    clear step. *)
Theorem Run_removes_valid_ids {W} (client : SpotifyClient W)
    (imgGen : ImageGenerator W) (parseYear : string → option Z) :
  (∀ fuel playlistID (w w' : W) ids tr,
     fetchAllPlaylistTracks client fuel playlistID w = (Ok ids, w', tr) →
     Forall (λ id, id ≠ "") ids)
  ∧ (∀ fuel (w : W),
       Forall (λ ev,
                 match ev with
                 | ERemoveTracksFromPlaylist _ ids _ =>
                   Forall (λ id, id ≠ "") ids
                 | _ => True
                 end)
         (Run client imgGen parseYear fuel w).2).
Proof.
  split.
  - intros fuel playlistID w w' ids tr.
    apply fetchAllPlaylistTracks_valid.
  - intros fuel w.
    pose proof (Run_phases client imgGen parseYear fuel w) as Hphases.
    destruct (Run client imgGen parseYear fuel w) as [[o w'] tr]. simpl.
    destruct Hphases as (fetches & rest & -> & Hfetches & Hrest).
    apply Forall_app. split.
    + eapply Forall_impl; [exact Hfetches|]. by intros ev (off & r & ->).
    + destruct Hrest as [->|[(cause & ->)|(user & calls & -> & Hcalls)]].
      * constructor.
      * by repeat constructor.
      * constructor; [done|]. eapply Forall_impl; [exact Hcalls|].
        intros ev Hev. destruct ev; simpl in *; try done; tauto.
Qed.

Lemma Run_removes_valid_ids_witness :
  (fetchAllPlaylistTracks memClient 5 "p1" blankRemote).1.1 = Ok ["x"; "y"]
  ∧ Forall (λ id, id ≠ "") ["x"; "y"].
Proof.
  split; [by vm_compute|].
  destruct (fetchAllPlaylistTracks memClient 5 "p1" blankRemote)
    as [[o w'] tr] eqn:Hrun.
  assert (o = Ok ["x"; "y"]) as ->
    by (vm_compute in Hrun; by injection Hrun as <- _ _).
  exact (proj1 (Run_removes_valid_ids memClient (pureGen noImage) rfc3339Year)
           _ _ _ _ _ _ Hrun).
Defined.

Section RemoverCalls.
Context {W : Type}.
Variable client : SpotifyClient W.
Variable artists : gset string.

Lemma removerLoop_calls fuel offset total :
  Emits (λ ev,
           match ev with
           | ECurrentUsersTracks limit _ _ => limit = 50
           | ERemoveTracksFromLibrary ids _ => ids ≠ []
           | _ => False
           end)
    (removerLoop client artists fuel offset total).
Proof.
  revert offset total. induction fuel as [|fuel IH]; intros offset total;
    [apply emits_starve|].
  cbn [removerLoop]. apply emits_bind; [by apply emits_wrapErr, emits_call|].
  intros page. destruct (decide _); [apply emits_ret|].
  apply emits_bind.
  - destruct (decide (len _ > 0)) as [Hsome|_]; [|apply emits_ret].
    apply emits_bind; [|intros; apply emits_ret].
    apply emits_attempt, emits_call. intros r Hnil.
    rewrite Hnil in Hsome. done.
  - intros _. destruct (decide _); [apply emits_ret | apply IH].
Qed.
End RemoverCalls.

(** X8.  Each processor keeps to its own part of the remote interface:
    [playlistSorter.Run] never removes anything from the library, and
    [artistTrackRemover.Run] makes no other calls than listings of the
    liked tracks, 50 at a time, and removals from the library, each
    carrying at least one identifier; it never reads or changes a
    playlist. *)
Theorem processors_keep_apart {W} (client : SpotifyClient W)
    (imgGen : ImageGenerator W) (parseYear : string → option Z)
    (artists : gset string) (fuel : nat) (w : W) :
  Forall (λ ev, ∀ ids r, ev ≠ ERemoveTracksFromLibrary ids r)
    (Run client imgGen parseYear fuel w).2
  ∧ Forall (λ ev,
              match ev with
              | ECurrentUsersTracks limit _ _ => limit = 50
              | ERemoveTracksFromLibrary ids _ => ids ≠ []
              | _ => False
              end)
      (artistTrackRemover_Run client artists fuel w).2.
Proof.
  split; [|apply removerLoop_calls].
  pose proof (Run_phases client imgGen parseYear fuel w) as Hphases.
  destruct (Run client imgGen parseYear fuel w) as [[o w'] tr]. simpl.
  destruct Hphases as (fetches & rest & -> & Hfetches & Hrest).
  apply Forall_app. split.
  - eapply Forall_impl; [exact Hfetches|]. by intros ev (off & r & ->).
  - destruct Hrest as [->|[(cause & ->)|(user & calls & -> & Hcalls)]].
    + constructor.
    + by repeat constructor.
    + constructor; [done|]. eapply Forall_impl; [exact Hcalls|].
      intros ev Hev. by destruct ev.
Qed.

(** ** When the loops return *)

Section RemoverReturns.
Context {W : Type}.
Variable client : SpotifyClient W.
Variable artists : gset string.

(** The removal step of a round never fails and never starves. *)
Lemma removal_step_ok (marked : list ID) (w1 : W) :
  ∃ w2 t,
    (if decide (len marked > 0)
     then let* _ := attempt (call (RemoveTracksFromLibrary client marked)
                                  (ERemoveTracksFromLibrary marked)) in
          ret tt
     else ret tt) w1 = (Ok tt, w2, t).
Proof.
  destruct (decide (len marked > 0)) as [_|_]; [|unfold ret; eauto].
  unfold bind, attempt, call, ret.
  destruct (RemoveTracksFromLibrary client marked w1) as [[[]|e] w2]; eauto.
Qed.

Local Abbreviation inRange :=
  (λ (top : Z) (ev : Event),
     match ev with
     | ECurrentUsersTracks _ offset _ => 0 ≤ offset ∧ offset + 50 ≤ top
     | _ => True
     end).

Lemma removal_step_inRange top (marked : list ID) :
  Emits (inRange top)
    (if decide (len marked > 0)
     then let* _ := attempt (call (RemoveTracksFromLibrary client marked)
                                  (ERemoveTracksFromLibrary marked)) in
          ret tt
     else ret tt).
Proof.
  destruct (decide _); [|apply emits_ret].
  apply emits_bind; [|intros; apply emits_ret].
  by apply emits_attempt, emits_call.
Qed.

Lemma removerLoop_returns (top : Z) fuel :
  ∀ offset total (w : W),
    total ≠ -1 → (1 ≤ fuel)%nat → total - offset ≤ 50 * Z.of_nat fuel →
    0 ≤ offset < total → total + 50 ≤ top →
    let '(o, _, tr) := removerLoop client artists fuel offset total w in
    o ≠ NoFuel ∧ Forall (inRange top) tr.
Proof.
  induction fuel as [|fuel IH];
    intros offset total w Hknown Hfuel Hleft Hoffset Htop; [lia|].
  cbn [removerLoop]. rewrite bind_wrapErr_call.
  destruct (CurrentUsersTracks client 50 offset w) as [[page|e] w1].
  2:{ split; [done|]. repeat constructor; lia. }
  destruct (decide (total = -1)) as [?|_]; [done|].
  destruct (decide (len (SavedTrackPage.Tracks page) = 0)).
  { split; [done|]. repeat constructor; lia. }
  unfold bind at 1.
  pose proof (removal_step_inRange top
                (findTracksToRemove artists (SavedTrackPage.Tracks page)) w1)
    as Hcalls.
  destruct (removal_step_ok
              (findTracksToRemove artists (SavedTrackPage.Tracks page)) w1)
    as (w2 & t & Hstep).
  rewrite Hstep in Hcalls |- *. simpl in Hcalls.
  destruct (decide (total ≠ -1 ∧ offset + 50 >= total)) as [_|Hgo].
  { split; [done|]. constructor; [lia|]. by rewrite app_nil_r. }
  assert (offset + 50 < total) as Hmore by lia.
  specialize (IH (offset + 50) total w2 Hknown ltac:(lia) ltac:(lia)
                ltac:(lia) Htop).
  destruct (removerLoop client artists fuel (offset + 50) total w2)
    as [[o3 w3] t3].
  destruct IH as [Ho Hrest]. split; [done|].
  constructor; [lia|]. by apply Forall_app.
Qed.
End RemoverReturns.

(** X9.  [artistTrackRemover.Run] comes to an end once the first page
    has reported a total that is a count (not negative) and leaves room
    for one more step of 50 in an [int]: whatever the remote serves
    afterwards, it returns (nil, or the error of a listing call) after
    at most [ceil (total / 50)] rounds, and at least one; and every
    offset it asks for, moved on by 50, is still an [int], so that
    [offset += limit] never wraps around on the way.  In terms of the
    embedding: [n] rounds of fuel suffice as soon as [50 * n] reaches the
    total reported with the first page. *)
Theorem artistTrackRemover_Run_returns {W} (client : SpotifyClient W)
    (artists : gset string) (bits : Z) (fuel : nat) (w : W) :
  32 ≤ bits →
  (1 ≤ fuel)%nat →
  (∀ page w1,
     CurrentUsersTracks client 50 0 w = (Ret page, w1) →
     0 ≤ SavedTrackPage.Total page
     ∧ SavedTrackPage.Total page ≤ 50 * Z.of_nat fuel
     ∧ SavedTrackPage.Total page + 50 ≤ maxInt bits) →
  let '(o, _, tr) := artistTrackRemover_Run client artists fuel w in
  o ≠ NoFuel
  ∧ Forall (λ ev,
              match ev with
              | ECurrentUsersTracks _ offset _ =>
                0 ≤ offset ∧ offset + 50 ≤ maxInt bits
              | _ => True
              end) tr.
Proof.
  intros Hbits Hfuel Hfirst. unfold artistTrackRemover_Run.
  assert (50 ≤ maxInt bits) as Hroom.
  { unfold maxInt.
    pose proof (Z.pow_le_mono_r 2 31 (bits - 1) ltac:(lia) ltac:(lia)).
    change (2 ^ 31) with 2147483648 in *. lia. }
  destruct fuel as [|fuel]; [lia|].
  cbn [removerLoop]. rewrite bind_wrapErr_call.
  destruct (CurrentUsersTracks client 50 0 w) as [[page|e] w1] eqn:Hcall.
  2:{ split; [done|]. repeat constructor; lia. }
  destruct (Hfirst page w1 eq_refl) as (Hcount & Hbound & Htop).
  destruct (decide (-1 = -1)) as [_|?]; [|done].
  destruct (decide (len (SavedTrackPage.Tracks page) = 0)).
  { split; [done|]. repeat constructor; lia. }
  unfold bind at 1.
  pose proof (removal_step_inRange client (maxInt bits)
                (findTracksToRemove artists (SavedTrackPage.Tracks page)) w1)
    as Hcalls.
  destruct (removal_step_ok client
              (findTracksToRemove artists (SavedTrackPage.Tracks page)) w1)
    as (w2 & t & Hstep).
  rewrite Hstep in Hcalls |- *. simpl in Hcalls.
  destruct (decide (SavedTrackPage.Total page ≠ -1
                    ∧ 0 + 50 >= SavedTrackPage.Total page)) as [_|Hgo].
  { split; [done|]. constructor; [lia|]. by rewrite app_nil_r. }
  pose proof (removerLoop_returns client artists (maxInt bits) fuel (0 + 50)
                (SavedTrackPage.Total page) w2 ltac:(lia) ltac:(lia)
                ltac:(lia) ltac:(lia) Htop) as Hrest.
  destruct (removerLoop client artists fuel (0 + 50)
              (SavedTrackPage.Total page) w2) as [[o3 w3] t3].
  destruct Hrest as [Ho Hrest]. split; [done|].
  constructor; [lia|]. by apply Forall_app.
Qed.

Lemma artistTrackRemover_Run_returns_witness :
  32 ≤ 64
  ∧ (1 ≤ 1)%nat
  ∧ (artistTrackRemover_Run memClient {["BadArtist"]} 1 smallRemote).1.1
    ≠ NoFuel.
Proof.
  split; [lia|]. split; [lia|].
  pose proof (artistTrackRemover_Run_returns memClient {["BadArtist"]} 64 1
                smallRemote ltac:(lia) ltac:(lia)) as Hrun.
  destruct (artistTrackRemover_Run memClient {["BadArtist"]} 1 smallRemote)
    as [[o w'] tr].
  apply Hrun. intros page w1 [= <- <-]. vm_compute. split_and!; discriminate.
Defined.

Section PagerGoesOn.
Context {W : Type}.
Variable client : SpotifyClient W.
Hypothesis never_empty : ∀ limit offset w,
  ∃ page w',
    CurrentUsersTracks client limit offset w = (Ret page, w')
    ∧ SavedTrackPage.Tracks page ≠ [].

Lemma fetchLikedLoop_goes_on fuel :
  ∀ allTracks offset (w : W),
    let '(o, _, tr) := fetchLikedLoop client fuel allTracks offset w in
    o = NoFuel ∧ length tr = fuel.
Proof.
  induction fuel as [|fuel IH]; intros allTracks offset w; [done|].
  cbn [fetchLikedLoop]. rewrite bind_call.
  destruct (never_empty 50 offset w) as (page & w1 & -> & Hne).
  destruct (decide (len (SavedTrackPage.Tracks page) = 0)) as [Hz|_].
  { destruct (SavedTrackPage.Tracks page); [done|discriminate]. }
  specialize (IH (allTracks ++ SavedTrackPage.Tracks page)
                (offset + len (SavedTrackPage.Tracks page)) w1).
  destruct (fetchLikedLoop client fuel _ _ w1) as [[o2 w2] t2].
  destruct IH as [-> <-]. done.
Qed.
End PagerGoesOn.

(** X10.  [fetchAllLikedTracks] has no other way out than an empty page
    or a failed call: against a remote that answers every listing of
    liked tracks with a non-empty page it never returns, whatever total
    those pages report, and [playlistSorter.Run] with it.  In terms of
    the embedding: every amount of fuel is used up, all of it in listing
    calls. *)
Theorem fetchAllLikedTracks_goes_on {W} (client : SpotifyClient W)
    (imgGen : ImageGenerator W) (parseYear : string → option Z) :
  (∀ limit offset w,
     ∃ page w',
       CurrentUsersTracks client limit offset w = (Ret page, w')
       ∧ SavedTrackPage.Tracks page ≠ []) →
  ∀ (fuel : nat) (w : W),
    (fetchAllLikedTracks client fuel w).1.1 = NoFuel
    ∧ length (fetchAllLikedTracks client fuel w).2 = fuel
    ∧ (Run client imgGen parseYear fuel w).1.1 = NoFuel.
Proof.
  intros Hnever fuel w.
  pose proof (fetchLikedLoop_goes_on client Hnever fuel [] 0 w) as Hloop.
  unfold Run, bind, wrapErr, fetchAllLikedTracks.
  destruct (fetchLikedLoop client fuel [] 0 w) as [[o w1] t1].
  by destruct Hloop as [-> <-].
Qed.

Lemma fetchAllLikedTracks_goes_on_witness :
  (fetchAllLikedTracks endlessLikes 7 emptyRemote).1.1 = NoFuel
  ∧ length (fetchAllLikedTracks endlessLikes 7 emptyRemote).2 = 7%nat.
Proof.
  destruct (fetchAllLikedTracks_goes_on endlessLikes (pureGen noImage)
              rfc3339Year) with (fuel := 7%nat) (w := emptyRemote)
    as (Hout & Hlen & _); [|done].
  intros limit offset w. eexists _, w. split; [reflexivity|done].
Defined.

(** ** What a call relies on *)

Section Tracing.
Context {W : Type}.
Variable R : list Event → Event → Prop.

Lemma traced_emits {A} (P : Event → Prop) hist (m : M W A) :
  (∀ ev pre, P ev → R (hist ++ pre) ev) → Emits P m → Traced R hist m.
Proof.
  intros HP Hm w pre ev post Heq. apply HP. specialize (Hm w).
  rewrite Heq in Hm. apply Forall_app in Hm as [_ Hm]. by inversion Hm.
Qed.

Lemma traced_bind {A B} hist (m : M W A) (k : A → M W B) :
  Traced R hist m →
  (∀ w a w1 t1, m w = (Ok a, w1, t1) → Traced R (hist ++ t1) (k a)) →
  Traced R hist (bind m k).
Proof.
  intros Hm Hk w pre ev post. unfold bind. specialize (Hm w).
  destruct (m w) as [[[a|e|] w1] t1] eqn:Hmw; simpl in *; try apply Hm.
  specialize (Hk w a w1 t1 Hmw w1).
  destruct (k a w1) as [[o w2] t2]. simpl in *. intros Heq.
  destruct (app_eq_middle _ _ _ _ _ Heq) as [(p & -> & _)|(p & -> & ->)].
  - by eapply Hm.
  - rewrite app_assoc. by eapply Hk.
Qed.

Lemma traced_bind_all {A B} (m : M W A) (k : A → M W B) :
  (∀ hist, Traced R hist m) → (∀ a hist, Traced R hist (k a)) →
  ∀ hist, Traced R hist (bind m k).
Proof. intros Hm Hk hist. apply traced_bind; [apply Hm|]. intros. apply Hk. Qed.

Variable client : SpotifyClient W.
Variable imgGen : ImageGenerator W.
Variable parseYear : string → option Z.
Hypothesis R_liked : ∀ hist limit offset r,
  R hist (ECurrentUsersTracks limit offset r).
Hypothesis R_user : ∀ hist r, R hist (ECurrentUser r).
Hypothesis R_year : ∀ fuel user tracksByYear year hist,
  Traced R hist (processYear client imgGen fuel user tracksByYear year).

Lemma forYears_traced fuel user tracksByYear years :
  ∀ hist,
    Traced R hist (forYears client imgGen fuel user tracksByYear years).
Proof.
  induction years as [|year years IH]; simpl.
  - intros hist w [|? ?] ev post Heq; discriminate.
  - apply traced_bind_all; [apply R_year | intros _; apply IH].
Qed.

Lemma Run_traced fuel : Traced R [] (Run client imgGen parseYear fuel).
Proof.
  unfold Run. apply traced_bind_all.
  - intros hist. apply traced_emits
      with (P := λ ev, ∃ limit offset r, ev = ECurrentUsersTracks limit offset r).
    { intros ev pre (limit & offset & r & ->). apply R_liked. }
    apply emits_wrapErr, fetchLikedLoop_emits. eauto.
  - intros allTracks hist. destruct (decide _).
    { intros w [|? ?] ev post Heq; discriminate. }
    apply traced_bind_all; [|intros user; apply forYears_traced].
    intros hist'. apply traced_emits with (P := λ ev, ∃ r, ev = ECurrentUser r).
    { intros ev pre (r & ->). apply R_user. }
    apply emits_wrapErr, emits_call. eauto.
Qed.
End Tracing.

Section Uploads.
Context {W : Type}.
Variable client : SpotifyClient W.
Variable imgGen : ImageGenerator W.

Lemma traced_plain {A} (m : M W A) hist :
  Emits (λ ev, is_image ev = false) m → Traced afterGeneration hist m.
Proof.
  apply traced_emits. intros ev pre Hplain. by destruct ev.
Qed.

Lemma applyImage_after_generation playlistName playlistID hist :
  Traced afterGeneration hist
    (applyImage client imgGen playlistName playlistID).
Proof.
  intros w pre ev post. unfold applyImage, bind, attempt, call, ret.
  destruct (GenerateForPlaylist imgGen playlistName w) as [[img|e] w1];
    simpl.
  - destruct (SetPlaylistImage client playlistID img w1) as [r w2]; simpl.
    destruct r as [[]|e]; simpl; intros Heq;
      destruct pre as [|x [|y pre]]; simplify_eq/=; try done;
      try (by destruct pre);
      exists playlistName; apply last_snoc.
  - intros Heq. destruct pre as [|x pre]; simplify_eq/=; [done|].
    by destruct pre.
Qed.

Lemma processYear_after_generation fuel user tracksByYear year hist :
  Traced afterGeneration hist
    (processYear client imgGen fuel user tracksByYear year).
Proof.
  revert hist. unfold processYear, findExistingPlaylist.
  apply traced_bind_all.
  { intros hist. apply traced_plain, findLoop_plain. }
  intros existing. apply traced_bind_all.
  { intros hist. apply traced_plain. destruct existing as [pl|];
      [apply clearExisting_plain | apply createNew_plain]. }
  intros playlistID. apply traced_bind_all.
  { intros hist. apply applyImage_after_generation. }
  intros _ hist. apply traced_plain, addTracksInBatches_plain.
Qed.
End Uploads.

(** X11.  [playlistSorter.Run] uploads a cover only straight after the
    image generator has returned it: the call before every
    [SetPlaylistImage] is a successful [GenerateForPlaylist] whose
    result is the very image that is uploaded. *)
Theorem Run_uploads_generated_image {W} (client : SpotifyClient W)
    (imgGen : ImageGenerator W) (parseYear : string → option Z) (fuel : nat)
    (w : W) pre playlistID img r post :
  (Run client imgGen parseYear fuel w).2
  = pre ++ ESetPlaylistImage playlistID img r :: post →
  ∃ pre' name, pre = pre' ++ [EGenerateForPlaylist name (Ret img)].
Proof.
  intros Heq.
  pose proof (Run_traced afterGeneration client imgGen parseYear) as Hrun.
  specialize (Hrun ltac:(done) ltac:(done)
                (processYear_after_generation client imgGen) fuel w _ _ _ Heq).
  destruct Hrun as [name Hlast]. simpl in Hlast.
  apply last_Some in Hlast as [pre' ->]. by exists pre', name.
Qed.

Lemma Run_uploads_generated_image_witness :
  ∃ pre' name,
    take 8 (Run memClient (pureGen nameAsImage) rfc3339Year 3 smallRemote).2
    = pre' ++ [EGenerateForPlaylist name
                 (Ret (String.list_byte_of_string "Liked Songs (2023)"))].
Proof.
  apply (Run_uploads_generated_image memClient (pureGen nameAsImage)
           rfc3339Year 3 smallRemote _ "p1" _ (Ret tt)
           (drop 9 (Run memClient (pureGen nameAsImage) rfc3339Year 3
                      smallRemote).2)).
  vm_compute. reflexivity.
Defined.

Section Sources.
Context {W : Type}.
Variable client : SpotifyClient W.
Variable imgGen : ImageGenerator W.

Local Abbreviation untargeted := (λ ev : Event, targetOf ev = None).
Local Abbreviation aims :=
  (λ (playlistID : ID) (ev : Event),
     ∀ p, targetOf ev = Some p → p = playlistID).

Lemma traced_untargeted {A} (m : M W A) hist :
  Emits untargeted m → Traced afterSource hist m.
Proof.
  apply traced_emits. intros ev pre Hnone p Hp. congruence.
Qed.

Lemma traced_aims {A} (m : M W A) playlistID hist :
  Exists (sourceOf playlistID) hist →
  Emits (aims playlistID) m → Traced afterSource hist m.
Proof.
  intros Hsrc. apply traced_emits. intros ev pre Haim p Hp.
  apply Haim in Hp as ->. apply Exists_app. by left.
Qed.

Lemma findLoop_untargeted fuel userID name offset :
  Emits untargeted (findLoop client fuel userID name offset).
Proof.
  revert offset. induction fuel as [|fuel IH]; intros offset; simpl;
    [apply emits_starve|].
  apply emits_bind; [by apply emits_wrapErr, emits_call|]. intros page.
  destruct (scanPlaylists _ _ _); [apply emits_ret|].
  destruct (decide _); [apply emits_ret | apply IH].
Qed.

Lemma shelfFetches_source userID year pages last pl :
  ∀ offset,
    scanPlaylists userID (playlistNameOf year)
      (SimplePlaylistPage.Playlists last) = Some pl →
    Exists (sourceOf (SimplePlaylist.ID pl))
      (shelfFetches userID offset (pages ++ [last])).
Proof.
  induction pages as [|page pages IH]; intros offset Hscan; simpl.
  - apply Exists_cons_hd. simpl.
    apply scan_found in Hscan as [Hin [Hname Howner]].
    by exists pl, year.
  - apply Exists_cons_tl. by apply IH.
Qed.

Lemma fetchPlaylistLoop_aims fuel playlistID allTrackIDs offset :
  Emits (aims playlistID)
    (fetchPlaylistLoop client fuel playlistID allTrackIDs offset).
Proof.
  revert allTrackIDs offset. induction fuel as [|fuel IH];
    intros allTrackIDs offset; simpl; [apply emits_starve|].
  apply emits_bind; [apply emits_call; by intros r p [= <-]|]. intros page.
  destruct (decide _); [apply emits_ret | apply IH].
Qed.

Lemma clearExisting_aims fuel playlistName pl :
  Emits (aims (SimplePlaylist.ID pl))
    (clearExisting client fuel playlistName pl).
Proof.
  unfold clearExisting. apply emits_bind.
  - apply emits_wrapErr, fetchPlaylistLoop_aims.
  - intros ids. apply emits_bind; [|intros; apply emits_ret].
    apply emits_wrapErr. unfold removeTracksInBatches.
    destruct (decide _); [apply emits_ret|].
    apply batchLoop_emits. intros batch. unfold sendRemove.
    apply emits_bind; [|intros; apply emits_ret].
    apply emits_wrapErr, emits_call. by intros r p [= <-].
Qed.

Lemma clearExisting_id fuel playlistName pl (w w' : W) playlistID tr :
  clearExisting client fuel playlistName pl w = (Ok playlistID, w', tr) →
  playlistID = SimplePlaylist.ID pl.
Proof.
  unfold clearExisting, bind, ret.
  destruct (wrapErr _ (fetchAllPlaylistTracks client fuel _) w)
    as [[[ids|e|] w1] t1]; try done.
  destruct (wrapErr _ (removeTracksInBatches client _ ids) w1)
    as [[[[]|e|] w2] t2]; try done.
  by intros [= <- _ _].
Qed.

Lemma createNew_source userID playlistName year (w w' : W) playlistID tr :
  createNew client userID playlistName year w = (Ok playlistID, w', tr) →
  Exists (sourceOf playlistID) tr.
Proof.
  unfold createNew. rewrite bind_wrapErr_call.
  destruct (CreatePlaylistForUser client _ _ _ _ _ w) as [[np|e] w1];
    [|done].
  unfold ret. intros [= <- _ <-]. by apply Exists_cons_hd.
Qed.

Lemma writes_aim playlistName playlistID trackIDs :
  Emits (aims playlistID)
    (let* _ := applyImage client imgGen playlistName playlistID in
     addTracksInBatches client playlistID trackIDs).
Proof.
  apply emits_bind.
  - unfold applyImage. apply emits_bind.
    + apply emits_attempt, emits_call. by intros r p.
    + intros [img|e]; [|apply emits_ret].
      apply emits_bind; [|intros; apply emits_ret].
      apply emits_attempt, emits_call. by intros r p [= <-].
  - intros _. apply batchLoop_emits. intros batch. unfold sendAdd.
    apply emits_bind; [|intros; apply emits_ret].
    apply emits_wrapErr, emits_call. by intros r p [= <-].
Qed.

Lemma processYear_after_source fuel user tracksByYear year hist :
  Traced afterSource hist
    (processYear client imgGen fuel user tracksByYear year).
Proof.
  unfold processYear, findExistingPlaylist. apply traced_bind.
  { apply traced_untargeted, findLoop_untargeted. }
  intros w existing w1 t1 Hfind. apply traced_bind.
  - destruct existing as [pl|].
    + apply findLoop_ok in Hfind as (pages & last & -> & _ & Hscan & _).
      apply traced_aims with (playlistID := SimplePlaylist.ID pl);
        [|apply clearExisting_aims].
      apply Exists_app. right. by apply shelfFetches_source with year.
    + apply traced_untargeted. unfold createNew.
      apply emits_bind; [|intros; apply emits_ret].
      by apply emits_wrapErr, emits_call.
  - intros w2 playlistID w3 t2 Hprep.
    apply traced_aims with (playlistID := playlistID); [|apply writes_aim].
    destruct existing as [pl|].
    + apply clearExisting_id in Hprep as ->.
      apply findLoop_ok in Hfind as (pages & last & -> & _ & Hscan & _).
      apply Exists_app. left. apply Exists_app. right.
      by apply shelfFetches_source with year.
    + apply Exists_app. right. by eapply createNew_source.
Qed.
End Sources.

(** X12.  [playlistSorter.Run] addresses no playlist it has not been
    handed: the identifier in every [GetPlaylistTracks],
    [RemoveTracksFromPlaylist], [AddTracksToPlaylist] and
    [SetPlaylistImage] call was obtained earlier in the same run, either
    as the reply to its own [CreatePlaylistForUser], or from an entry of
    a playlist listing whose name is that of a year and whose owner is
    the user the listing was asked for. *)
Theorem Run_addresses_obtained_playlists {W} (client : SpotifyClient W)
    (imgGen : ImageGenerator W) (parseYear : string → option Z) (fuel : nat)
    (w : W) pre ev post playlistID :
  (Run client imgGen parseYear fuel w).2 = pre ++ ev :: post →
  targetOf ev = Some playlistID →
  Exists (sourceOf playlistID) pre.
Proof.
  intros Heq Htarget.
  pose proof (Run_traced afterSource client imgGen parseYear) as Hrun.
  apply (Hrun ltac:(by intros ???? p) ltac:(by intros ?? p)
           (processYear_after_source client imgGen) fuel w _ _ _ Heq
           playlistID Htarget).
Qed.

Lemma Run_addresses_obtained_playlists_witness :
  Exists (sourceOf "p1")
    (take 6 (Run memClient (pureGen noImage) rfc3339Year 3 smallRemote).2).
Proof.
  apply (Run_addresses_obtained_playlists memClient (pureGen noImage)
           rfc3339Year 3 smallRemote _
           (ERemoveTracksFromPlaylist "p1" ["x"; "y"] (Ret "snapshot"))
           (drop 7 (Run memClient (pureGen noImage) rfc3339Year 3
                      smallRemote).2));
    [vm_compute; reflexivity | reflexivity].
Defined.

(** ** What the processors leave alone *)

Lemma settleYear_frame gen year bucket (w : Remote.t) id q :
  Remote.playlists w !! id = Some q →
  MemPlaylist.Owner q ≠ PrivateUser.ID (Remote.me w)
  ∨ MemPlaylist.Name q ≠ playlistNameOf year →
  Remote.playlists (settleYear gen year bucket w) !! id = Some q.
Proof.
  intros Hq Hother. unfold settleYear.
  destruct (scanPlaylists _ _ (listing w)) as [pl|] eqn:Hscan.
  - destruct (scan_found _ _ _ _ Hscan) as [Hin [Hname Howner]].
    destruct (listing_entry w pl Hin) as (p & Hp & Hn & Ho).
    rewrite Hp. cbn [setPlaylist Remote.playlists].
    rewrite lookup_insert_ne; [done|]. intros Heq.
    rewrite Heq, Hq in Hp. injection Hp as <-.
    destruct Hother as [Hown|Hnm]; congruence.
  - cbn [Remote.playlists]. rewrite lookup_insert_ne; [done|]. intros Heq.
    destruct (newID_fresh w) as [_ Hfresh]. congruence.
Qed.

Lemma settleYear_shelf gen year bucket (w : Remote.t) :
  ∃ created,
    Remote.shelf (settleYear gen year bucket w) = created ++ Remote.shelf w.
Proof.
  destruct (settle_cases gen year bucket w)
    as [(pl & p & _ & _ & _ & ->)|[_ ->]].
  - by exists [].
  - by exists [newID w].
Qed.

Lemma settleYears_frame gen tracksByYear years :
  ∀ w : Remote.t,
    Remote.me (settleYears gen tracksByYear years w) = Remote.me w
    ∧ Remote.library (settleYears gen tracksByYear years w) = Remote.library w
    ∧ (∃ created,
         Remote.shelf (settleYears gen tracksByYear years w)
         = created ++ Remote.shelf w)
    ∧ ∀ id q,
        Remote.playlists w !! id = Some q →
        MemPlaylist.Owner q ≠ PrivateUser.ID (Remote.me w)
        ∨ (∀ year, year ∈ years → MemPlaylist.Name q ≠ playlistNameOf year) →
        Remote.playlists (settleYears gen tracksByYear years w) !! id = Some q.
Proof.
  induction years as [|year years IH]; intros w.
  - split_and!; try done. by exists [].
  - set (bucket := default [] (tracksByYear !! year)).
    change (settleYears gen tracksByYear (year :: years) w)
      with (settleYears gen tracksByYear years (settleYear gen year bucket w)).
    destruct (IH (settleYear gen year bucket w))
      as (Hme & Hlib & [created Hshelf] & Hframe).
    rewrite Hme, Hlib, Hshelf, settle_me, settle_library.
    split_and!; try done.
    + destruct (settleYear_shelf gen year bucket w) as [first ->].
      exists (created ++ first). by rewrite app_assoc.
    + intros id q Hq Hother. apply Hframe.
      * apply settleYear_frame; [done|].
        destruct Hother as [?|Hnames]; [by left|]. right. apply Hnames.
        by left.
      * rewrite settle_me. destruct Hother as [?|Hnames]; [by left|].
        right. intros y Hy. apply Hnames. by right.
Qed.

(** X13.  Against the in-memory remote, with saved tracks that carry
    valid identifiers and fuel that lets the pagers finish:
    [playlistSorter.Run] returns nil and leaves the account and the
    saved tracks as they were; the playlists that were on the shelf stay
    there in their order, behind those it has created; and every
    playlist that belongs to someone else, or whose name is not that of
    a year with saved tracks, is as it was: name, owner, settings, items
    and cover. *)
Theorem Run_leaves_the_rest (parseYear : string → option Z)
    (gen : string → Reply Image) (fuel : nat) (w : Remote.t) :
  Forall (λ item, SavedTrack.ID item ≠ "") (Remote.library w) →
  enoughFuel fuel w →
  let '(o, w', _) := Run memClient (pureGen gen) parseYear fuel w in
  o = Ok tt
  ∧ Remote.me w' = Remote.me w
  ∧ Remote.library w' = Remote.library w
  ∧ (∃ created, Remote.shelf w' = created ++ Remote.shelf w)
  ∧ ∀ id q,
      Remote.playlists w !! id = Some q →
      MemPlaylist.Owner q ≠ PrivateUser.ID (Remote.me w)
      ∨ (∀ year,
           year ∈ sortedYears (groupTracksByYear parseYear (Remote.library w)) →
           MemPlaylist.Name q ≠ playlistNameOf year) →
      Remote.playlists w' !! id = Some q.
Proof.
  intros Hvalid Hfuel.
  destruct (Run_mem parseYear gen fuel w Hvalid) as (tr & ->);
    [destruct Hfuel; lia | by apply enoughFuel_itemsFit |].
  split; [done|]. destruct (decide (Remote.library w = [])) as [_|_].
  { split_and!; try done. by exists []. }
  apply settleYears_frame.
Qed.

Lemma Run_leaves_the_rest_witness :
  let '(o, w', _) :=
    Run memClient (pureGen noImage) rfc3339Year 10 mixedRemote in
  o = Ok tt
  ∧ Remote.playlists w' !! "p2" = Some (ownPlaylist "Road trip" ["k"]).
Proof.
  assert (Forall (λ item, SavedTrack.ID item ≠ "") (Remote.library mixedRemote))
    as Hvalid by (by repeat constructor).
  assert (enoughFuel 10 mixedRemote) as Hfuel.
  { split; [simpl; lia|]. intros id p Hp.
    unfold mixedRemote in Hp. cbn [Remote.playlists] in Hp.
    apply lookup_insert_Some in Hp as [[_ <-]|[_ Hp]]; [simpl; lia|].
    apply lookup_singleton_Some in Hp as [_ <-]. simpl. lia. }
  pose proof (Run_leaves_the_rest rfc3339Year noImage 10 mixedRemote
                Hvalid Hfuel) as Hrun.
  destruct (Run memClient (pureGen noImage) rfc3339Year 10 mixedRemote)
    as [[o w'] tr].
  destruct Hrun as (Ho & _ & _ & _ & Hframe). split; [done|].
  apply Hframe; [done|]. right. intros year _. discriminate.
Defined.

Section RemoverMem.
Variable artists : gset string.

Lemma marked_subseteq (l1 l2 : list SavedTrack.t) :
  l1 ⊆ l2 → findTracksToRemove artists l1 ⊆ findTracksToRemove artists l2.
Proof.
  unfold findTracksToRemove. rewrite !markStep_foldl. simpl.
  intros Hsub id Hin.
  apply list_elem_of_fmap in Hin as (item & -> & Hitem).
  apply list_elem_of_filter in Hitem as [Hl Hin].
  apply list_elem_of_fmap. exists item. split; [done|].
  apply list_elem_of_filter. split; [done|]. by apply Hsub.
Qed.

Lemma pageOf_subseteq {A} (l : list A) limit offset :
  pageOf l limit offset ⊆ l.
Proof.
  unfold pageOf. etrans; [apply subseteq_take | apply subseteq_drop].
Qed.

Lemma keep_all (l : list SavedTrack.t) :
  filter (λ tr, SavedTrack.ID tr ∉ []) l = l.
Proof. apply filter_all. intros x _. apply not_elem_of_nil. Qed.

Lemma removal_step_mem (marked : list ID) (w : Remote.t) :
  ∃ w1 t,
    (if decide (len marked > 0)
     then let* _ := attempt (call (RemoveTracksFromLibrary memClient marked)
                                  (ERemoveTracksFromLibrary marked)) in
          ret tt
     else ret tt) w = (Ok tt, w1, t)
    ∧ Remote.me w1 = Remote.me w
    ∧ Remote.shelf w1 = Remote.shelf w
    ∧ Remote.playlists w1 = Remote.playlists w
    ∧ Remote.library w1
      = filter (λ tr, SavedTrack.ID tr ∉ marked) (Remote.library w).
Proof.
  destruct (decide (len marked > 0)) as [_|Hnone].
  - eexists _, _. split; [reflexivity|]. done.
  - exists w, []. split; [done|]. split_and!; try done.
    destruct marked; [by rewrite keep_all | unfold len in Hnone; simpl in *; lia].
Qed.

Lemma removerLoop_mem fuel :
  ∀ offset total (w : Remote.t),
    let '(o, w', _) := removerLoop memClient artists fuel offset total w in
    (o = Ok tt ∨ o = NoFuel)
    ∧ Remote.me w' = Remote.me w
    ∧ Remote.shelf w' = Remote.shelf w
    ∧ Remote.playlists w' = Remote.playlists w
    ∧ ∃ removed,
        removed ⊆ findTracksToRemove artists (Remote.library w)
        ∧ Remote.library w'
          = filter (λ tr, SavedTrack.ID tr ∉ removed) (Remote.library w).
Proof.
  induction fuel as [|fuel IH]; intros offset total w.
  { simpl. split_and!; auto. exists []. split; [|by rewrite keep_all].
    intros x Hx. by apply elem_of_nil in Hx. }
  cbn [removerLoop]. rewrite bind_wrapErr_call.
  cbn [CurrentUsersTracks memClient SavedTrackPage.Tracks
       SavedTrackPage.Total].
  set (page := pageOf (Remote.library w) 50 offset).
  destruct (decide (len page = 0)) as [_|_].
  { simpl. split_and!; auto. exists []. split; [|by rewrite keep_all].
    intros x Hx. by apply elem_of_nil in Hx. }
  unfold bind at 1.
  destruct (removal_step_mem (findTracksToRemove artists page) w)
    as (w1 & t & -> & Hme & Hshelf & Hlists & Hlib).
  assert (findTracksToRemove artists page
          ⊆ findTracksToRemove artists (Remote.library w)) as Hmarked
    by apply marked_subseteq, pageOf_subseteq.
  destruct (decide (_ ∧ _)) as [_|_].
  { unfold ret. split_and!; auto.
    by exists (findTracksToRemove artists page). }
  specialize (IH (offset + 50)
                (if decide (total = -1) then len (Remote.library w)
                 else total) w1).
  destruct (removerLoop memClient artists fuel _ _ w1) as [[o w'] t'].
  destruct IH as (Ho & Hme' & Hshelf' & Hlists' & removed & Hsub & Hlib').
  split_and!; [done|congruence|congruence|congruence|].
  exists (findTracksToRemove artists page ++ removed). split.
  - intros id Hid. apply elem_of_app in Hid as [Hid|Hid]; [by apply Hmarked|].
    apply Hsub in Hid. revert Hid. apply marked_subseteq.
    rewrite Hlib. intros x Hx. by apply list_elem_of_filter in Hx as [_ Hx].
  - rewrite Hlib', Hlib, list_filter_filter. apply filter_agree.
    intros x _. rewrite not_elem_of_app. tauto.
Qed.
End RemoverMem.

(** X14.  Against the in-memory remote, whatever the library and the
    number of rounds: [artistTrackRemover.Run] never fails, leaves the
    account, the shelf and every playlist as they were, and takes out of
    the library only tracks that carry the identifier of a saved track
    by a listed artist; every other track stays, in its place. *)
Theorem artistTrackRemover_Run_only_marked (artists : gset string)
    (fuel : nat) (w : Remote.t) :
  let '(o, w', _) := artistTrackRemover_Run memClient artists fuel w in
  (o = Ok tt ∨ o = NoFuel)
  ∧ Remote.me w' = Remote.me w
  ∧ Remote.shelf w' = Remote.shelf w
  ∧ Remote.playlists w' = Remote.playlists w
  ∧ ∃ removed,
      removed ⊆ findTracksToRemove artists (Remote.library w)
      ∧ Remote.library w'
        = filter (λ tr, SavedTrack.ID tr ∉ removed) (Remote.library w).
Proof. apply removerLoop_mem. Qed.

(** X15.  Against the in-memory remote, for a library of at most 50
    tracks: [artistTrackRemover.Run] returns nil after a single round
    (one listing, at most one removal), and what is left of the library
    is exactly the tracks whose identifier is not that of a saved track
    by a listed artist. *)
Theorem artistTrackRemover_Run_one_page (artists : gset string) (fuel : nat)
    (w : Remote.t) :
  (1 ≤ fuel)%nat →
  (length (Remote.library w) ≤ 50)%nat →
  let '(o, w', calls) := artistTrackRemover_Run memClient artists fuel w in
  o = Ok tt
  ∧ (length calls ≤ 2)%nat
  ∧ Remote.library w'
    = filter (λ item, SavedTrack.ID item
                      ∉ findTracksToRemove artists (Remote.library w))
        (Remote.library w).
Proof.
  intros Hfuel Hshort. destruct fuel as [|fuel]; [lia|].
  unfold artistTrackRemover_Run. cbn [removerLoop].
  rewrite bind_wrapErr_call.
  cbn [CurrentUsersTracks memClient SavedTrackPage.Tracks
       SavedTrackPage.Total].
  assert (pageOf (Remote.library w) 50 0 = Remote.library w) as ->.
  { unfold pageOf. change (Z.to_nat 0) with 0%nat.
    change (Z.to_nat 50) with 50%nat. rewrite drop_0. by apply take_ge. }
  destruct (decide (len (Remote.library w) = 0)) as [Hnone|_].
  { unfold ret. destruct (Remote.library w); [|discriminate].
    split_and!; [done|simpl; lia|done]. }
  unfold bind at 1.
  destruct (removal_step_mem
              (findTracksToRemove artists (Remote.library w)) w)
    as (w1 & t & Hstep & _ & _ & _ & Hlib).
  assert (length t ≤ 1)%nat as Ht.
  { revert Hstep. destruct (decide _); unfold bind, attempt, call, ret;
      simpl; intros [= _ <-]; simpl; lia. }
  rewrite Hstep.
  destruct (decide (-1 = -1)) as [_|?]; [|done].
  destruct (decide (_ ∧ _)) as [_|Hgo].
  - unfold ret. split_and!; [done| |done].
    cbn [length]. rewrite length_app. simpl. lia.
  - destruct Hgo. unfold len. lia.
Qed.

Lemma artistTrackRemover_Run_one_page_witness :
  let '(o, w', _) :=
    artistTrackRemover_Run memClient {["BadArtist"]} 1 smallRemote in
  o = Ok tt
  ∧ SavedTrack.ID <$> Remote.library w' = ["a"; "c"].
Proof.
  pose proof (artistTrackRemover_Run_one_page {["BadArtist"]} 1 smallRemote
                ltac:(lia) ltac:(simpl; lia)) as Hrun.
  destruct (artistTrackRemover_Run memClient {["BadArtist"]} 1 smallRemote)
    as [[o w'] calls].
  destruct Hrun as (-> & _ & ->). split; [done|]. by vm_compute.
Defined.
